(** * Festivalpatch: channel ordering, renumbering and patch/usage reconciliation

    A shallow embedding of the ordering and reconciliation logic of the
    festivalpatch application (Next.js pages over a Supabase/Postgres store):

    - [categoryOrderValue], [canonicalOrder], [sortedCategories],
      [orderedChannels] from the techlist and builder pages;
    - [applyChannelOrder], [pruneUnusedPatchChannels], [ensurePatchChannels],
      [handleAddBand], [loadEventData], [loadBandIntoForm] from
      [app/festival/builder/page.tsx];
    - [toggleUsage] from the matrix page;
    - [handleSaveTechlist] from the techlist page;
    - [movePatchChannel], [reorderPatchChannel], [channelsUsedByAllBands],
      [patchChannelRows] and the auto-save guard of the builder page;
    - [toggleChannel], [loadTechlist], [handleDeleteTechlist],
      [copyToClipboard], [downloadCsv] of the techlist page
      ([TechListPage]);
    - [loadEventData], [handleLabelBlur], [startEditLabel],
      [toggleNewBandChannel], [handleCreateBand] of the matrix page
      ([MatrixPage]).

    JavaScript numbers that hold database integers are [Z]; strings are
    [string]; [Set<string>] is an insertion-ordered duplicate-free list;
    [Map<string, V>] is an association list read with first-match lookup;
    database tables are lists of rows. *)

From Stdlib Require Import List ZArith Lia Bool String Ascii Permutation Sorted Arith
  Finite DecimalString.
Import ListNotations.

Open Scope string_scope.
Open Scope list_scope.
Open Scope Z_scope.

(** ** JavaScript string and array primitives *)

Module Js.

(** [String.prototype.toLowerCase] on the ASCII letters.  The method of the
    engine follows the Unicode case mapping, which also changes letters
    outside ASCII; the statements about the category ranking therefore take
    the case mapping as a parameter ([categoryOrderValueWith]). *)
Definition lower_ascii (c : ascii) : ascii :=
  let n := nat_of_ascii c in
  if ((65 <=? n)%nat && (n <=? 90)%nat)%bool then ascii_of_nat (n + 32) else c.

Fixpoint toLowerCase (s : string) : string :=
  match s with
  | EmptyString => EmptyString
  | String c s' => String (lower_ascii c) (toLowerCase s')
  end.

(** [s.startsWith(t)]: the helper of [includes]. *)
Fixpoint startsWith (s t : string) {struct t} : bool :=
  match t with
  | EmptyString => true
  | String c t' =>
      match s with
      | EmptyString => false
      | String d s' => (Ascii.eqb c d && startsWith s' t')%bool
      end
  end.

(** [s.includes(t)]: [t] occurs in [s] as a contiguous substring. *)
Fixpoint includes (s t : string) : bool :=
  (startsWith s t ||
   match s with
   | EmptyString => false
   | String _ s' => includes s' t
   end)%bool.

(** White space removed by [String.prototype.trim]: the WhiteSpace and
    LineTerminator code points of ECMAScript.  A string holds the UTF-8
    bytes of the text, so a code point above U+007F is a sequence of two or
    three bytes.  [is_space]: U+0009 to U+000D and U+0020. *)
Definition is_space (c : ascii) : bool :=
  let n := nat_of_ascii c in
  ((n =? 32) || ((9 <=? n) && (n <=? 13)))%nat%bool.

(** U+00A0 (C2 A0). *)
Definition is_space2 (c1 c2 : ascii) : bool :=
  ((nat_of_ascii c1 =? 194) && (nat_of_ascii c2 =? 160))%nat%bool.

(** U+1680 (E1 9A 80), U+2000 to U+200A, U+2028, U+2029, U+202F
    (E2 80 80 to 8A, A8, A9, AF), U+205F (E2 81 9F), U+3000 (E3 80 80) and
    U+FEFF (EF BB BF). *)
Definition is_space3 (c1 c2 c3 : ascii) : bool :=
  let n1 := nat_of_ascii c1 in
  let n2 := nat_of_ascii c2 in
  let n3 := nat_of_ascii c3 in
  (((n1 =? 225) && (n2 =? 154) && (n3 =? 128))
   || ((n1 =? 226) && (n2 =? 128)
       && (((128 <=? n3) && (n3 <=? 138)) || (n3 =? 168) || (n3 =? 169) || (n3 =? 175)))
   || ((n1 =? 226) && (n2 =? 129) && (n3 =? 159))
   || ((n1 =? 227) && (n2 =? 128) && (n3 =? 128))
   || ((n1 =? 239) && (n2 =? 187) && (n3 =? 191)))%nat%bool.

Fixpoint trimStart (s : string) : string :=
  match s with
  | EmptyString => s
  | String c1 s1 =>
      if is_space c1 then trimStart s1
      else
        match s1 with
        | EmptyString => s
        | String c2 s2 =>
            if is_space2 c1 c2 then trimStart s2
            else
              match s2 with
              | EmptyString => s
              | String c3 s3 => if is_space3 c1 c2 c3 then trimStart s3 else s
              end
        end
  end.

(** Drops trailing white space: the result ends where the rest of the
    string is white space only. *)
Fixpoint trimEnd (s : string) : string :=
  match s with
  | EmptyString => EmptyString
  | String c s' =>
      if String.eqb (trimStart s) "" then EmptyString else String c (trimEnd s')
  end.

Definition trim (s : string) : string := trimEnd (trimStart s).

(** [Array.prototype.sort(cmp)] is stable: with a comparator that is a
    consistent ordering, its result is the stable sorted arrangement, which
    is what insertion from the right computes: an element stays in front of
    the elements that followed it in the input unless the comparator puts
    it strictly after them. *)
Section Sort.
Context {A : Type} (cmp : A -> A -> Z).

Fixpoint insert (x : A) (l : list A) : list A :=
  match l with
  | [] => [x]
  | y :: l' => if cmp x y <=? 0 then x :: l else y :: insert x l'
  end.

Fixpoint sort (l : list A) : list A :=
  match l with
  | [] => []
  | x :: l' => insert x (sort l')
  end.
End Sort.

(** [Array.prototype.map((x, idx) => ...)]. *)
Fixpoint mapi_from {A B : Type} (f : A -> nat -> B) (i : nat) (l : list A) : list B :=
  match l with
  | [] => []
  | x :: l' => f x i :: mapi_from f (S i) l'
  end.

Definition mapi {A B : Type} (f : A -> nat -> B) (l : list A) : list B :=
  mapi_from f 0 l.

(** [Set<string>]: membership, [add] (appends when absent) and [delete]. *)
Definition set_has (x : string) (s : list string) : bool :=
  existsb (String.eqb x) s.

Definition set_add (x : string) (s : list string) : list string :=
  if set_has x s then s else s ++ [x].

Definition set_delete (x : string) (s : list string) : list string :=
  filter (fun y => negb (String.eqb x y)) s.

(** [Map<string, V>]: [set] shadows an older binding, [get] reads the
    newest one. *)
Definition map_set {V : Type} (k : string) (v : V) (m : list (string * V)) :
  list (string * V) := (k, v) :: m.

Fixpoint map_get {V : Type} (k : string) (m : list (string * V)) : option V :=
  match m with
  | [] => None
  | (k', v) :: m' => if String.eqb k k' then Some v else map_get k m'
  end.

Definition map_has {V : Type} (k : string) (m : list (string * V)) : bool :=
  match map_get k m with Some _ => true | None => false end.

(** Truthiness of a [string | null] value: [null] and the empty string are
    falsy. *)
Definition truthy (o : option string) : bool :=
  match o with
  | Some s => negb (String.eqb s "")
  | None => false
  end.

End Js.

(** ** Data model *)

Record Category := mkCategory {
  cat_id : string;
  cat_name : string;
  cat_sort_order : option Z
}.

Record CanonicalChannel := mkChannel {
  ch_id : string;
  ch_name : string;
  default_order : Z;
  category_id : option string
}.

(** ** Category ranking *)

Definition orderMap : list (list string * Z) :=
  [ (["drum"; "drums"], 0);
    (["perc"; "percussion"], 1);
    (["bass"], 2);
    (["guitar"; "gitaar"], 3);
    (["keys"; "key"; "sample"; "samples"], 4);
    (["varia"; "other"; "overig"], 5);
    (["vox"; "vocal"; "voice"], 6) ].

Definition sentinel : Z := 9999.

Fixpoint firstWeight (lower : string) (table : list (list string * Z)) : Z :=
  match table with
  | [] => sentinel
  | (tokens, weight) :: rest =>
      if existsb (fun t => Js.includes lower t) tokens then weight
      else firstWeight lower rest
  end.

Definition categoryOrderValue (name : string) : Z :=
  firstWeight (Js.toLowerCase name) orderMap.

(** The comparator of [sortedCategories]; a missing [sort_order] counts as
    9999. *)
Definition sortOrderKey (c : Category) : Z :=
  match cat_sort_order c with Some n => n | None => 9999 end.

Definition categoryCompare (a b : Category) : Z :=
  let orderA := categoryOrderValue (cat_name a) in
  let orderB := categoryOrderValue (cat_name b) in
  if negb (orderA =? orderB) then orderA - orderB
  else sortOrderKey a - sortOrderKey b.

Definition sortedCategories (categories : list Category) : list Category :=
  Js.sort categoryCompare categories.

(** The ranking and the category sort with [String.prototype.toLowerCase]
    as a parameter: what is proved of them holds for the case mapping of
    the engine as for any other.  [categoryOrderValue] and
    [sortedCategories] are their instances at [Js.toLowerCase]. *)
Definition categoryOrderValueWith (toLowerCase : string -> string) (name : string) : Z :=
  let lower := toLowerCase name in
  firstWeight lower orderMap.

Definition categoryCompareWith (toLowerCase : string -> string) (a b : Category) : Z :=
  let orderA := categoryOrderValueWith toLowerCase (cat_name a) in
  let orderB := categoryOrderValueWith toLowerCase (cat_name b) in
  if negb (orderA =? orderB) then orderA - orderB
  else sortOrderKey a - sortOrderKey b.

Definition sortedCategoriesWith (toLowerCase : string -> string)
  (categories : list Category) : list Category :=
  Js.sort (categoryCompareWith toLowerCase) categories.

(** ** Channel catalog ordering *)

(** [catOrder]: the [Map] from category id to weight filled by
    [categories.forEach]; a later category with the same id overwrites. *)
Definition catOrder (categories : list Category) : list (string * Z) :=
  fold_left (fun m c => Js.map_set (cat_id c) (categoryOrderValue (cat_name c)) m)
            categories [].

Definition channelWeight (categories : list Category) (a : CanonicalChannel) : Z :=
  if Js.truthy (category_id a) then
    match category_id a with
    | Some cid =>
        match Js.map_get cid (catOrder categories) with
        | Some w => w
        | None => 9999
        end
    | None => 9999
    end
  else 9999.

Definition canonicalOrder (categories : list Category) (a b : CanonicalChannel) : Z :=
  let ca := channelWeight categories a in
  let cb := channelWeight categories b in
  if negb (ca =? cb) then ca - cb
  else default_order a - default_order b.

Definition orderedChannels (categories : list Category)
  (channels : list CanonicalChannel) : list CanonicalChannel :=
  Js.sort (canonicalOrder categories) channels.

(** ** The persistent store

    Rows of the Postgres tables the pages read and write.  Primary keys are
    generated by the database: [uuid s n] is the [n]-th key it hands out and
    [next_uuid s] the index of the next one.  The constraints the notes
    document are [unique(event_id, channel_number)] on [patch_channels] and
    [unique(band_id, patch_channel_id)] on [band_channel_usage]; a statement
    that would break one is rejected as a whole and leaves the table as it
    was.  Failures of another kind (network, permissions) are outside the
    model: a statement that respects the constraints succeeds. *)

Record EventRow := mkEvent {
  ev_id : string;
  ev_name : string;
  event_date : option string
}.

Record PatchRow := mkPatchRow {
  pr_id : string;
  pr_event_id : string;
  pr_channel_number : Z;
  pr_canonical_channel_id : option string
}.

Record BandRow := mkBandRow {
  br_id : string;
  br_event_id : string;
  br_name : string;
  br_sort_order : Z
}.

Record BandChannelUsage := mkUsage {
  us_id : string;
  us_band_id : string;
  us_patch_channel_id : string;
  is_used : bool;
  label : option string
}.

Record Techlist := mkTechlist {
  tl_id : string;
  tl_name : string;
  tl_notes : option string;
  tl_created_at : option string
}.

Record TechlistChannel := mkTechlistChannel {
  tc_id : string;
  tc_techlist_id : string;
  tc_channel_number : Z;
  tc_canonical_channel_id : string;
  tc_label : option string;
  tc_mic_or_di : option string;
  tc_stand : option string;
  tc_notes : option string
}.

Record Store := mkStore {
  canonical_channels : list CanonicalChannel;
  patch_channels : list PatchRow;
  bands : list BandRow;
  band_channel_usage : list BandChannelUsage;
  techlists : list Techlist;
  techlist_channels : list TechlistChannel;
  uuid : nat -> string;
  next_uuid : nat;
  db_now : string
}.

Definition with_patch_channels (s : Store) (v : list PatchRow) : Store :=
  mkStore (canonical_channels s) v (bands s) (band_channel_usage s)
          (techlists s) (techlist_channels s) (uuid s) (next_uuid s) (db_now s).

Definition with_bands (s : Store) (v : list BandRow) : Store :=
  mkStore (canonical_channels s) (patch_channels s) v (band_channel_usage s)
          (techlists s) (techlist_channels s) (uuid s) (next_uuid s) (db_now s).

Definition with_usage (s : Store) (v : list BandChannelUsage) : Store :=
  mkStore (canonical_channels s) (patch_channels s) (bands s) v
          (techlists s) (techlist_channels s) (uuid s) (next_uuid s) (db_now s).

Definition with_techlists (s : Store) (v : list Techlist) : Store :=
  mkStore (canonical_channels s) (patch_channels s) (bands s) (band_channel_usage s)
          v (techlist_channels s) (uuid s) (next_uuid s) (db_now s).

Definition with_techlist_channels (s : Store) (v : list TechlistChannel) : Store :=
  mkStore (canonical_channels s) (patch_channels s) (bands s) (band_channel_usage s)
          (techlists s) v (uuid s) (next_uuid s) (db_now s).

(** The database hands out [n] keys. *)
Definition take_uuids (s : Store) (n : nat) : Store :=
  mkStore (canonical_channels s) (patch_channels s) (bands s) (band_channel_usage s)
          (techlists s) (techlist_channels s) (uuid s) (next_uuid s + n) (db_now s).

(** *** [patch_channels] statements *)

Definition set_number (r : PatchRow) (n : Z) : PatchRow :=
  mkPatchRow (pr_id r) (pr_event_id r) n (pr_canonical_channel_id r).

(** Another row of event [ev] already holds number [n]. *)
Definition patch_conflict (rows : list PatchRow) (self ev : string) (n : Z) : bool :=
  existsb (fun r => negb (String.eqb (pr_id r) self)
                    && String.eqb (pr_event_id r) ev
                    && (pr_channel_number r =? n))%bool rows.

(** [update({ channel_number: n }).eq("id", id)]: the new table and whether
    the statement was accepted.  No matching row: nothing to do. *)
Definition update_channel_number (id : string) (n : Z) (rows : list PatchRow) :
  list PatchRow * bool :=
  match find (fun r => String.eqb (pr_id r) id) rows with
  | None => (rows, true)
  | Some r0 =>
      if patch_conflict rows id (pr_event_id r0) n then (rows, false)
      else (map (fun r => if String.eqb (pr_id r) id then set_number r n else r) rows,
            true)
  end.

(** The row object sent by [ensurePatchChannels] ([custom_name] and [notes]
    are always [null]). *)
Record NewPatch := mkNewPatch {
  np_event_id : string;
  np_channel_number : Z;
  np_canonical_channel_id : string
}.


Definition insert_patch_channels (news : list NewPatch) (s : Store) :
  option (list PatchRow) * Store :=
  let rows := Js.mapi (fun np i =>
                mkPatchRow (uuid s (next_uuid s + i)) (np_event_id np)
                           (np_channel_number np) (Some (np_canonical_channel_id np)))
              news in
  let table := patch_channels s ++ rows in
  if forallb (fun r => negb (patch_conflict table (pr_id r) (pr_event_id r)
                                            (pr_channel_number r))) rows
  then (Some rows, take_uuids (with_patch_channels s table) (List.length news))
  else (None, s).

(** [delete().in("id", ids)].  The notes declare the foreign key
    [band_channel_usage.patch_channel_id -> patch_channels.id] without its
    delete rule; the pages delete patch channels without deleting their
    usage rows first, so the rule is taken to be a cascade: the usage rows
    of a deleted patch channel go with it.  The rule only matters when a
    usage row refers to a deleted patch channel; the statement about the
    pruning is made for stores where none does. *)
Definition delete_patch_channels (ids : list string) (s : Store) : Store :=
  with_usage
    (with_patch_channels s
       (filter (fun r => negb (Js.set_has (pr_id r) ids)) (patch_channels s)))
    (filter (fun u => negb (Js.set_has (us_patch_channel_id u) ids))
            (band_channel_usage s)).

(** [select(...).eq("event_id", eventId).order("channel_number")]. *)
Definition select_patch_rows (s : Store) (eventId : string) : list PatchRow :=
  Js.sort (fun a b => pr_channel_number a - pr_channel_number b)
          (filter (fun r => String.eqb (pr_event_id r) eventId) (patch_channels s)).

(** *** [bands] statements *)

Definition select_bands (s : Store) (eventId : string) : list BandRow :=
  Js.sort (fun a b => br_sort_order a - br_sort_order b)
          (filter (fun b => String.eqb (br_event_id b) eventId) (bands s)).

Definition insert_band (eventId name : string) (sort_order : Z) (s : Store) :
  BandRow * Store :=
  let row := mkBandRow (uuid s (next_uuid s)) eventId name sort_order in
  (row, take_uuids (with_bands s (bands s ++ [row])) 1).

Definition update_band_name (id name : string) (s : Store) : Store :=
  with_bands s
    (map (fun b => if String.eqb (br_id b) id
                   then mkBandRow (br_id b) (br_event_id b) name (br_sort_order b)
                   else b) (bands s)).

(** *** [band_channel_usage] statements *)

Definition usage_conflict (rows : list BandChannelUsage) (self band patch : string) : bool :=
  existsb (fun u => negb (String.eqb (us_id u) self)
                    && String.eqb (us_band_id u) band
                    && String.eqb (us_patch_channel_id u) patch)%bool rows.

Record NewUsage := mkNewUsage {
  nu_band_id : string;
  nu_patch_channel_id : string;
  nu_is_used : bool;
  nu_label : option string
}.

Definition insert_usage (news : list NewUsage) (s : Store) :
  option (list BandChannelUsage) * Store :=
  let rows := Js.mapi (fun nu i =>
                mkUsage (uuid s (next_uuid s + i)) (nu_band_id nu)
                        (nu_patch_channel_id nu) (nu_is_used nu) (nu_label nu))
              news in
  let table := band_channel_usage s ++ rows in
  if forallb (fun u => negb (usage_conflict table (us_id u) (us_band_id u)
                                            (us_patch_channel_id u))) rows
  then (Some rows, take_uuids (with_usage s table) (List.length news))
  else (None, s).

Definition delete_usage_of_band (band : string) (s : Store) : Store :=
  with_usage s (filter (fun u => negb (String.eqb (us_band_id u) band))
                       (band_channel_usage s)).

(** [upsert(payload, { onConflict: "band_id,patch_channel_id" })]: the row
    of the pair is rewritten when there is one, inserted otherwise. *)
Definition upsert_usage (nu : NewUsage) (s : Store) : BandChannelUsage * Store :=
  let same u := (String.eqb (us_band_id u) (nu_band_id nu)
                 && String.eqb (us_patch_channel_id u) (nu_patch_channel_id nu))%bool in
  match find same (band_channel_usage s) with
  | Some old =>
      let row := mkUsage (us_id old) (nu_band_id nu) (nu_patch_channel_id nu)
                         (nu_is_used nu) (nu_label nu) in
      (row, with_usage s (map (fun u => if same u then row else u)
                              (band_channel_usage s)))
  | None =>
      let row := mkUsage (uuid s (next_uuid s)) (nu_band_id nu)
                         (nu_patch_channel_id nu) (nu_is_used nu) (nu_label nu) in
      (row, take_uuids (with_usage s (band_channel_usage s ++ [row])) 1)
  end.

(** ** Persisted sequence renumberer *)

(** The updates of one phase, in the order the requests are issued. *)
Definition phase (offset : Z) (orderedIds : list string) : list (string * Z) :=
  Js.mapi (fun id idx => (id, Z.of_nat idx + offset)) orderedIds.

(** The store handles the statements one after the other; the log records,
    for each, whether the uniqueness constraint let it through.  The page
    never looks at the result of an update. *)
Fixpoint run_updates (ups : list (string * Z)) (rows : list PatchRow) :
  list PatchRow * list bool :=
  match ups with
  | [] => (rows, [])
  | (id, n) :: ups' =>
      let '(rows1, ok) := update_channel_number id n rows in
      let '(rows2, log) := run_updates ups' rows1 in
      (rows2, ok :: log)
  end.

(** The two phases, each handled in the order [ups1], [ups2] in which the
    store happens to take the concurrent requests of [Promise.all]; phase 2
    starts when phase 1 has been answered. *)
Definition renumber_in_order (ups1 ups2 : list (string * Z)) (rows : list PatchRow) :
  list PatchRow * list bool :=
  let '(rows1, log1) := run_updates ups1 rows in
  let '(rows2, log2) := run_updates ups2 rows1 in
  (rows2, log1 ++ log2).

Definition applyChannelOrder_log (orderedIds : list string) (rows : list PatchRow) :
  list PatchRow * list bool :=
  renumber_in_order (phase 1000 orderedIds) (phase 1 orderedIds) rows.

Definition applyChannelOrder (orderedIds : list string) (s : Store) : Store :=
  with_patch_channels s (fst (applyChannelOrder_log orderedIds (patch_channels s))).

(** The number a record holds, by id. *)
Definition number_of (rows : list PatchRow) (id : string) : option Z :=
  option_map pr_channel_number (find (fun r => String.eqb (pr_id r) id) rows).

(** [1; 2; ...; n] *)
Definition one_to (n : nat) : list Z := map (fun i => Z.of_nat i + 1) (seq 0 n).

(** ** The builder page: client state

    The React state of [FestivalBuilderPage] that the handlers read and
    write.  A handler is a closure of one render: what it reads is the
    snapshot of the state at that render, also after an [await], while its
    [setState] calls build the next state. *)

Record PatchChannel := mkPatchChannel {
  pc_id : string;
  channel_number : Z;
  canonical_channel_id : option string;
  canonical_channels_name : option string
}.

Record Band := mkBand {
  band_id : string;
  band_name : string;
  sort_order : Z
}.

Inductive AutoStatus := idle | saving | saved | failed.

Record Builder := mkBuilder {
  events : list EventRow;
  selectedEventId : option string;
  categories : list Category;
  canonicalChannels : list CanonicalChannel;
  patchChannels : list PatchChannel;
  bandList : list Band;
  usageMap : list (string * BandChannelUsage);
  editingBandId : option string;
  bandDirty : bool;
  bandAutoStatus : AutoStatus;
  newBandName : string;
  newBandSelection : list string;
  loading : bool;
  savingBand : bool;
  error : option string
}.

Definition setPatchChannels (c : Builder) (v : list PatchChannel) : Builder :=
  mkBuilder (events c) (selectedEventId c) (categories c) (canonicalChannels c) v
    (bandList c) (usageMap c) (editingBandId c) (bandDirty c) (bandAutoStatus c)
    (newBandName c) (newBandSelection c) (loading c) (savingBand c) (error c).

Definition setBands (c : Builder) (v : list Band) : Builder :=
  mkBuilder (events c) (selectedEventId c) (categories c) (canonicalChannels c)
    (patchChannels c) v (usageMap c) (editingBandId c) (bandDirty c) (bandAutoStatus c)
    (newBandName c) (newBandSelection c) (loading c) (savingBand c) (error c).

Definition setUsageMap (c : Builder) (v : list (string * BandChannelUsage)) : Builder :=
  mkBuilder (events c) (selectedEventId c) (categories c) (canonicalChannels c)
    (patchChannels c) (bandList c) v (editingBandId c) (bandDirty c) (bandAutoStatus c)
    (newBandName c) (newBandSelection c) (loading c) (savingBand c) (error c).

Definition setEditingBandId (c : Builder) (v : option string) : Builder :=
  mkBuilder (events c) (selectedEventId c) (categories c) (canonicalChannels c)
    (patchChannels c) (bandList c) (usageMap c) v (bandDirty c) (bandAutoStatus c)
    (newBandName c) (newBandSelection c) (loading c) (savingBand c) (error c).

Definition setBandDirty (c : Builder) (v : bool) : Builder :=
  mkBuilder (events c) (selectedEventId c) (categories c) (canonicalChannels c)
    (patchChannels c) (bandList c) (usageMap c) (editingBandId c) v (bandAutoStatus c)
    (newBandName c) (newBandSelection c) (loading c) (savingBand c) (error c).

Definition setBandAutoStatus (c : Builder) (v : AutoStatus) : Builder :=
  mkBuilder (events c) (selectedEventId c) (categories c) (canonicalChannels c)
    (patchChannels c) (bandList c) (usageMap c) (editingBandId c) (bandDirty c) v
    (newBandName c) (newBandSelection c) (loading c) (savingBand c) (error c).

Definition setNewBandName (c : Builder) (v : string) : Builder :=
  mkBuilder (events c) (selectedEventId c) (categories c) (canonicalChannels c)
    (patchChannels c) (bandList c) (usageMap c) (editingBandId c) (bandDirty c)
    (bandAutoStatus c) v (newBandSelection c) (loading c) (savingBand c) (error c).

Definition setNewBandSelection (c : Builder) (v : list string) : Builder :=
  mkBuilder (events c) (selectedEventId c) (categories c) (canonicalChannels c)
    (patchChannels c) (bandList c) (usageMap c) (editingBandId c) (bandDirty c)
    (bandAutoStatus c) (newBandName c) v (loading c) (savingBand c) (error c).

Definition setLoading (c : Builder) (v : bool) : Builder :=
  mkBuilder (events c) (selectedEventId c) (categories c) (canonicalChannels c)
    (patchChannels c) (bandList c) (usageMap c) (editingBandId c) (bandDirty c)
    (bandAutoStatus c) (newBandName c) (newBandSelection c) v (savingBand c) (error c).

Definition setSavingBand (c : Builder) (v : bool) : Builder :=
  mkBuilder (events c) (selectedEventId c) (categories c) (canonicalChannels c)
    (patchChannels c) (bandList c) (usageMap c) (editingBandId c) (bandDirty c)
    (bandAutoStatus c) (newBandName c) (newBandSelection c) (loading c) v (error c).

Definition setError (c : Builder) (v : option string) : Builder :=
  mkBuilder (events c) (selectedEventId c) (categories c) (canonicalChannels c)
    (patchChannels c) (bandList c) (usageMap c) (editingBandId c) (bandDirty c)
    (bandAutoStatus c) (newBandName c) (newBandSelection c) (loading c) (savingBand c) v.

Definition selectedEvent (c : Builder) : option EventRow :=
  match selectedEventId c with
  | Some sel => find (fun ev => String.eqb (ev_id ev) sel) (events c)
  | None => None
  end.

Definition usageKey (bandId patchChannelId : string) : string :=
  (bandId ++ "-" ++ patchChannelId)%string.

(** The last element of an array: [arr.slice(-1)[0]]. *)
Definition last_item {A : Type} (l : list A) : option A :=
  match rev l with
  | x :: _ => Some x
  | [] => None
  end.

(** The [canonical_channels(name)] join of a [patch_channels] select. *)
Definition joined_name (s : Store) (cid : option string) : option string :=
  match cid with
  | Some c => option_map ch_name
                (find (fun ch => String.eqb (ch_id ch) c) (canonical_channels s))
  | None => None
  end.

Definition select_patch_channels (s : Store) (eventId : string) : list PatchChannel :=
  map (fun r => mkPatchChannel (pr_id r) (pr_channel_number r)
                  (pr_canonical_channel_id r)
                  (joined_name s (pr_canonical_channel_id r)))
      (select_patch_rows s eventId).

Definition patchToCanonical (patchData : list PatchChannel) : list (string * string) :=
  fold_left (fun m p =>
               match canonical_channel_id p with
               | Some cid => if Js.truthy (Some cid) then Js.map_set (pc_id p) cid m else m
               | None => m
               end) patchData [].

(** The selection [loadEventData] offers: the channels the last band of the
    event uses. *)
Definition baseline_selection (lastBand : Band) (patchData : list PatchChannel)
  (usageData : list BandChannelUsage) : list string :=
  fold_left (fun selected row =>
               if (String.eqb (us_band_id row) (band_id lastBand) && is_used row)%bool
               then match Js.map_get (us_patch_channel_id row) (patchToCanonical patchData) with
                    | Some cid => if Js.truthy (Some cid) then Js.set_add cid selected
                                  else selected
                    | None => selected
                    end
               else selected) usageData [].

(** The row of the [bands] table as the page keeps it. *)
Definition bandOf (b : BandRow) : Band := mkBand (br_id b) (br_name b) (br_sort_order b).

Definition loadEventData (eventId : string) (c : Builder) (s : Store) : Builder :=
  let c1 := setUsageMap (setPatchChannels (setBands (setError (setLoading c true) None) [])
                           []) [] in
  let bandData := map bandOf (select_bands s eventId) in
  let patchData := select_patch_channels s eventId in
  let c2 := setPatchChannels (setBands c1 bandData) patchData in
  let c3 :=
    match bandData with
    | _ :: _ =>
        let bandIds := map band_id bandData in
        let usageData := filter (fun u => Js.set_has (us_band_id u) bandIds)
                                (band_channel_usage s) in
        let entries := fold_left (fun m row =>
                         Js.map_set (usageKey (us_band_id row) (us_patch_channel_id row))
                                    row m) usageData [] in
        let c' := setUsageMap c2 entries in
        match last_item (Js.sort (fun a b => sort_order a - sort_order b) bandData) with
        | Some lastBand =>
            setNewBandSelection c' (baseline_selection lastBand patchData usageData)
        | None => c'
        end
    | [] => setNewBandSelection c2 []
    end in
  setLoading c3 false.



Definition usedByBand (snap : Builder) (bandId : string) : list string :=
  fold_left (fun set p =>
               match Js.map_get (usageKey bandId (pc_id p)) (usageMap snap) with
               | Some usage => if is_used usage then Js.set_add (pc_id p) set else set
               | None => set
               end) (patchChannels snap) [].

(** [snap] is the render the closure belongs to, [c] the state being built. *)
Definition loadBandIntoForm (snap : Builder) (bandId : option string) (c : Builder) :
  Builder :=
  match bandId with
  | Some bid =>
      if Js.truthy bandId then
        match find (fun b => String.eqb (band_id b) bid) (bandList snap) with
        | None => c
        | Some band =>
            let usedPatchIds := usedByBand snap bid in
            let canonicalIds :=
              fold_left (fun set p =>
                           match canonical_channel_id p with
                           | Some cid =>
                               if (Js.set_has (pc_id p) usedPatchIds
                                   && Js.truthy (Some cid))%bool
                               then Js.set_add cid set else set
                           | None => set
                           end) (patchChannels snap) [] in
            setBandAutoStatus
              (setBandDirty
                 (setNewBandSelection
                    (setNewBandName (setEditingBandId c (Some bid)) (band_name band))
                    canonicalIds) false) idle
        end
      else
        setBandAutoStatus
          (setBandDirty (setNewBandSelection (setNewBandName (setEditingBandId c None) "")
                           []) false) idle
  | None =>
      setBandAutoStatus
        (setBandDirty (setNewBandSelection (setNewBandName (setEditingBandId c None) "")
                         []) false) idle
  end.

Definition toggleNewSelection (canonicalId : string) (c : Builder) : Builder :=
  let next := if Js.set_has canonicalId (newBandSelection c)
              then Js.set_delete canonicalId (newBandSelection c)
              else Js.set_add canonicalId (newBandSelection c) in
  let c1 := setNewBandSelection c next in
  if Js.truthy (editingBandId c) then setBandDirty c1 true else c1.

(** ** Patch/usage reconciler *)

(** [if (p.canonical_channel_id) canonicalToPatch.set(p.canonical_channel_id, p)]. *)
Definition fileUnder (m : list (string * PatchChannel)) (p : PatchChannel) :
  list (string * PatchChannel) :=
  match canonical_channel_id p with
  | Some cid => if Js.truthy (Some cid) then Js.map_set cid p m else m
  | None => m
  end.

Definition canonicalToPatch0 (patchChannels : list PatchChannel) :
  list (string * PatchChannel) :=
  fold_left fileUnder patchChannels [].

Definition maxNumber (patchChannels : list PatchChannel) : Z :=
  fold_left (fun acc cur => Z.max acc (channel_number cur)) patchChannels 0.

Definition canonicalMap (channels : list CanonicalChannel) :
  list (string * CanonicalChannel) :=
  fold_left (fun m ch => Js.map_set (ch_id ch) ch m) channels [].

Definition missingIds (snap : Builder) (canonicalIds : list string) : list string :=
  filter (fun id => negb (Js.map_has id (canonicalToPatch0 (patchChannels snap))))
         canonicalIds.

Definition newRows (snap : Builder) (eventId : string) (canonicalIds : list string) :
  list NewPatch :=
  Js.mapi (fun id idx =>
             mkNewPatch eventId (maxNumber (patchChannels snap) + Z.of_nat idx + 1) id)
          (missingIds snap canonicalIds).

(** The inserted rows as the page keeps them, with the channel name looked
    up in the catalog of the page. *)
Definition appendedOf (snap : Builder) (data : list PatchRow) : list PatchChannel :=
  map (fun row =>
         mkPatchChannel (pr_id row) (pr_channel_number row)
           (pr_canonical_channel_id row)
           (option_map ch_name
              (Js.map_get (match pr_canonical_channel_id row with
                           | Some cid => cid
                           | None => ""
                           end)
                          (canonicalMap (canonicalChannels snap)))))
      data.

(** [ensurePatchChannels]: [snap] is read, [c] is written.  Without a
    selected event the rows carry no [event_id] and the insert has no row to
    add: the error branch. *)
Definition ensurePatchChannels (canonicalIds : list string) (snap c : Builder)
  (s : Store) : list (string * PatchChannel) * Builder * Store :=
  let canonicalToPatch := canonicalToPatch0 (patchChannels snap) in
  match missingIds snap canonicalIds with
  | [] => (canonicalToPatch, c, s)
  | _ :: _ =>
      let inserted :=
        match selectedEventId snap with
        | Some eventId => insert_patch_channels (newRows snap eventId canonicalIds) s
        | None => (None, s)
        end in
      match inserted with
      | (None, s') =>
          (canonicalToPatch, setError c (Some "Fout bij opslaan van patch-kanalen."), s')
      | (Some data, s') =>
          let appended := appendedOf snap data in
          (fold_left fileUnder appended canonicalToPatch,
           setPatchChannels c (patchChannels snap ++ appended),
           s')
      end
  end.

(** The [used] set of [pruneUnusedPatchChannels]: the patch channels of
    [patchData] some usage row marks as used. *)
Definition usedSet (patchData : list PatchRow) (s : Store) : list string :=
  let patchIds := map pr_id patchData in
  let usageData := filter (fun u => Js.set_has (us_patch_channel_id u) patchIds)
                          (band_channel_usage s) in
  fold_left (fun set row =>
               if is_used row then Js.set_add (us_patch_channel_id row) set else set)
            usageData [].

Definition unusedIds (eventId : string) (s : Store) : list string :=
  let patchData := select_patch_rows s eventId in
  map pr_id (filter (fun p => negb (Js.set_has (pr_id p) (usedSet patchData s))) patchData).

Definition pruneUnusedPatchChannels (eventId : string) (s : Store) : Store :=
  let patchData := select_patch_rows s eventId in
  match patchData with
  | [] => s
  | _ :: _ =>
      match unusedIds eventId s with
      | [] => s
      | _ :: _ =>
          let s1 := delete_patch_channels (unusedIds eventId s) s in
          let remainingIds :=
            map pr_id (filter (fun p => negb (existsb (String.eqb (pr_id p))
                                                      (unusedIds eventId s)))
                              patchData) in
          match remainingIds with
          | [] => s1
          | _ :: _ => applyChannelOrder remainingIds s1
          end
      end
  end.

(** How a save ended: no event selected, rejected by validation, stopped by
    a store error, or run to its end. *)
Inductive Outcome := Skipped | ValidationError | PersistenceError | Completed.

Definition usageRows (targetBandId : string) (snap : Builder)
  (canonicalToPatch : list (string * PatchChannel)) (canonicalIds : list string) :
  list NewUsage :=
  flat_map (fun cid =>
              match Js.map_get cid canonicalToPatch with
              | None => []
              | Some patch =>
                  [mkNewUsage targetBandId (pc_id patch) true
                     (option_map ch_name
                        (Js.map_get cid (canonicalMap (canonicalChannels snap))))]
              end) canonicalIds.

(** The first part of [handleAddBand], up to the usage rows: what stopped
    it, or the band saved, the band created and the usage rows inserted. *)
Inductive Persisted :=
| Stopped (o : Outcome) (c : Builder) (s : Store)
| Stored (targetBandId : string) (newBand : option Band)
         (insertedUsage : list BandChannelUsage) (c : Builder) (s : Store).

(** The band row: updated when a band is being edited, created otherwise. *)
Definition saveBand (ev : EventRow) (snap : Builder) (s1 : Store) :
  string * option Band * Store :=
  let create :=
    let '(row, s) := insert_band (ev_id ev) (Js.trim (newBandName snap))
                       (Z.of_nat (List.length (bandList snap)) + 1) s1 in
    (br_id row, Some (mkBand (br_id row) (br_name row) (br_sort_order row)), s) in
  match editingBandId snap with
  | Some bid =>
      if Js.truthy (Some bid)
      then (bid, None, update_band_name bid (Js.trim (newBandName snap)) s1)
      else create
  | None => create
  end.

(** The usage rows of the band being edited are deleted first. *)
Definition clearUsage (snap : Builder) (s2 : Store) : Store :=
  match editingBandId snap with
  | Some bid => if Js.truthy (Some bid) then delete_usage_of_band bid s2 else s2
  | None => s2
  end.

Definition persistBand (isAuto : bool) (snap : Builder) (s0 : Store) : Persisted :=
  match selectedEvent snap with
  | None => Stopped Skipped snap s0
  | Some ev =>
      if String.eqb (Js.trim (newBandName snap)) "" then
        Stopped ValidationError
          (if isAuto then snap else setError snap (Some "Geef een groepsnaam in.")) s0
      else
        let c1 := if isAuto then setBandAutoStatus snap saving
                  else setError (setSavingBand snap true) None in
        let canonicalIds := newBandSelection snap in
        let '(canonicalToPatch, c2, s1) := ensurePatchChannels canonicalIds snap c1 s0 in
        let stop c s :=
          Stopped PersistenceError
            (if isAuto then setBandAutoStatus c failed else setSavingBand c false) s in
        let '(targetBandId, newBand, s2) := saveBand ev snap s1 in
        let s3 := clearUsage snap s2 in
        match usageRows targetBandId snap canonicalToPatch canonicalIds with
        | [] => Stored targetBandId newBand [] c2 s3
        | rows =>
            match insert_usage rows s3 with
            | (None, s4) =>
                stop (setError c2 (Some "Fout bij opslaan van de groep-kanalen.")) s4
            | (Some data, s4) => Stored targetBandId newBand data c2 s4
            end
        end
  end.

Definition first_truthy (a b : option string) : option string :=
  if Js.truthy a then a else b.

Definition handleAddBand (isAuto : bool) (snap : Builder) (s0 : Store) :
  Outcome * Builder * Store :=
  match persistBand isAuto snap s0, selectedEvent snap with
  | Stopped o c s, _ => (o, c, s)
  | Stored _ _ _ c s, None => (Skipped, c, s)
  | Stored targetBandId newBand insertedUsage c2 s4, Some ev =>
      let editing := Js.truthy (editingBandId snap) in
      let c3 :=
        match newBand, editing with
        | Some nb, false =>
            setEditingBandId (setBands c2 (bandList c2 ++ [nb])) (Some (band_id nb))
        | _, true =>
            let eid := match editingBandId snap with Some e => e | None => "" end in
            let renamed :=
              map (fun b => if String.eqb (band_id b) eid
                            then mkBand (band_id b) (Js.trim (newBandName snap)) (sort_order b)
                            else b) (bandList c2) in
            let cleared :=
              fold_left (fun m p =>
                           filter (fun kv => negb (String.eqb (fst kv)
                                                     (usageKey eid (pc_id p)))) m)
                        (patchChannels snap) (usageMap c2) in
            let next :=
              fold_left (fun m row =>
                           Js.map_set (usageKey (us_band_id row) (us_patch_channel_id row))
                                      row m) insertedUsage cleared in
            setUsageMap (setBands c2 renamed) next
        | None, false => c2
        end in
      let c4 := loadEventData (ev_id ev) c3 s4 in
      let s5 := pruneUnusedPatchChannels (ev_id ev) s4 in
      let c5 := loadEventData (ev_id ev) c4 s5 in
      let c6 := setBandAutoStatus (setBandDirty (setSavingBand c5 false) false)
                  (if isAuto then saved else idle) in
      let currentBandId :=
        first_truthy (editingBandId snap)
          (first_truthy (option_map band_id newBand) (Some targetBandId)) in
      let c7 :=
        if (isAuto && Js.truthy currentBandId)%bool then
          loadBandIntoForm snap currentBandId (setEditingBandId c6 currentBandId)
        else
          match newBand, isAuto with
          | Some nb, false =>
              loadBandIntoForm snap (Some (band_id nb))
                (setEditingBandId c6 (Some (band_id nb)))
          | _, _ =>
              if (negb isAuto && editing)%bool
              then loadBandIntoForm snap (editingBandId snap) c6
              else setNewBandSelection (setNewBandName (setEditingBandId c6 None) "") []
          end in
      (Completed, c7, s5)
  end.

(** ** The matrix page: [toggleUsage] *)

Record Matrix := mkMatrix {
  m_events : list EventRow;
  m_selectedEventId : option string;
  m_patchChannels : list PatchChannel;
  m_usageMap : list (string * BandChannelUsage);
  m_savingCellKey : option string;
  m_editingCellKey : option string;
  m_error : option string
}.

Definition getChannelName (p : option PatchChannel) : string :=
  match p with
  | Some patchChannel =>
      match canonical_channels_name patchChannel with
      | Some name => name
      | None => "Onbekend kanaal"
      end
  | None => "Onbekend kanaal"
  end.

(** The row [toggleUsage] upserts for a cell. *)
Definition togglePayload (m : Matrix) (bandId patchChannelId : string) : NewUsage :=
  let current := Js.map_get (usageKey bandId patchChannelId) (m_usageMap m) in
  let nextUsed := negb (match current with Some u => is_used u | None => false end) in
  let defaultLabel :=
    getChannelName (find (fun p => String.eqb (pc_id p) patchChannelId)
                         (m_patchChannels m)) in
  let currentLabel := match current with Some u => label u | None => None end in
  mkNewUsage bandId patchChannelId nextUsed
    (if nextUsed
     then match currentLabel with Some l => Some l | None => Some defaultLabel end
     else currentLabel).

Definition toggleUsage (bandId patchChannelId : string) (m : Matrix) (s : Store) :
  Matrix * Store :=
  match (match m_selectedEventId m with
         | Some sel => find (fun ev => String.eqb (ev_id ev) sel) (m_events m)
         | None => None
         end) with
  | None => (m, s)
  | Some _ =>
      let key := usageKey bandId patchChannelId in
      let payload := togglePayload m bandId patchChannelId in
      let '(savedRow, s') := upsert_usage payload s in
      let nextRow :=
        mkUsage (us_id savedRow) bandId patchChannelId (nu_is_used payload)
                (match label savedRow with Some l => Some l | None => nu_label payload end) in
      (mkMatrix (m_events m) (m_selectedEventId m) (m_patchChannels m)
                (Js.map_set key nextRow (m_usageMap m)) None None None,
       s')
  end.

(** ** The techlist page: [handleSaveTechlist]

    The two-second timer that clears [copyMessage] again is left out. *)

Record ChannelDetails := mkDetails {
  d_label : string;
  d_mic_or_di : string;
  d_stand : string;
  d_notes : string
}.

Record TechPage := mkTechPage {
  t_categories : list Category;
  t_channels : list CanonicalChannel;
  t_techlists : list Techlist;
  selectedTechlistId : option string;
  bandName : string;
  bandNotes : string;
  selectedChannelIds : list string;
  channelDetails : list (string * ChannelDetails);
  t_saving : bool;
  t_error : option string;
  copyMessage : option string
}.

Definition t_setError (p : TechPage) (v : option string) : TechPage :=
  mkTechPage (t_categories p) (t_channels p) (t_techlists p) (selectedTechlistId p)
    (bandName p) (bandNotes p) (selectedChannelIds p) (channelDetails p)
    (t_saving p) v (copyMessage p).

Definition t_setSaving (p : TechPage) (v : bool) : TechPage :=
  mkTechPage (t_categories p) (t_channels p) (t_techlists p) (selectedTechlistId p)
    (bandName p) (bandNotes p) (selectedChannelIds p) (channelDetails p)
    v (t_error p) (copyMessage p).

Definition t_setCopyMessage (p : TechPage) (v : option string) : TechPage :=
  mkTechPage (t_categories p) (t_channels p) (t_techlists p) (selectedTechlistId p)
    (bandName p) (bandNotes p) (selectedChannelIds p) (channelDetails p)
    (t_saving p) (t_error p) v.

Definition t_setSelected (p : TechPage) (id : option string) (tls : list Techlist) :
  TechPage :=
  mkTechPage (t_categories p) (t_channels p) tls id
    (bandName p) (bandNotes p) (selectedChannelIds p) (channelDetails p)
    (t_saving p) (t_error p) (copyMessage p).

Definition selectedChannelsSorted (p : TechPage) : list CanonicalChannel :=
  filter (fun ch => Js.set_has (ch_id ch) (selectedChannelIds p))
         (orderedChannels (t_categories p) (t_channels p)).

(** [x || null] and [x || y] on strings. *)
Definition or_null (x : string) : option string :=
  if String.eqb x "" then None else Some x.

Definition or_else (x y : string) : string :=
  if String.eqb x "" then y else x.

Definition techlistRows (p : TechPage) (techlistId : string) (s : Store) :
  list TechlistChannel :=
  Js.mapi (fun ch idx =>
             let details :=
               match Js.map_get (ch_id ch) (channelDetails p) with
               | Some d => d
               | None => mkDetails (ch_name ch) "" "" ""
               end in
             mkTechlistChannel (uuid s (next_uuid s + idx)) techlistId
               (Z.of_nat idx + 1) (ch_id ch)
               (Some (or_else (d_label details) (ch_name ch)))
               (or_null (d_mic_or_di details)) (or_null (d_stand details))
               (or_null (d_notes details)))
          (selectedChannelsSorted p).

Definition handleSaveTechlist (p : TechPage) (s : Store) : Outcome * TechPage * Store :=
  if String.eqb (Js.trim (bandName p)) "" then
    (ValidationError, t_setError p (Some "Geef een groepsnaam in."), s)
  else
    match selectedChannelsSorted p with
    | [] => (ValidationError, t_setError p (Some "Selecteer minstens één kanaal."), s)
    | _ :: _ =>
        let p1 := t_setError (t_setSaving p true) None in
        let notes := or_null (Js.trim (bandNotes p)) in
        let '(techlistId, p2, s1) :=
          match (if Js.truthy (selectedTechlistId p) then selectedTechlistId p else None) with
          | None =>
              let row := mkTechlist (uuid s (next_uuid s)) (Js.trim (bandName p)) notes
                                    (Some (db_now s)) in
              (tl_id row,
               t_setSelected p1 (Some (tl_id row)) (row :: t_techlists p1),
               take_uuids (with_techlists s (techlists s ++ [row])) 1)
          | Some tid =>
              (tid, p1,
               with_techlists s
                 (map (fun t => if String.eqb (tl_id t) tid
                                then mkTechlist (tl_id t) (Js.trim (bandName p)) notes
                                                (tl_created_at t)
                                else t) (techlists s)))
          end in
        let s2 := with_techlist_channels s1
                    (filter (fun r => negb (String.eqb (tc_techlist_id r) techlistId))
                            (techlist_channels s1)) in
        let rows := techlistRows p techlistId s2 in
        let s3 := take_uuids (with_techlist_channels s2 (techlist_channels s2 ++ rows))
                             (List.length rows) in
        (Completed, t_setCopyMessage (t_setSaving p2 false) (Some "Techlist opgeslagen."), s3)
    end.

(** ** Vocabulary of the statements *)

(** The string without its first code point when that is white space. *)
Definition strip_space (s : string) : option string :=
  match s with
  | EmptyString => None
  | String c1 s1 =>
      if Js.is_space c1 then Some s1
      else
        match s1 with
        | EmptyString => None
        | String c2 s2 =>
            if Js.is_space2 c1 c2 then Some s2
            else
              match s2 with
              | EmptyString => None
              | String c3 s3 => if Js.is_space3 c1 c2 c3 then Some s3 else None
              end
        end
  end.

(** [t] occurs in [name] up to the case of the letters: some substring of
    [name] lower-cases to [t]. *)
Definition occurs_nocase (t name : string) : Prop :=
  exists pre mid post,
    name = (pre ++ mid ++ post)%string /\ Js.toLowerCase mid = t.

(** One of the keywords of the group occurs in the name. *)
Definition group_matches (name : string) (g : list string * Z) : Prop :=
  exists t, In t (fst g) /\ occurs_nocase t name.

Definition recognized (name : string) : Prop :=
  exists g, In g orderMap /\ group_matches name g.



(** Lexicographic order on (primary, secondary) keys. *)
Definition lex_le (k1 k2 : Z * Z) : Prop :=
  fst k1 < fst k2 \/ (fst k1 = fst k2 /\ snd k1 <= snd k2).

Definition categoryKey (c : Category) : Z * Z :=
  (categoryOrderValue (cat_name c), sortOrderKey c).

Definition channelKey (categories : list Category) (ch : CanonicalChannel) : Z * Z :=
  (channelWeight categories ch, default_order ch).

Definition same_key (k : Z * Z) (k' : Z * Z) : bool :=
  ((fst k =? fst k') && (snd k =? snd k'))%bool.

(** ** Sample data (scenario A of the specification) *)

Definition cat_drums : Category := mkCategory "cat-drums" "Drums" (Some 1).
Definition cat_vocals : Category := mkCategory "cat-vocals" "Vocals" (Some 2).
Definition cat_fx : Category := mkCategory "cat-fx" "FX / Playback" (Some 3).
Definition sample_categories : list Category := [cat_vocals; cat_fx; cat_drums].

Definition kick_in : CanonicalChannel := mkChannel "ch-kick" "Kick In" 1 (Some "cat-drums").
Definition snare_top : CanonicalChannel := mkChannel "ch-snare" "Snare Top" 2 (Some "cat-drums").
Definition lead_vox : CanonicalChannel := mkChannel "ch-vox" "Lead Vox" 1 (Some "cat-vocals").
Definition sample_channels : list CanonicalChannel := [lead_vox; kick_in; snare_top].

(** The table after a batch of accepted updates: every listed record holds
    the number of its update. *)
Definition assign (ups : list (string * Z)) (rows : list PatchRow) : list PatchRow :=
  map (fun r => match Js.map_get (pr_id r) ups with
                | Some n => set_number r n
                | None => r
                end) rows.

(** Every record of the list holds its position plus one. *)
Definition renumbered (orderedIds : list string) (rows : list PatchRow) : Prop :=
  map (number_of rows) orderedIds = map Some (one_to (List.length orderedIds)).

(** Every statement of the log was accepted. *)
Definition all_accepted (log : list bool) : Prop := Forall (fun ok => ok = true) log.

(** Three records of one event, one of them left at a temporary number by
    an earlier, interrupted renumbering. *)
Definition stale_rows : list PatchRow :=
  [ mkPatchRow "p-x" "ev-1" 2 (Some "ch-kick");
    mkPatchRow "p-y" "ev-1" 1 (Some "ch-snare");
    mkPatchRow "p-z" "ev-1" 1001 (Some "ch-vox") ].

Definition stale_ids : list string := ["p-x"; "p-y"; "p-z"].

(** The same records, numbered 3, 1, 2. *)
Definition dense_rows : list PatchRow :=
  [ mkPatchRow "p-x" "ev-1" 3 (Some "ch-kick");
    mkPatchRow "p-y" "ev-1" 1 (Some "ch-snare");
    mkPatchRow "p-z" "ev-1" 2 (Some "ch-vox");
    mkPatchRow "p-o" "ev-2" 1 (Some "ch-kick") ].

(** A key generator for the sample stores. *)
Fixpoint sample_uuid (n : nat) : string :=
  match n with
  | O => "#"
  | S k => String "i" (sample_uuid k)
  end.

Definition sample_catalog : list CanonicalChannel := [kick_in; snare_top; lead_vox].

(** A store whose event ["ev-1"] holds the three records of [dense_rows]. *)
Definition dense_store : Store :=
  mkStore sample_catalog dense_rows [] [] [] [] sample_uuid 0 "2024-06-01".

(** ** Sample pages and stores *)

Definition sample_event : EventRow := mkEvent "ev-1" "Testfestival" (Some "2024-07-06").

(** An event without patch channels and without bands. *)
Definition empty_store : Store :=
  mkStore sample_catalog [] [] [] [] [] sample_uuid 0 "2024-06-01".

(** The builder as [loadEventData] leaves it on [empty_store], with a name
    typed and channels ticked in the order given. *)
Definition builder_with (name : string) (selection : list string) : Builder :=
  mkBuilder [sample_event] (Some "ev-1") sample_categories sample_catalog
            [] [] [] None false idle name selection false false None.

Definition tech_page (name : string) (selection : list string) : TechPage :=
  mkTechPage sample_categories sample_catalog [] None name "" selection [] false None None.

(** ** Vocabulary of the reconciler statements *)

(** The patch channels of an event, as stored. *)
Definition event_rows (s : Store) (ev : string) : list PatchRow :=
  filter (fun r => String.eqb (pr_event_id r) ev) (patch_channels s).

(** The largest channel number of the event, 0 when it has none. *)
Definition event_max (s : Store) (ev : string) : Z :=
  fold_right Z.max 0 (map pr_channel_number (event_rows s ev)).

Definition refers_to (cid : string) (o : option string) : bool :=
  match o with
  | Some c => String.eqb c cid
  | None => false
  end.

(** The event has a patch channel for the catalog channel [cid]. *)
Definition has_patch (s : Store) (ev cid : string) : bool :=
  existsb (fun r => refers_to cid (pr_canonical_channel_id r)) (event_rows s ev).

(** The selected channels the event has no patch channel for. *)
Definition lacking (s : Store) (ev : string) (canonicalIds : list string) : list string :=
  filter (fun cid => negb (has_patch s ev cid)) canonicalIds.

(** One new row per lacking channel, numbered upwards from the maximum. *)
Definition appended_rows (s : Store) (ev : string) (canonicalIds : list string) :
  list PatchRow :=
  Js.mapi (fun cid i =>
             mkPatchRow (uuid s (next_uuid s + i)) ev
                        (event_max s ev + Z.of_nat i + 1) (Some cid))
          (lacking s ev canonicalIds).

(** The store after band "Opener" was saved with Kick In and Lead Vox
    (scenario B), and the builder loaded from it. *)
Definition opener_store : Store :=
  mkStore sample_catalog
    [ mkPatchRow "#" "ev-1" 1 (Some "ch-kick");
      mkPatchRow "i#" "ev-1" 2 (Some "ch-vox") ]
    [ mkBandRow "ii#" "ev-1" "Opener" 1 ]
    [ mkUsage "iii#" "ii#" "#" true (Some "Kick In");
      mkUsage "iiii#" "ii#" "i#" true (Some "Lead Vox") ]
    [] [] sample_uuid 5 "2024-06-01".

Definition opener_builder (name : string) (selection : list string) : Builder :=
  setNewBandSelection
    (setNewBandName (loadEventData "ev-1" (builder_with "" []) opener_store) name)
    selection.



(** Band "Opener" carries a label typed in the matrix for Kick In. *)
Definition labelled_store : Store :=
  with_usage opener_store
    [ mkUsage "iii#" "ii#" "#" true (Some "Kick (Beta 52)");
      mkUsage "iiii#" "ii#" "i#" true (Some "Lead Vox") ].

Definition labelled_builder : Builder :=
  loadBandIntoForm (loadEventData "ev-1" (builder_with "" []) labelled_store) (Some "ii#")
                   (loadEventData "ev-1" (builder_with "" []) labelled_store).

Definition labelled_matrix : Matrix :=
  mkMatrix [sample_event] (Some "ev-1")
           (select_patch_channels labelled_store "ev-1")
           [ (usageKey "ii#" "#", mkUsage "iii#" "ii#" "#" true (Some "Kick (Beta 52)")) ]
           None None None.

(** Some usage row marks the patch channel as used. *)
Definition marked_used (s : Store) (patchId : string) : Prop :=
  exists u, In u (band_channel_usage s)
            /\ us_patch_channel_id u = patchId /\ is_used u = true.


(** The keys present in the store. *)
Definition store_keys (s : Store) : list string :=
  map pr_id (patch_channels s) ++ map br_id (bands s)
  ++ map us_id (band_channel_usage s) ++ map us_band_id (band_channel_usage s)
  ++ map us_patch_channel_id (band_channel_usage s).

(** The database never hands out a key twice, nor one that is in use. *)
Definition uuid_fresh (s : Store) : Prop :=
  (forall n m, uuid s n = uuid s m -> n = m)
  /\ (forall n, (next_uuid s <= n)%nat -> ~ In (uuid s n) (store_keys s)).

(** A usage row joins a band and a patch channel of the same event. *)
Definition usage_scoped (s : Store) : Prop :=
  forall u p, In u (band_channel_usage s) -> In p (patch_channels s) ->
              us_patch_channel_id u = pr_id p ->
              exists b, In b (bands s) /\ br_id b = us_band_id u
                        /\ br_event_id b = pr_event_id p.


(** The builder loaded from a store, with band [bid] taken into the form
    and the selection the user then leaves. *)
Definition edit_builder (st : Store) (bid : string) (selection : list string) : Builder :=
  let loaded := loadEventData "ev-1" (builder_with "" []) st in
  setNewBandSelection (loadBandIntoForm loaded (Some bid) loaded) selection.






(** Two bands on one event: "Opener" uses Kick In and Lead Vox, "Headliner"
    uses Lead Vox. *)
Definition two_band_store : Store :=
  mkStore sample_catalog
    [ mkPatchRow "#" "ev-1" 1 (Some "ch-kick");
      mkPatchRow "i#" "ev-1" 2 (Some "ch-vox") ]
    [ mkBandRow "ii#" "ev-1" "Opener" 1;
      mkBandRow "iiiii#" "ev-1" "Headliner" 2 ]
    [ mkUsage "iii#" "ii#" "#" true (Some "Kick In");
      mkUsage "iiii#" "ii#" "i#" true (Some "Lead Vox");
      mkUsage "iiiiii#" "iiiii#" "i#" true (Some "Lead Vox") ]
    [] [] sample_uuid 7 "2024-06-01".

(** The selection [loadEventData] offers from a store. *)
Definition baseline (s : Store) (ev : string) (c : Builder) : list string :=
  newBandSelection (loadEventData ev c s).


(** The band a save wrote: the band being edited, or the band created. *)
Definition savedBandId (isAuto : bool) (snap : Builder) (s : Store) : string :=
  match persistBand isAuto snap s with
  | Stored target _ _ _ _ => target
  | Stopped _ _ _ => ""
  end.

(** ** Sample pages out of step with the store *)







(** ** More JavaScript array primitives *)

Module Arr.

(** [arr.findIndex(f)]: the index of the first element [f] accepts, -1 when
    there is none. *)
Fixpoint findIndex {A : Type} (f : A -> bool) (l : list A) : Z :=
  match l with
  | [] => -1
  | x :: l' =>
      if f x then 0
      else let i := findIndex f l' in if i =? -1 then -1 else i + 1
  end.

(** [arr.splice(start, 1)] for an index [start >= 0]: the removed elements
    and the array left. *)
Definition splice_out {A : Type} (start : nat) (l : list A) : list A * list A :=
  (firstn 1 (skipn start l), firstn start l ++ skipn (S start) l).

(** [arr.splice(start, 0, x)] for an index [start >= 0]: past the end the
    element is appended. *)
Definition splice_in {A : Type} (start : nat) (x : A) (l : list A) : list A :=
  firstn start l ++ x :: skipn start l.

(** [arr.join(sep)] *)
Fixpoint join (sep : string) (l : list string) : string :=
  match l with
  | [] => ""
  | [x] => x
  | x :: l' => (x ++ sep ++ join sep l')%string
  end.

End Arr.

(** ** The builder page: the overview table *)

Definition sortedBands (c : Builder) : list Band :=
  Js.sort (fun a b => sort_order a - sort_order b) (bandList c).

(** Despite its name the set is the union of the sets [usedByBand] gives for
    the bands. *)
Definition channelsUsedByAllBands (c : Builder) : list string :=
  match bandList c with
  | [] => []
  | _ :: _ =>
      let sets := map (fun b => usedByBand c (band_id b)) (bandList c) in
      fold_left (fun allIds s => fold_left (fun acc id => Js.set_add id acc) s allIds)
                sets []
  end.

Definition canonicalName (c : Builder) (patchChannel : PatchChannel) : string :=
  match canonical_channels_name patchChannel with
  | Some name => name
  | None =>
      match find (fun ch => match canonical_channel_id patchChannel with
                            | Some cid => String.eqb (ch_id ch) cid
                            | None => false
                            end) (canonicalChannels c) with
      | Some ch => ch_name ch
      | None => "Onbekend kanaal"
      end
  end.

Definition patchChannelRows (c : Builder) : list PatchChannel :=
  Js.sort (fun a b => channel_number a - channel_number b) (patchChannels c).

(** The cell of band [band] in the row of [patchChannel]. *)
Definition overviewCell (c : Builder) (band : Band) (patchChannel : PatchChannel) : string :=
  let usage := Js.map_get (usageKey (band_id band) (pc_id patchChannel)) (usageMap c) in
  let isUsed := match usage with Some u => is_used u | None => false end in
  let label := match usage with
               | Some u => match label u with
                           | Some l => l
                           | None => canonicalName c patchChannel
                           end
               | None => canonicalName c patchChannel
               end in
  if isUsed then label else "×".

(** The guard of the auto-save effect: a band is being edited, the form is
    dirty, no save is running and the name is not blank.  When it holds the
    effect schedules [handleAddBand({ auto: true })]. *)
Definition autoSaveDue (c : Builder) : bool :=
  (Js.truthy (editingBandId c) && bandDirty c && negb (savingBand c)
   && negb (String.eqb (Js.trim (newBandName c)) ""))%bool.

(** ** The builder page: reordering the patch channels *)

(** [direction: -1 | 1] *)
Inductive Direction := Up | Down.

Definition step_of (d : Direction) : Z :=
  match d with Up => -1 | Down => 1 end.

(** [const [item] = newOrder.splice(from, 1); newOrder.splice(to, 0, item)].
    Without an element at [from] the item is [undefined] and the handler
    stops at the [map] that reads its [id]: [None]. *)
Definition relocate (from to : nat) (rows : list PatchChannel) :
  option (list PatchChannel) :=
  let '(removed, rest) := Arr.splice_out from rows in
  match removed with
  | item :: _ => Some (Arr.splice_in to item rest)
  | [] => None
  end.

(** [newOrder.map((p, i) => ({ ...p, channel_number: i + 1 }))] *)
Definition numberedRows (newOrder : list PatchChannel) : list PatchChannel :=
  Js.mapi (fun p i => mkPatchChannel (pc_id p) (Z.of_nat i + 1)
                        (canonical_channel_id p) (canonical_channels_name p))
          newOrder.

Definition movePatchChannel (patchId : string) (direction : Direction)
  (snap c : Builder) (s : Store) : Builder * Store :=
  let rows := patchChannelRows snap in
  let idx := Arr.findIndex (fun p => String.eqb (pc_id p) patchId) rows in
  let targetIdx := idx + step_of direction in
  if ((idx =? -1) || (targetIdx <? 0) || (targetIdx >=? Z.of_nat (List.length rows)))%bool
  then (c, s)
  else
    match relocate (Z.to_nat idx) (Z.to_nat targetIdx) rows with
    | None => (c, s)
    | Some newOrder =>
        (setPatchChannels c (numberedRows newOrder),
         applyChannelOrder (map pc_id newOrder) s)
    end.

Definition reorderPatchChannel (dragId targetId : string) (snap c : Builder) (s : Store) :
  Builder * Store :=
  if String.eqb dragId targetId then (c, s)
  else
    let rows := patchChannelRows snap in
    let dragIdx := Arr.findIndex (fun p => String.eqb (pc_id p) dragId) rows in
    let targetIdx := Arr.findIndex (fun p => String.eqb (pc_id p) targetId) rows in
    if ((dragIdx =? -1) || (targetIdx =? -1))%bool then (c, s)
    else
      match relocate (Z.to_nat dragIdx) (Z.to_nat targetIdx) rows with
      | None => (c, s)
      | Some newOrder =>
          (setPatchChannels c (numberedRows newOrder),
           applyChannelOrder (map pc_id newOrder) s)
      end.

(** ** The techlist page: selection, loading, deleting and export *)

Module TechListPage.

(** The page state [handleSaveTechlist] works on, with the flags of
    [loadTechlist] and [handleDeleteTechlist]. *)
Record State := mkState {
  form : TechPage;
  loadingTechlist : bool;
  deleting : bool
}.

Definition setSelectedChannelIds (p : TechPage) (v : list string) : TechPage :=
  mkTechPage (t_categories p) (t_channels p) (t_techlists p) (selectedTechlistId p)
    (bandName p) (bandNotes p) v (channelDetails p)
    (t_saving p) (t_error p) (copyMessage p).

Definition toggleChannel (id : string) (p : TechPage) : TechPage :=
  setSelectedChannelIds p
    (if Js.set_has id (selectedChannelIds p)
     then Js.set_delete id (selectedChannelIds p)
     else Js.set_add id (selectedChannelIds p)).

(** [.single()]: the row of a result that has exactly one. *)
Definition single {A : Type} (l : list A) : option A :=
  match l with
  | [x] => Some x
  | _ => None
  end.

(** [x ?? ""] *)
Definition or_empty (o : option string) : string :=
  match o with Some x => x | None => "" end.

Definition select_techlist_channels (s : Store) (id : string) : list TechlistChannel :=
  Js.sort (fun a b => tc_channel_number a - tc_channel_number b)
          (filter (fun r => String.eqb (tc_techlist_id r) id) (techlist_channels s)).

Definition loadTechlist (id : string) (p : State) (s : Store) : State :=
  let f := form p in
  let tlData := single (filter (fun t => String.eqb (tl_id t) id) (techlists s)) in
  let chData := select_techlist_channels s id in
  let ids := map tc_canonical_channel_id chData in
  let details :=
    fold_left (fun d row =>
                 Js.map_set (tc_canonical_channel_id row)
                   (mkDetails (or_empty (tc_label row)) (or_empty (tc_mic_or_di row))
                              (or_empty (tc_stand row)) (or_empty (tc_notes row))) d)
              chData [] in
  mkState
    (mkTechPage (t_categories f) (t_channels f) (t_techlists f) (Some id)
       (match tlData with Some t => tl_name t | None => bandName f end)
       (match tlData with Some t => or_empty (tl_notes t) | None => bandNotes f end)
       (fold_left (fun set x => Js.set_add x set) ids [])
       details
       (t_saving f) None (copyMessage f))
    false (deleting p).

(** [confirmed] is the answer to [window.confirm], asked only when a
    techlist is selected. *)
Definition handleDeleteTechlist (confirmed : bool) (p : State) (s : Store) : State * Store :=
  let f := form p in
  match selectedTechlistId f with
  | Some tid =>
      if (Js.truthy (Some tid) && confirmed)%bool then
        let s1 := with_techlist_channels s
                    (filter (fun r => negb (String.eqb (tc_techlist_id r) tid))
                            (techlist_channels s)) in
        let s2 := with_techlists s1
                    (filter (fun t => negb (String.eqb (tl_id t) tid)) (techlists s1)) in
        (mkState
           (mkTechPage (t_categories f) (t_channels f)
              (filter (fun t => negb (String.eqb (tl_id t) tid)) (t_techlists f))
              None "" "" [] [] (t_saving f) None (copyMessage f))
           (loadingTechlist p) false,
         s2)
      else (p, s)
  | None => (p, s)
  end.

(** The details typed for a channel, or the default ones. *)
Definition detailsOf (p : TechPage) (ch : CanonicalChannel) : ChannelDetails :=
  match Js.map_get (ch_id ch) (channelDetails p) with
  | Some d => d
  | None => mkDetails (ch_name ch) "" "" ""
  end.

(** A row number in a template string: its decimal notation. *)
Definition decimal (n : nat) : string := NilEmpty.string_of_uint (Nat.to_uint n).

Definition dquote : ascii := "034"%char.
Definition semicolon : ascii := ";"%char.
Definition newline : ascii := "010"%char.

(** [val.replace] with the global pattern of one double quote and two
    double quotes as replacement. *)
Fixpoint double_quotes (val : string) : string :=
  match val with
  | EmptyString => EmptyString
  | String ch rest =>
      if Ascii.eqb ch dquote then String dquote (String dquote (double_quotes rest))
      else String ch (double_quotes rest)
  end.

Definition esc (val : string) : string :=
  String dquote (double_quotes val ++ String dquote EmptyString).

Definition header : string := "Channel;Name;Mic/DI;Stand;Notes".

Definition clipboardLines (p : TechPage) : list string :=
  Js.mapi (fun ch idx =>
             let details := detailsOf p ch in
             (decimal (idx + 1) ++ ";" ++ or_else (d_label details) (ch_name ch) ++ ";"
              ++ d_mic_or_di details ++ ";" ++ d_stand details ++ ";"
              ++ d_notes details)%string)
          (selectedChannelsSorted p).

(** [writable]: whether [navigator.clipboard.writeText] succeeds.  The
    result is the page and the text on the clipboard; the timer that clears
    the message is left out. *)
Definition copyToClipboard (writable : bool) (p : TechPage) : TechPage * option string :=
  let text := Arr.join (String newline EmptyString) (header :: clipboardLines p) in
  if writable
  then (t_setCopyMessage p (Some "Gekopieerd naar klembord."), Some text)
  else (t_setCopyMessage p (Some "Kopiëren mislukt."), None).

Definition csvLines (p : TechPage) : list string :=
  Js.mapi (fun ch idx =>
             let details := detailsOf p ch in
             (decimal (idx + 1) ++ ";" ++ esc (or_else (d_label details) (ch_name ch))
              ++ ";" ++ esc (d_mic_or_di details) ++ ";" ++ esc (d_stand details) ++ ";"
              ++ esc (d_notes details))%string)
          (selectedChannelsSorted p).

(** The file [downloadCsv] offers: its name and its content. *)
Definition downloadCsv (p : TechPage) : string * string :=
  ((or_else (bandName p) "kanalenlijst" ++ ".csv")%string,
   Arr.join (String newline EmptyString) (header :: csvLines p)).

End TechListPage.

(** ** The matrix page: labels and band creation *)

Module MatrixPage.

(** The grid [toggleUsage] works on, with the rest of the page state. *)
Record State := mkState {
  grid : Matrix;
  bands : list Band;
  labelDrafts : list (string * string);
  loading : bool;
  newBandName : string;
  newBandSelected : list string;
  creatingBand : bool
}.

Definition setGrid (p : State) (g : Matrix) : State :=
  mkState g (bands p) (labelDrafts p) (loading p) (newBandName p) (newBandSelected p)
          (creatingBand p).

Definition selectedEvent (g : Matrix) : option EventRow :=
  match m_selectedEventId g with
  | Some sel => find (fun ev => String.eqb (ev_id ev) sel) (m_events g)
  | None => None
  end.

Definition loadEventData (eventId : string) (p : State) (s : Store) : State :=
  let g := grid p in
  let bandData := map bandOf (select_bands s eventId) in
  let patchData := select_patch_channels s eventId in
  let entries :=
    match bandData with
    | _ :: _ =>
        let bandIds := map band_id bandData in
        let usageData := filter (fun u => Js.set_has (us_band_id u) bandIds)
                                (band_channel_usage s) in
        fold_left (fun m row =>
                     Js.map_set (usageKey (us_band_id row) (us_patch_channel_id row)) row m)
                  usageData []
    | [] => []
    end in
  mkState
    (mkMatrix (m_events g) (m_selectedEventId g) patchData entries
              (m_savingCellKey g) (m_editingCellKey g) None)
    bandData [] false (newBandName p) (newBandSelected p) (creatingBand p).

Definition sortedBands (p : State) : list Band :=
  Js.sort (fun a b => sort_order a - sort_order b) (bands p).

Definition setEditingCellKey (g : Matrix) (v : option string) : Matrix :=
  mkMatrix (m_events g) (m_selectedEventId g) (m_patchChannels g) (m_usageMap g)
           (m_savingCellKey g) v (m_error g).

(** [update({ label }).eq("band_id", b).eq("patch_channel_id", p)] *)
Definition update_label (bandId patchChannelId : string) (l : option string) (s : Store) :
  Store :=
  with_usage s
    (map (fun u => if (String.eqb (us_band_id u) bandId
                       && String.eqb (us_patch_channel_id u) patchChannelId)%bool
                   then mkUsage (us_id u) (us_band_id u) (us_patch_channel_id u)
                                (is_used u) l
                   else u)
         (band_channel_usage s)).

Definition handleLabelBlur (bandId patchChannelId key : string)
  (draftOverride : option string) (p : State) (s : Store) : State * Store :=
  let g := grid p in
  let stop := (setGrid p (setEditingCellKey g None), s) in
  match Js.map_get key (m_usageMap g) with
  | None => stop
  | Some usage =>
      if negb (is_used usage) then stop
      else
        let draft :=
          Js.trim (match draftOverride with
                   | Some d => d
                   | None => match Js.map_get key (labelDrafts p) with
                             | Some d => d
                             | None => TechListPage.or_empty (label usage)
                             end
                   end) in
        if String.eqb (TechListPage.or_empty (label usage)) draft then stop
        else
          let newLabel := if String.eqb draft "" then None else Some draft in
          let s' := update_label bandId patchChannelId newLabel s in
          (setGrid p
             (mkMatrix (m_events g) (m_selectedEventId g) (m_patchChannels g)
                (Js.map_set key
                   (mkUsage (us_id usage) (us_band_id usage) (us_patch_channel_id usage)
                            (is_used usage) newLabel)
                   (m_usageMap g))
                None None None),
           s')
  end.

Definition startEditLabel (bandId patchChannelId key initialValue : string) (p : State) :
  State :=
  mkState (setEditingCellKey (grid p) (Some key)) (bands p)
          (Js.map_set key initialValue (labelDrafts p))
          (loading p) (newBandName p) (newBandSelected p) (creatingBand p).

Definition toggleNewBandChannel (id : string) (p : State) : State :=
  mkState (grid p) (bands p) (labelDrafts p) (loading p) (newBandName p)
          (if Js.set_has id (newBandSelected p)
           then Js.set_delete id (newBandSelected p)
           else Js.set_add id (newBandSelected p))
          (creatingBand p).

Definition setError (g : Matrix) (v : option string) : Matrix :=
  mkMatrix (m_events g) (m_selectedEventId g) (m_patchChannels g) (m_usageMap g)
           (m_savingCellKey g) (m_editingCellKey g) v.



(** What a cell of the matrix shows when it is not being edited. *)
Definition cellText (p : State) (band : Band) (patchChannel : PatchChannel) : string :=
  let key := usageKey (band_id band) (pc_id patchChannel) in
  let usage := Js.map_get key (m_usageMap (grid p)) in
  let isUsed := match usage with Some u => is_used u | None => false end in
  let defaultLabel := getChannelName (Some patchChannel) in
  let label := match Js.map_get key (labelDrafts p) with
               | Some d => d
               | None => match usage with
                         | Some u => match label u with Some l => l | None => defaultLabel end
                         | None => defaultLabel
                         end
               end in
  if isUsed then or_else label defaultLabel else "×".

End MatrixPage.

(** ** Vocabulary of the statements about the pages *)

(** Sort key of the overview rows. *)
Definition patchKey (p : PatchChannel) : Z * Z := (channel_number p, 0).

(** The row of the page with the number a batch of updates gives it. *)
Definition page_assign (ups : list (string * Z)) (p : PatchChannel) : PatchChannel :=
  match Js.map_get (pc_id p) ups with
  | Some n => mkPatchChannel (pc_id p) n (canonical_channel_id p) (canonical_channels_name p)
  | None => p
  end.

(** A patch channel of the store as the page reads it. *)
Definition patchOf (s : Store) (r : PatchRow) : PatchChannel :=
  mkPatchChannel (pr_id r) (pr_channel_number r) (pr_canonical_channel_id r)
                 (joined_name s (pr_canonical_channel_id r)).

(** The page shows the patch channels of event [ev] as they are stored, the
    store keeps its keys apart and the numbering of the event lies inside
    the range the renumbering offset leaves free. *)
Definition in_step (c : Builder) (s : Store) (ev : string) : Prop :=
  patchChannels c = select_patch_channels s ev
  /\ NoDup (map pr_id (patch_channels s))
  /\ (forall r, In r (patch_channels s) -> pr_event_id r = ev -> pr_channel_number r < 1000)
  /\ Z.of_nat (List.length (patchChannels c)) < 1000.

(** ** Sample pages for the overview table *)

(** The builder loaded from [dense_store]: its table shows p-y, p-z, p-x. *)
Definition dense_builder : Builder :=
  loadEventData "ev-1" (builder_with "" []) dense_store.

(** The usage row of a band and a patch channel, as stored. *)
Definition stored_usage (s : Store) (bandId patchChannelId : string) :
  option BandChannelUsage :=
  find (fun u => (String.eqb (us_band_id u) bandId
                  && String.eqb (us_patch_channel_id u) patchChannelId)%bool)
       (band_channel_usage s).

(** The store keeps [unique(band_id, patch_channel_id)]. *)
Definition usage_unique (s : Store) : Prop :=
  NoDup (map (fun u => (us_band_id u, us_patch_channel_id u)) (band_channel_usage s)).

(** The bands of an event, as stored. *)
Definition event_bands (s : Store) (ev : string) : list BandRow :=
  filter (fun r => String.eqb (br_event_id r) ev) (bands s).

(** ** Vocabulary of the statements about techlists *)

(** The details a save stores for a channel: a blank label gives way to the
    name of the channel. *)
Definition storedDetails (p : TechPage) (ch : CanonicalChannel) : ChannelDetails :=
  mkDetails (or_else (d_label (TechListPage.detailsOf p ch)) (ch_name ch))
            (d_mic_or_di (TechListPage.detailsOf p ch))
            (d_stand (TechListPage.detailsOf p ch))
            (d_notes (TechListPage.detailsOf p ch)).

(** The techlist a save writes to: the selected one, or the one it creates
    under the next key of the database. *)
Definition savedTechlistId (p : TechPage) (s : Store) : string :=
  match selectedTechlistId p with
  | Some tid => if Js.truthy (Some tid) then tid else uuid s (next_uuid s)
  | None => uuid s (next_uuid s)
  end.

(** The techlists are keyed apart, the selected techlist is stored and the
    next key of the database is not in use. *)
Definition techlist_keys_ok (p : TechPage) (s : Store) : Prop :=
  NoDup (map tl_id (techlists s))
  /\ (Js.truthy (selectedTechlistId p) = true ->
      In (savedTechlistId p s) (map tl_id (techlists s)))
  /\ (Js.truthy (selectedTechlistId p) = false ->
      ~ In (uuid s (next_uuid s)) (map tl_id (techlists s))
      /\ ~ In (uuid s (next_uuid s)) (map tc_techlist_id (techlist_channels s))).

(** Sort key of the rows of a techlist. *)
Definition techRowKey (r : TechlistChannel) : Z * Z := (tc_channel_number r, 0).

(** A techlist page with details typed for Kick In. *)
Definition detailed_page : TechPage :=
  mkTechPage sample_categories sample_catalog [] None "  Opener " " DI on stage left "
             ["ch-vox"; "ch-kick"]
             [("ch-kick", mkDetails "" "Beta 52" "short" "")]
             false None None.

(** ** Reading an exported list back

    The reader of a semicolon-separated file: fields are separated by
    semicolons and records by line feeds; a field that opens with a double
    quote runs to its closing quote, a doubled quote inside it standing for
    one quote (RFC 4180, with the semicolon as separator). *)

Inductive CsvMode := AtStart | InPlain | InQuoted | AfterQuote.

Fixpoint csv_run (mode : CsvMode) (field : string) (record : list string)
  (records : list (list string)) (input : string) {struct input} :
  option (list (list string)) :=
  match input with
  | EmptyString =>
      match mode with
      | InQuoted => None
      | _ => Some (records ++ [record ++ [field]])
      end
  | String ch rest =>
      match mode with
      | InQuoted =>
          if Ascii.eqb ch TechListPage.dquote
          then csv_run AfterQuote field record records rest
          else csv_run InQuoted (field ++ String ch EmptyString) record records rest
      | _ =>
          if Ascii.eqb ch TechListPage.semicolon
          then csv_run AtStart "" (record ++ [field]) records rest
          else if Ascii.eqb ch TechListPage.newline
          then csv_run AtStart "" [] (records ++ [record ++ [field]]) rest
          else
            match mode with
            | AtStart =>
                if Ascii.eqb ch TechListPage.dquote
                then csv_run InQuoted field record records rest
                else csv_run InPlain (field ++ String ch EmptyString) record records rest
            | AfterQuote =>
                if Ascii.eqb ch TechListPage.dquote
                then csv_run InQuoted (field ++ String ch EmptyString) record records rest
                else None
            | _ => csv_run InPlain (field ++ String ch EmptyString) record records rest
            end
      end
  end.

Definition csv_read (text : string) : option (list (list string)) :=
  csv_run AtStart "" [] [] text.

(** A text without double quote, semicolon and line feed. *)
Fixpoint is_plain (text : string) : bool :=
  match text with
  | EmptyString => true
  | String ch rest =>
      (negb (Ascii.eqb ch TechListPage.dquote) && negb (Ascii.eqb ch TechListPage.semicolon)
       && negb (Ascii.eqb ch TechListPage.newline) && is_plain rest)%bool
  end.

(** The table an export of the page stands for: the header and one record
    per selected channel, in catalog order. *)
Definition exportedRecord (p : TechPage) (ch : CanonicalChannel) (idx : nat) : list string :=
  [ TechListPage.decimal (idx + 1);
    d_label (storedDetails p ch); d_mic_or_di (storedDetails p ch);
    d_stand (storedDetails p ch); d_notes (storedDetails p ch) ].

Definition exportedTable (p : TechPage) : list (list string) :=
  ["Channel"; "Name"; "Mic/DI"; "Stand"; "Notes"]
  :: Js.mapi (exportedRecord p) (selectedChannelsSorted p).

(** Every field of the exported records of the page is plain text. *)
Definition plain_details (p : TechPage) : Prop :=
  forall ch, In ch (selectedChannelsSorted p) ->
             is_plain (d_label (storedDetails p ch)) = true
             /\ is_plain (d_mic_or_di (storedDetails p ch)) = true
             /\ is_plain (d_stand (storedDetails p ch)) = true
             /\ is_plain (d_notes (storedDetails p ch)) = true.

(** ** Vocabulary of the statements about the matrix *)

(** The page of the matrix and the store agree on the cell of a band and a
    patch channel. *)
Definition cell_in_step (g : Matrix) (s : Store) (bandId patchChannelId : string) : Prop :=
  Js.map_get (usageKey bandId patchChannelId) (m_usageMap g)
  = stored_usage s bandId patchChannelId.

(** The label a cell of the patch channel falls back to. *)
Definition defaultLabel (g : Matrix) (patchChannelId : string) : string :=
  getChannelName (find (fun p => String.eqb (pc_id p) patchChannelId) (m_patchChannels g)).

(** The usage rows of the other cells. *)
Definition other_cells (s : Store) (bandId patchChannelId : string) :
  list BandChannelUsage :=
  filter (fun u => negb (String.eqb (us_band_id u) bandId
                         && String.eqb (us_patch_channel_id u) patchChannelId))
         (band_channel_usage s).

(** The matrix page of band "Opener" with its stored usage. *)
Definition opener_matrix : MatrixPage.State :=
  MatrixPage.loadEventData "ev-1"
    (MatrixPage.mkState (mkMatrix [sample_event] (Some "ev-1") [] [] None None None)
                        [] [] true "" [] false)
    opener_store.

(** The text [handleLabelBlur] takes for the label: the override, the
    draft typed in the cell or the label of the cell, trimmed. *)
Definition labelDraft (draftOverride : option string) (p : MatrixPage.State)
  (key : string) (usage : BandChannelUsage) : string :=
  Js.trim (match draftOverride with
           | Some d => d
           | None => match Js.map_get key (MatrixPage.labelDrafts p) with
                     | Some d => d
                     | None => TechListPage.or_empty (label usage)
                     end
           end).

(** Band "Opener" on the matrix page, the label of its Kick In cell being
    edited. *)
Definition editing_matrix : MatrixPage.State :=
  MatrixPage.startEditLabel "ii#" "#" (usageKey "ii#" "#") "  Kick (D112) " opener_matrix.



(** ** Vocabulary of the statements about a band save *)

(** The patch channels of the event are numbered 1, 2, ..., n. *)
Definition densely_numbered (s : Store) (ev : string) : Prop :=
  map pr_channel_number (select_patch_rows s ev)
  = one_to (List.length (select_patch_rows s ev)).

(** Sort key of the stored patch channels and of numbers. *)
Definition patchRowKey (r : PatchRow) : Z * Z := (pr_channel_number r, 0).
Definition numberKey (n : Z) : Z * Z := (n, 0).

(** A page that shows nothing but the patch channels given. *)
Definition page_of (rows : list PatchChannel) : Builder :=
  mkBuilder [] None [] [] rows [] [] None false idle "" [] false false None.

(** * Properties *)

(** ** Strings *)

Lemma startsWith_spec (s t : string) :
  Js.startsWith s t = true <-> exists post, s = (t ++ post)%string.
Proof.
  revert s; induction t as [|c t IH]; intros s; simpl.
  - split; [intros _; now exists s | reflexivity].
  - destruct s as [|d s].
    + split; [discriminate | intros [post H]; discriminate].
    + rewrite andb_true_iff, Ascii.eqb_eq, IH. split.
      * intros [-> [post ->]]. now exists post.
      * intros [post H]. injection H as -> ->. split; [reflexivity | now exists post].
Qed.

Lemma includes_spec (s t : string) :
  Js.includes s t = true <-> exists pre post, s = (pre ++ t ++ post)%string.
Proof.
  induction s as [|d s IH].
  - cbn [Js.includes]. rewrite orb_false_r, startsWith_spec. split.
    + intros [post ->]. now exists EmptyString, post.
    + intros [pre [post H]]. destruct pre; simpl in H; [now exists post | discriminate].
  - cbn [Js.includes]. rewrite orb_true_iff, startsWith_spec, IH. split.
    + intros [[post ->] | [pre [post ->]]].
      * now exists EmptyString, post.
      * now exists (String d pre), post.
    + intros [pre [post H]]. destruct pre as [|e pre]; simpl in H.
      * left. now exists post.
      * right. injection H as -> ->. now exists pre, post.
Qed.

Lemma toLowerCase_app (a b : string) :
  Js.toLowerCase (a ++ b) = (Js.toLowerCase a ++ Js.toLowerCase b)%string.
Proof. induction a as [|c a IH]; simpl; [reflexivity | now rewrite IH]. Qed.

(** A lower-cased string splits where the original does. *)
Lemma toLowerCase_split (s x y : string) :
  Js.toLowerCase s = (x ++ y)%string ->
  exists a b, s = (a ++ b)%string /\ Js.toLowerCase a = x /\ Js.toLowerCase b = y.
Proof.
  revert s; induction x as [|c x IH]; intros s H; simpl in H.
  - now exists EmptyString, s.
  - destruct s as [|d s]; simpl in H; [discriminate|].
    injection H as Hc H. destruct (IH _ H) as [a [b [-> [Ha Hb]]]].
    exists (String d a), b. simpl. now rewrite Hc, Ha.
Qed.

Lemma includes_lower_iff (name t : string) :
  Js.includes (Js.toLowerCase name) t = true <-> occurs_nocase t name.
Proof.
  rewrite includes_spec. split.
  - intros [pre' [post' H]].
    destruct (toLowerCase_split _ _ _ H) as [pre [rest [-> [_ Hrest]]]].
    destruct (toLowerCase_split _ _ _ Hrest) as [mid [post [-> [Hmid _]]]].
    now exists pre, mid, post.
  - intros [pre [mid [post [-> Hmid]]]].
    exists (Js.toLowerCase pre), (Js.toLowerCase post).
    now rewrite !toLowerCase_app, Hmid.
Qed.

Lemma tokens_match_iff (name : string) (toks : list string) (w : Z) :
  existsb (fun t => Js.includes (Js.toLowerCase name) t) toks = true
  <-> group_matches name (toks, w).
Proof.
  rewrite existsb_exists. unfold group_matches; simpl.
  split; intros [t [Hin H]]; exists t; split; trivial; now apply includes_lower_iff.
Qed.

(** ** Category ranking *)

Lemma firstWeight_first (name : string) (before after : list (list string * Z))
  (toks : list string) (w : Z) :
  (forall g, In g before -> ~ group_matches name g) ->
  group_matches name (toks, w) ->
  firstWeight (Js.toLowerCase name) (before ++ (toks, w) :: after) = w.
Proof.
  intros Hno Hyes. induction before as [|[toks' w'] before IH]; simpl.
  - apply (tokens_match_iff name toks w) in Hyes. now rewrite Hyes.
  - destruct (existsb _ toks') eqn:E.
    + exfalso. apply (Hno (toks', w')); [now left|].
      now apply tokens_match_iff.
    + apply IH. intros g Hg. apply Hno. now right.
Qed.

Lemma firstWeight_none (name : string) (table : list (list string * Z)) :
  (forall g, In g table -> ~ group_matches name g) ->
  firstWeight (Js.toLowerCase name) table = sentinel.
Proof.
  induction table as [|[toks w] table IH]; simpl; intros Hno; [reflexivity|].
  destruct (existsb _ toks) eqn:E.
  - exfalso. apply (Hno (toks, w)); [now left|]. now apply tokens_match_iff.
  - apply IH. intros g Hg. apply Hno. now right.
Qed.

Lemma firstWeight_range (lower : string) (table : list (list string * Z)) :
  firstWeight lower table = sentinel \/
  exists toks, In (toks, firstWeight lower table) table /\
               existsb (fun t => Js.includes lower t) toks = true.
Proof.
  induction table as [|[toks w] table IH]; simpl; [now left|].
  destruct (existsb _ toks) eqn:E.
  - right. exists toks. split; [now left | exact E].
  - destruct IH as [IH | [toks' [Hin H]]]; [now left|].
    right. exists toks'. split; [now right | exact H].
Qed.

Lemma orderMap_weights (g : list string * Z) :
  In g orderMap -> 0 <= snd g <= 6.
Proof.
  unfold orderMap. simpl.
  intros H. repeat (destruct H as [<- | H]; [simpl; lia|]). contradiction.
Qed.

Lemma firstWeight_sentinel (lower : string) (table : list (list string * Z)) :
  (forall g, In g table -> snd g <> sentinel) ->
  firstWeight lower table = sentinel ->
  forall g, In g table -> existsb (fun t => Js.includes lower t) (fst g) = false.
Proof.
  induction table as [|[toks w] table IH]; simpl; intros Hw Hs g Hin; [contradiction|].
  destruct (existsb _ toks) eqn:E.
  - exfalso. apply (Hw (toks, w)); [now left | exact Hs].
  - destruct Hin as [<- | Hin]; [exact E|].
    apply IH; trivial. intros g' Hg'. apply Hw. now right.
Qed.

Lemma orderMap_below_sentinel (g : list string * Z) :
  In g orderMap -> snd g <> sentinel.
Proof. intros H E. apply orderMap_weights in H. unfold sentinel in E. lia. Qed.

Lemma categoryOrderValue_recognized (name : string) :
  recognized name <-> categoryOrderValue name <> sentinel.
Proof.
  unfold categoryOrderValue. split.
  - intros [[toks w] [Hg Hm]] E.
    pose proof (firstWeight_sentinel _ _ orderMap_below_sentinel E _ Hg) as Hf.
    apply (tokens_match_iff name toks w) in Hm. simpl in Hf. congruence.
  - intros Hne.
    destruct (firstWeight_range (Js.toLowerCase name) orderMap) as [E | [toks [Hin H]]];
      [contradiction|].
    exists (toks, firstWeight (Js.toLowerCase name) orderMap). split; trivial.
    now apply tokens_match_iff.
Qed.

Lemma categoryOrderValue_bound (name : string) :
  0 <= categoryOrderValue name <= sentinel.
Proof.
  unfold categoryOrderValue.
  destruct (firstWeight_range (Js.toLowerCase name) orderMap) as [E | [toks [Hin _]]].
  - rewrite E. unfold sentinel. lia.
  - apply orderMap_weights in Hin. cbn [snd] in Hin. unfold sentinel. lia.
Qed.






(** ** The stable sort *)

Section SortFacts.
Context {A : Type} (cmp : A -> A -> Z) (key : A -> Z * Z).
Hypothesis cmp_key : forall x y, cmp x y <= 0 <-> lex_le (key x) (key y).

Lemma lex_le_total (k1 k2 : Z * Z) : lex_le k1 k2 \/ lex_le k2 k1.
Proof. unfold lex_le. lia. Qed.

Lemma lex_le_trans (k1 k2 k3 : Z * Z) : lex_le k1 k2 -> lex_le k2 k3 -> lex_le k1 k3.
Proof. unfold lex_le. lia. Qed.

Lemma insert_perm (x : A) (l : list A) : Permutation (x :: l) (Js.insert cmp x l).
Proof.
  induction l as [|y l IH]; simpl; [reflexivity|].
  destruct (cmp x y <=? 0); [reflexivity|].
  rewrite perm_swap. now constructor.
Qed.

Lemma sort_perm (l : list A) : Permutation l (Js.sort cmp l).
Proof.
  induction l as [|x l IH]; simpl; [constructor|].
  rewrite <- insert_perm. now constructor.
Qed.

Let ord (x y : A) : Prop := lex_le (key x) (key y).

Lemma insert_sorted (x : A) (l : list A) :
  StronglySorted ord l -> StronglySorted ord (Js.insert cmp x l).
Proof.
  induction 1 as [|y l Hs IH Hall]; simpl.
  - repeat constructor.
  - destruct (cmp x y <=? 0) eqn:E.
    + apply Z.leb_le, cmp_key in E. constructor; [now constructor|].
      constructor; [exact E|].
      eapply Forall_impl; [|exact Hall]. intros z Hz.
      eapply lex_le_trans; eassumption.
    + apply Z.leb_gt in E.
      assert (Hyx : ord y x).
      { destruct (lex_le_total (key x) (key y)) as [H | H]; [|exact H].
        apply cmp_key in H. lia. }
      constructor; [exact IH|].
      eapply Permutation_Forall; [apply insert_perm|].
      now constructor.
Qed.

Lemma sort_sorted (l : list A) : StronglySorted ord (Js.sort cmp l).
Proof.
  induction l as [|x l IH]; simpl; [constructor | now apply insert_sorted].
Qed.

(** Stability: the elements of one key keep their input order. *)
Lemma insert_filter (k : Z * Z) (x : A) (l : list A) :
  filter (fun y => same_key k (key y)) (Js.insert cmp x l)
  = filter (fun y => same_key k (key y)) (x :: l).
Proof.
  induction l as [|y l IH]; [reflexivity|].
  cbn [Js.insert]. destruct (cmp x y <=? 0) eqn:E; [reflexivity|].
  apply Z.leb_gt in E. cbn [filter] in *. rewrite IH.
  destruct (same_key k (key x)) eqn:Ex; [|reflexivity].
  destruct (same_key k (key y)) eqn:Ey; [|reflexivity].
  exfalso. unfold same_key in Ex, Ey.
  apply andb_true_iff in Ex, Ey. rewrite !Z.eqb_eq in Ex, Ey.
  assert (H : lex_le (key x) (key y)) by (unfold lex_le; lia).
  apply cmp_key in H. lia.
Qed.

Lemma sort_stable (k : Z * Z) (l : list A) :
  filter (fun y => same_key k (key y)) (Js.sort cmp l)
  = filter (fun y => same_key k (key y)) l.
Proof.
  induction l as [|x l IH]; [reflexivity|].
  cbn [Js.sort]. rewrite insert_filter. cbn [filter]. now rewrite IH.
Qed.

End SortFacts.

Lemma categoryCompare_key (a b : Category) :
  categoryCompare a b <= 0 <-> lex_le (categoryKey a) (categoryKey b).
Proof.
  unfold categoryCompare, categoryKey, lex_le; simpl.
  destruct (Z.eqb_spec (categoryOrderValue (cat_name a))
                       (categoryOrderValue (cat_name b))); simpl; lia.
Qed.

Lemma canonicalOrder_key (cats : list Category) (a b : CanonicalChannel) :
  canonicalOrder cats a b <= 0 <-> lex_le (channelKey cats a) (channelKey cats b).
Proof.
  unfold canonicalOrder, channelKey, lex_le; simpl.
  destruct (Z.eqb_spec (channelWeight cats a) (channelWeight cats b)); simpl; lia.
Qed.

(** ** Maps and sets as lists *)

Lemma map_get_In {V : Type} (k : string) (v : V) (m : list (string * V)) :
  NoDup (map fst m) -> In (k, v) m -> Js.map_get k m = Some v.
Proof.
  induction m as [|[k' v'] m IH]; simpl; [contradiction|].
  intros Hnd [H | H].
  - injection H as -> ->. now rewrite String.eqb_refl.
  - inversion Hnd as [|? ? Hnotin Hnd']; subst.
    destruct (String.eqb_spec k k') as [-> | _]; [|now apply IH].
    exfalso. apply Hnotin. now apply (in_map fst) in H.
Qed.

Lemma map_get_absent {V : Type} (k : string) (m : list (string * V)) :
  ~ In k (map fst m) -> Js.map_get k m = None.
Proof.
  induction m as [|[k' v'] m IH]; simpl; [reflexivity|].
  intros H. destruct (String.eqb_spec k k') as [-> | _].
  - exfalso. apply H. now left.
  - apply IH. intros Hin. apply H. now right.
Qed.

Lemma map_get_Some_In {V : Type} (k : string) (v : V) (m : list (string * V)) :
  Js.map_get k m = Some v -> In (k, v) m.
Proof.
  induction m as [|[k' v'] m IH]; simpl; [discriminate|].
  destruct (String.eqb_spec k k') as [-> | _].
  - intros H. injection H as ->. now left.
  - intros H. right. now apply IH.
Qed.

Lemma set_has_In (x : string) (s : list string) : Js.set_has x s = true <-> In x s.
Proof.
  unfold Js.set_has. rewrite existsb_exists. split.
  - intros [y [Hin E]]. apply String.eqb_eq in E. now subst.
  - intros H. exists x. split; [exact H | apply String.eqb_refl].
Qed.

Lemma set_has_false (x : string) (s : list string) : Js.set_has x s = false <-> ~ In x s.
Proof.
  rewrite <- set_has_In. destruct (Js.set_has x s); split; congruence.
Qed.

Lemma filter_none {A : Type} (f : A -> bool) (l : list A) :
  (forall x, In x l -> f x = false) -> filter f l = [].
Proof.
  induction l as [|x l IH]; intros H; [reflexivity|]. simpl.
  rewrite (H x (or_introl eq_refl)). apply IH. intros y Hy. apply H. now right.
Qed.

Lemma filter_all {A : Type} (f : A -> bool) (l : list A) :
  (forall x, In x l -> f x = true) -> filter f l = l.
Proof.
  induction l as [|x l IH]; intros H; [reflexivity|]. simpl.
  rewrite (H x (or_introl eq_refl)). f_equal. apply IH. intros y Hy. apply H. now right.
Qed.

Lemma fold_prepend {A B : Type} (f : A -> B) (l : list A) (acc : list B) :
  fold_left (fun m c => f c :: m) l acc = rev (map f l) ++ acc.
Proof.
  revert acc; induction l as [|x l IH]; intros acc; simpl; [reflexivity|].
  rewrite IH, <- app_assoc. reflexivity.
Qed.

Lemma catOrder_eq (cats : list Category) :
  catOrder cats = rev (map (fun c => (cat_id c, categoryOrderValue (cat_name c))) cats).
Proof.
  unfold catOrder, Js.map_set.
  rewrite (fold_prepend (fun c => (cat_id c, categoryOrderValue (cat_name c)))).
  apply app_nil_r.
Qed.

Lemma catOrder_keys (cats : list Category) :
  map fst (catOrder cats) = rev (map cat_id cats).
Proof. rewrite catOrder_eq, map_rev, map_map. reflexivity. Qed.

Lemma channelWeight_bound (cats : list Category) (ch : CanonicalChannel) :
  0 <= channelWeight cats ch <= sentinel.
Proof.
  unfold channelWeight.
  destruct (Js.truthy (category_id ch)); [|unfold sentinel; lia].
  destruct (category_id ch) as [cid|]; [|unfold sentinel; lia].
  destruct (Js.map_get cid (catOrder cats)) as [w|] eqn:E; [|unfold sentinel; lia].
  apply map_get_Some_In in E. rewrite catOrder_eq in E.
  apply in_rev, in_map_iff in E. destruct E as [c [H _]].
  injection H as _ <-. apply categoryOrderValue_bound.
Qed.

Lemma channelWeight_known (cats : list Category) (ch : CanonicalChannel) (c : Category) :
  NoDup (map cat_id cats) -> In c cats -> cat_id c <> "" ->
  category_id ch = Some (cat_id c) ->
  channelWeight cats ch = categoryOrderValue (cat_name c).
Proof.
  intros Hnd Hin Hne Hcat. unfold channelWeight. rewrite Hcat. simpl.
  destruct (String.eqb_spec (cat_id c) "") as [E | _]; [contradiction|]. simpl.
  rewrite (map_get_In (cat_id c) (categoryOrderValue (cat_name c))); trivial.
  - rewrite catOrder_keys. now apply NoDup_rev.
  - rewrite catOrder_eq. apply -> in_rev.
    apply (in_map (fun c => (cat_id c, categoryOrderValue (cat_name c)))). exact Hin.
Qed.

Lemma channelWeight_unknown (cats : list Category) (ch : CanonicalChannel) (cid : string) :
  category_id ch = Some cid -> (forall c, In c cats -> cat_id c <> cid) ->
  channelWeight cats ch = sentinel.
Proof.
  intros Hcat Hno. unfold channelWeight. rewrite Hcat.
  destruct (Js.truthy (Some cid)); [|reflexivity].
  rewrite map_get_absent; [reflexivity|].
  rewrite catOrder_keys. intros Hin. apply in_rev, in_map_iff in Hin.
  destruct Hin as [c [E Hc]]. now apply (Hno c).
Qed.


(** The ranking and the sort of the other statements are the instances at
    the ASCII case mapping. *)
Remark categoryOrderValue_instance (name : string) :
  categoryOrderValue name = categoryOrderValueWith Js.toLowerCase name.
Proof. reflexivity. Qed.

Remark sortedCategories_instance (cats : list Category) :
  sortedCategories cats = sortedCategoriesWith Js.toLowerCase cats.
Proof. reflexivity. Qed.


(** C4: [orderedChannels] is a function of its input (two calls agree); its
    result rearranges the channels, sorted by the weight of the channel's
    category first and by [default_order] second, channels of equal keys
    staying in input order; a channel without category or with an unknown
    category id carries the sentinel weight, which no weight exceeds. *)
Theorem catalog_order_sorted_stable (cats : list Category) (chans : list CanonicalChannel) :
  (forall r1 r2, r1 = orderedChannels cats chans -> r2 = orderedChannels cats chans ->
                 r1 = r2)
  /\ Permutation chans (orderedChannels cats chans)
  /\ StronglySorted (fun a b => lex_le (channelKey cats a) (channelKey cats b))
                    (orderedChannels cats chans)
  /\ (forall k,
        filter (fun ch => same_key k (channelKey cats ch)) (orderedChannels cats chans)
        = filter (fun ch => same_key k (channelKey cats ch)) chans)
  /\ (forall ch, channelWeight cats ch <= sentinel)
  /\ (forall ch, category_id ch = None -> channelWeight cats ch = sentinel)
  /\ (forall ch cid, category_id ch = Some cid ->
                     (forall c, In c cats -> cat_id c <> cid) ->
                     channelWeight cats ch = sentinel)
  /\ (forall ch c, NoDup (map cat_id cats) -> In c cats -> cat_id c <> "" ->
                   category_id ch = Some (cat_id c) ->
                   channelWeight cats ch = categoryOrderValue (cat_name c)).
Proof.
  split; [congruence|].
  split; [apply sort_perm|].
  split; [apply (sort_sorted _ _ (canonicalOrder_key cats))|].
  split; [intros k; apply (sort_stable _ _ (canonicalOrder_key cats))|].
  split; [intros ch; apply channelWeight_bound|].
  split; [intros ch H; unfold channelWeight; now rewrite H|].
  split; [apply channelWeight_unknown | intros ch c; apply channelWeight_known].
Qed.

Ltac nodup_strings :=
  repeat (constructor; [simpl; intuition discriminate|]); constructor.

Example categoryOrderValue_drums : categoryOrderValue "Drums" = 0.
Proof. reflexivity. Qed.

Example categoryOrderValue_bass_guitar : categoryOrderValue "Bass GUITAR" = 2.
Proof. reflexivity. Qed.

Example categoryOrderValue_fx : categoryOrderValue "FX / Playback" = 9999.
Proof. reflexivity. Qed.

Example sortedCategories_sample :
  sortedCategories sample_categories = [cat_drums; cat_vocals; cat_fx].
Proof. reflexivity. Qed.

Example orderedChannels_scenario_A :
  orderedChannels sample_categories sample_channels = [kick_in; snare_top; lead_vox].
Proof. reflexivity. Qed.


Lemma catalog_order_witness :
  channelWeight sample_categories kick_in = categoryOrderValue "Drums"
  /\ channelWeight sample_categories (mkChannel "ch-x" "Talkback" 1 (Some "cat-none"))
     = sentinel.
Proof.
  destruct (catalog_order_sorted_stable sample_categories sample_channels)
    as (_ & _ & _ & _ & _ & _ & Hunknown & Hknown).
  split.
  - apply (Hknown kick_in cat_drums).
    + simpl. nodup_strings.
    + simpl. tauto.
    + discriminate.
    + reflexivity.
  - apply (Hunknown _ "cat-none"); [reflexivity|].
    intros c [<- | [<- | [<- | []]]]; discriminate.
Defined.

(** ** Persisted sequence renumberer *)

Lemma mapi_from_combine {A B : Type} (f : A -> nat -> B) (i : nat) (l : list A) :
  Js.mapi_from f i l = map (fun p => f (fst p) (snd p)) (combine l (seq i (List.length l))).
Proof.
  revert i; induction l as [|x l IH]; intros i; simpl; [reflexivity|].
  now rewrite IH.
Qed.

Lemma mapi_length {A B : Type} (f : A -> nat -> B) (l : list A) :
  List.length (Js.mapi f l) = List.length l.
Proof.
  unfold Js.mapi. rewrite mapi_from_combine, length_map, length_combine, length_seq.
  apply Nat.min_id.
Qed.

Lemma combine_seq_fst {A : Type} (l : list A) (i : nat) :
  map fst (combine l (seq i (List.length l))) = l.
Proof. revert i; induction l as [|x l IH]; intros i; simpl; [|rewrite IH]; reflexivity. Qed.

Lemma combine_seq_snd {A : Type} (l : list A) (i : nat) :
  map snd (combine l (seq i (List.length l))) = seq i (List.length l).
Proof. revert i; induction l as [|x l IH]; intros i; simpl; [|rewrite IH]; reflexivity. Qed.

Lemma phase_ids (offset : Z) (ids : list string) : map fst (phase offset ids) = ids.
Proof.
  unfold phase, Js.mapi. rewrite mapi_from_combine, map_map. simpl.
  apply combine_seq_fst.
Qed.

Lemma phase_numbers (offset : Z) (ids : list string) :
  map snd (phase offset ids)
  = map (fun i => Z.of_nat i + offset) (seq 0 (List.length ids)).
Proof.
  unfold phase, Js.mapi. rewrite mapi_from_combine, map_map. simpl.
  rewrite <- (combine_seq_snd ids 0) at 2. now rewrite map_map.
Qed.

Lemma phase_numbers_range (offset : Z) (ids : list string) (n : Z) :
  In n (map snd (phase offset ids)) <->
  offset <= n < offset + Z.of_nat (List.length ids).
Proof.
  rewrite phase_numbers, in_map_iff. split.
  - intros [i [<- Hi]]. apply in_seq in Hi. lia.
  - intros H. exists (Z.to_nat (n - offset)). split; [lia|]. apply in_seq. lia.
Qed.

Lemma phase_numbers_NoDup (offset : Z) (ids : list string) :
  NoDup (map snd (phase offset ids)).
Proof.
  rewrite phase_numbers. apply Finite.Injective_map_NoDup; [|apply seq_NoDup].
  intros i j H. lia.
Qed.

Lemma find_by_id (rows : list PatchRow) (r0 : PatchRow) :
  NoDup (map pr_id rows) -> In r0 rows ->
  find (fun r => String.eqb (pr_id r) (pr_id r0)) rows = Some r0.
Proof.
  induction rows as [|r rows IH]; simpl; [contradiction|].
  intros Hnd Hin. inversion Hnd as [|? ? Hnotin Hnd']; subst.
  destruct (String.eqb_spec (pr_id r) (pr_id r0)) as [E | NE].
  - destruct Hin as [-> | Hin]; [reflexivity|].
    exfalso. apply Hnotin. rewrite E. now apply in_map.
  - destruct Hin as [-> | Hin]; [congruence | now apply IH].
Qed.

Lemma patch_conflict_false (rows : list PatchRow) (self ev : string) (n : Z) :
  patch_conflict rows self ev n = false <->
  forall r, In r rows -> pr_id r <> self -> pr_event_id r = ev -> pr_channel_number r <> n.
Proof.
  unfold patch_conflict. split.
  - intros H r Hin Hid Hev Hn.
    assert (E : existsb (fun r => (negb (String.eqb (pr_id r) self)
                                   && String.eqb (pr_event_id r) ev
                                   && (pr_channel_number r =? n))%bool) rows = true).
    { apply existsb_exists. exists r. split; trivial.
      apply String.eqb_neq in Hid. rewrite Hid. subst ev n.
      now rewrite String.eqb_refl, Z.eqb_refl. }
    congruence.
  - intros H. destruct (existsb _ rows) eqn:E; [|reflexivity].
    apply existsb_exists in E. destruct E as [r [Hin Hr]].
    apply andb_true_iff in Hr. destruct Hr as [Hr Hn].
    apply andb_true_iff in Hr. destruct Hr as [Hid Hev].
    apply negb_true_iff, String.eqb_neq in Hid.
    apply String.eqb_eq in Hev. apply Z.eqb_eq in Hn.
    exfalso. now apply (H r).
Qed.

Lemma assign_ids (ups : list (string * Z)) (rows : list PatchRow) :
  map pr_id (assign ups rows) = map pr_id rows.
Proof.
  unfold assign. rewrite map_map. apply map_ext.
  intros r. now destruct (Js.map_get (pr_id r) ups).
Qed.

(** Updates whose numbers nobody of the event holds are all accepted, in
    whatever order they are taken. *)
Lemma run_updates_fresh (ev : string) (ups : list (string * Z)) :
  forall rows,
    NoDup (map pr_id rows) ->
    NoDup (map fst ups) -> NoDup (map snd ups) ->
    (forall id, In id (map fst ups) ->
                exists r, In r rows /\ pr_id r = id /\ pr_event_id r = ev) ->
    (forall r, In r rows -> pr_event_id r = ev ->
               ~ In (pr_channel_number r) (map snd ups)) ->
    run_updates ups rows = (assign ups rows, repeat true (List.length ups)).
Proof.
  induction ups as [|[id n] ups IH]; intros rows Hrows Hids Hnums Hthere Hfree.
  - simpl. unfold assign. simpl. now rewrite map_id.
  - cbn [run_updates]. simpl in Hids, Hnums.
    inversion Hids as [|? ? Hid_fresh Hids']; subst.
    inversion Hnums as [|? ? Hn_fresh Hnums']; subst.
    destruct (Hthere id (or_introl eq_refl)) as [r0 [Hin0 [Hid0 Hev0]]].
    subst id. unfold update_channel_number.
    rewrite (find_by_id rows r0 Hrows Hin0), Hev0.
    assert (Hok : patch_conflict rows (pr_id r0) ev n = false).
    { apply patch_conflict_false. intros r Hr _ Hev Hn.
      apply (Hfree r Hr Hev). left. now symmetry. }
    rewrite Hok.
    set (id := pr_id r0) in *.
    set (rows1 := map (fun r => if String.eqb (pr_id r) id then set_number r n else r) rows).
    assert (Hids1 : map pr_id rows1 = map pr_id rows).
    { unfold rows1. rewrite map_map. apply map_ext. intros r.
      now destruct (String.eqb (pr_id r) id). }
    rewrite (IH rows1).
    + f_equal. unfold assign, rows1. rewrite map_map. apply map_ext_in.
      intros r Hr. cbn [Js.map_get].
      destruct (String.eqb_spec (pr_id r) id) as [E | NE].
      * simpl. rewrite E. rewrite map_get_absent by exact Hid_fresh. reflexivity.
      * simpl. reflexivity.
    + now rewrite Hids1.
    + exact Hids'.
    + exact Hnums'.
    + intros id' Hid'. destruct (Hthere id' (or_intror Hid')) as [r [Hr [E Hev]]].
      exists (if String.eqb (pr_id r) id then set_number r n else r). split.
      * unfold rows1. apply in_map_iff. exists r. now split.
      * destruct (String.eqb (pr_id r) id); simpl; now split.
    + intros r1 Hr1 Hev1 Hin1. unfold rows1 in Hr1. apply in_map_iff in Hr1.
      destruct Hr1 as [r [<- Hr]].
      destruct (String.eqb (pr_id r) id).
      * simpl in Hin1. contradiction.
      * apply (Hfree r Hr Hev1). now right.
Qed.

Lemma number_of_assign (ups : list (string * Z)) (rows : list PatchRow) (id : string) (n : Z) :
  NoDup (map fst ups) -> In (id, n) ups ->
  (exists r, In r rows /\ pr_id r = id) ->
  number_of (assign ups rows) id = Some n.
Proof.
  intros Hnd Hin [r0 [Hr0 Hid0]]. unfold number_of, assign.
  induction rows as [|r rows IH]; simpl; [contradiction|].
  destruct (Js.map_get (pr_id r) ups) as [m|] eqn:E; simpl.
  - destruct (String.eqb_spec (pr_id r) id) as [Eid | NE].
    + simpl. rewrite Eid in E. rewrite (map_get_In id n ups Hnd Hin) in E. congruence.
    + destruct Hr0 as [-> | Hr0]; [contradiction | now apply IH].
  - destruct (String.eqb_spec (pr_id r) id) as [Eid | NE].
    + rewrite Eid in E. rewrite (map_get_In id n ups Hnd Hin) in E. discriminate.
    + destruct Hr0 as [-> | Hr0]; [contradiction | now apply IH].
Qed.

Lemma map_fst_snd_Some {A : Type} (f : A -> option Z) (P : list (A * Z)) :
  (forall p, In p P -> f (fst p) = Some (snd p)) ->
  map f (map fst P) = map Some (map snd P).
Proof.
  induction P as [|p P IH]; simpl; intros H; [reflexivity|].
  rewrite (H p (or_introl eq_refl)), IH; [reflexivity|].
  intros q Hq. apply H. now right.
Qed.

Lemma map_get_None {V : Type} (k : string) (m : list (string * V)) :
  Js.map_get k m = None -> ~ In k (map fst m).
Proof.
  induction m as [|[k' v'] m IH]; simpl; [tauto|].
  destruct (String.eqb_spec k k') as [-> | NE]; [discriminate|].
  intros H [E | Hin]; [congruence | now apply IH].
Qed.

Lemma assign_In (ups : list (string * Z)) (rows : list PatchRow) (r : PatchRow) :
  In r rows ->
  exists r', In r' (assign ups rows) /\ pr_id r' = pr_id r
             /\ pr_event_id r' = pr_event_id r
             /\ pr_canonical_channel_id r' = pr_canonical_channel_id r.
Proof.
  intros Hin.
  exists (match Js.map_get (pr_id r) ups with Some n => set_number r n | None => r end).
  split.
  - unfold assign. apply in_map_iff. exists r. now split.
  - now destruct (Js.map_get (pr_id r) ups).
Qed.

Section Renumbering.
Variables (ev : string) (orderedIds : list string) (rows : list PatchRow).
Variables (ups1 ups2 : list (string * Z)).
Hypothesis ids_distinct : NoDup orderedIds.
Hypothesis keys_distinct : NoDup (map pr_id rows).
Hypothesis persisted :
  forall id, In id orderedIds ->
             exists r, In r rows /\ pr_id r = id /\ pr_event_id r = ev.
Hypothesis short : Z.of_nat (List.length orderedIds) < 1000.
Hypothesis below_offset :
  forall r, In r rows -> pr_event_id r = ev -> pr_channel_number r < 1000.
Hypothesis others_above :
  forall r, In r rows -> pr_event_id r = ev -> ~ In (pr_id r) orderedIds ->
            Z.of_nat (List.length orderedIds) < pr_channel_number r.
Hypothesis order1 : Permutation ups1 (phase 1000 orderedIds).
Hypothesis order2 : Permutation ups2 (phase 1 orderedIds).

Lemma schedule_ids (offset : Z) (ups : list (string * Z)) :
  Permutation ups (phase offset orderedIds) ->
  NoDup (map fst ups) /\ NoDup (map snd ups)
  /\ (forall id, In id (map fst ups) <-> In id orderedIds)
  /\ (forall n, In n (map snd ups) <->
                offset <= n < offset + Z.of_nat (List.length orderedIds)).
Proof.
  intros Hp.
  pose proof (Permutation_map fst Hp) as Hf. rewrite phase_ids in Hf.
  pose proof (Permutation_map snd Hp) as Hs.
  split; [|split; [|split]].
  - eapply Permutation_NoDup; [symmetry; exact Hf | exact ids_distinct].
  - eapply Permutation_NoDup; [symmetry; exact Hs | apply phase_numbers_NoDup].
  - intros id. split; intros H.
    + eapply Permutation_in; [exact Hf | exact H].
    + eapply Permutation_in; [symmetry; exact Hf | exact H].
  - intros n. rewrite <- phase_numbers_range. split; intros H.
    + eapply Permutation_in; [exact Hs | exact H].
    + eapply Permutation_in; [symmetry; exact Hs | exact H].
Qed.

Lemma renumber_in_order_spec :
  renumber_in_order ups1 ups2 rows
  = (assign ups2 (assign ups1 rows),
     repeat true (List.length ups1) ++ repeat true (List.length ups2)).
Proof.
  destruct (schedule_ids 1000 ups1 order1) as (Hf1 & Hs1 & Hin1 & Hr1).
  destruct (schedule_ids 1 ups2 order2) as (Hf2 & Hs2 & Hin2 & Hr2).
  unfold renumber_in_order.
  rewrite (run_updates_fresh ev ups1 rows); trivial.
  - rewrite (run_updates_fresh ev ups2 (assign ups1 rows)); trivial.
    + now rewrite assign_ids.
    + intros id Hid. apply Hin2 in Hid.
      destruct (persisted id Hid) as [r [Hr [E Hev]]].
      destruct (assign_In ups1 rows r Hr) as [r' [Hr' [E' [Hev' _]]]].
      exists r'. repeat split; congruence.
    + intros r1 Hr1' Hev1 Hnum. apply Hr2 in Hnum.
      unfold assign in Hr1'. apply in_map_iff in Hr1'.
      destruct Hr1' as [r [<- Hr]].
      destruct (Js.map_get (pr_id r) ups1) as [n|] eqn:E.
      * apply map_get_Some_In in E. apply (in_map snd) in E. apply Hr1 in E.
        cbn [snd pr_channel_number set_number] in E, Hnum. lia.
      * apply map_get_None in E. rewrite Hin1 in E.
        pose proof (others_above r Hr Hev1 E). lia.
  - intros id Hid. apply persisted. now apply Hin1.
  - intros r Hr Hev Hnum. apply Hr1 in Hnum.
    pose proof (below_offset r Hr Hev). lia.
Qed.

Lemma renumber_in_order_dense :
  renumbered orderedIds (fst (renumber_in_order ups1 ups2 rows)).
Proof.
  rewrite renumber_in_order_spec. cbn [fst]. unfold renumbered.
  destruct (schedule_ids 1000 ups1 order1) as (Hf1 & Hs1 & Hin1 & Hr1).
  destruct (schedule_ids 1 ups2 order2) as (Hf2 & Hs2 & Hin2 & Hr2).
  rewrite <- (phase_ids 1 orderedIds) at 1.
  rewrite (map_fst_snd_Some (number_of (assign ups2 (assign ups1 rows)))).
  - rewrite phase_numbers. reflexivity.
  - intros [id n] Hp. cbn [fst snd].
    apply number_of_assign; trivial.
    + eapply Permutation_in; [symmetry; exact order2 | exact Hp].
    + assert (Hid : In id orderedIds).
      { rewrite <- (phase_ids 1 orderedIds). now apply (in_map fst) in Hp. }
      destruct (persisted id Hid) as [r [Hr [E _]]].
      destruct (assign_In ups1 rows r Hr) as [r' [Hr' [E' _]]].
      exists r'. split; congruence.
Qed.

Lemma renumber_in_order_accepted :
  all_accepted (snd (renumber_in_order ups1 ups2 rows)).
Proof.
  rewrite renumber_in_order_spec. cbn [snd]. unfold all_accepted.
  apply Forall_app. split; apply Forall_forall; intros ok Hok;
    now apply repeat_spec in Hok.
Qed.
End Renumbering.

Lemma one_to_NoDup (n : nat) : NoDup (one_to n).
Proof.
  unfold one_to. apply Finite.Injective_map_NoDup; [|apply seq_NoDup].
  intros i j H. lia.
Qed.

(** C1 (amended): when the target list names distinct persisted records of
    one event, fewer than 1000 of them, every record of the event holds a
    number below 1000 before the call and the records of the event that are
    not listed hold numbers above N, then after both phases, in whatever
    order the store takes the updates of a phase, the record at position i
    holds i + 1: the numbers of the listed records are 1, 2, ..., N without
    duplicates. *)
Theorem renumbering_dense (ev : string) (orderedIds : list string) (s : Store)
  (ups1 ups2 : list (string * Z)) :
  NoDup orderedIds ->
  NoDup (map pr_id (patch_channels s)) ->
  (forall id, In id orderedIds ->
              exists r, In r (patch_channels s) /\ pr_id r = id /\ pr_event_id r = ev) ->
  Z.of_nat (List.length orderedIds) < 1000 ->
  (forall r, In r (patch_channels s) -> pr_event_id r = ev -> pr_channel_number r < 1000) ->
  (forall r, In r (patch_channels s) -> pr_event_id r = ev -> ~ In (pr_id r) orderedIds ->
             Z.of_nat (List.length orderedIds) < pr_channel_number r) ->
  Permutation ups1 (phase 1000 orderedIds) ->
  Permutation ups2 (phase 1 orderedIds) ->
  renumbered orderedIds (fst (renumber_in_order ups1 ups2 (patch_channels s)))
  /\ renumbered orderedIds (patch_channels (applyChannelOrder orderedIds s))
  /\ NoDup (one_to (List.length orderedIds)).
Proof.
  intros Hids Hkeys Hpers Hshort Hbelow Hothers Hp1 Hp2.
  split; [|split].
  - now apply (renumber_in_order_dense ev).
  - unfold applyChannelOrder, applyChannelOrder_log. cbn [patch_channels with_patch_channels].
    now apply (renumber_in_order_dense ev).
  - apply one_to_NoDup.
Qed.

(** C3 (amended): under the same conditions, the temporary numbers of phase
    1 are pairwise distinct and no update of either phase assigns a number
    that another record of the event holds at that moment: the store accepts
    every update, in whatever order it takes the updates of a phase. *)
Theorem renumbering_never_collides (ev : string) (orderedIds : list string) (s : Store)
  (ups1 ups2 : list (string * Z)) :
  NoDup orderedIds ->
  NoDup (map pr_id (patch_channels s)) ->
  (forall id, In id orderedIds ->
              exists r, In r (patch_channels s) /\ pr_id r = id /\ pr_event_id r = ev) ->
  Z.of_nat (List.length orderedIds) < 1000 ->
  (forall r, In r (patch_channels s) -> pr_event_id r = ev -> pr_channel_number r < 1000) ->
  (forall r, In r (patch_channels s) -> pr_event_id r = ev -> ~ In (pr_id r) orderedIds ->
             Z.of_nat (List.length orderedIds) < pr_channel_number r) ->
  Permutation ups1 (phase 1000 orderedIds) ->
  Permutation ups2 (phase 1 orderedIds) ->
  NoDup (map snd (phase 1000 orderedIds))
  /\ all_accepted (snd (renumber_in_order ups1 ups2 (patch_channels s)))
  /\ List.length (snd (renumber_in_order ups1 ups2 (patch_channels s)))
     = (2 * List.length orderedIds)%nat
  /\ all_accepted (snd (applyChannelOrder_log orderedIds (patch_channels s))).
Proof.
  intros Hids Hkeys Hpers Hshort Hbelow Hothers Hp1 Hp2.
  split; [apply phase_numbers_NoDup|]. split; [|split].
  - now apply (renumber_in_order_accepted ev orderedIds).
  - rewrite (renumber_in_order_spec ev orderedIds); trivial. cbn [snd].
    rewrite length_app, !repeat_length.
    rewrite (Permutation_length Hp1), (Permutation_length Hp2).
    unfold phase. rewrite !mapi_length. lia.
  - now apply (renumber_in_order_accepted ev orderedIds).
Qed.

Lemma persisted_check (ev : string) (ids : list string) (rows : list PatchRow) :
  forallb (fun id => existsb (fun r => (String.eqb (pr_id r) id
                                        && String.eqb (pr_event_id r) ev)%bool) rows) ids
  = true ->
  forall id, In id ids -> exists r, In r rows /\ pr_id r = id /\ pr_event_id r = ev.
Proof.
  intros H id Hid. rewrite forallb_forall in H. specialize (H id Hid).
  apply existsb_exists in H. destruct H as [r [Hr E]].
  apply andb_true_iff in E. destruct E as [E1 E2].
  apply String.eqb_eq in E1, E2. now exists r.
Qed.

Ltac each_row :=
  let r := fresh "r" in
  let Hr := fresh "Hr" in
  intros r Hr; simpl in Hr;
  repeat (destruct Hr as [<- | Hr]; [simpl; intros; try lia; try discriminate|]);
  try contradiction.

Example applyChannelOrder_dense_rows :
  map (number_of (patch_channels (applyChannelOrder ["p-z"; "p-x"; "p-y"] dense_store)))
      ["p-z"; "p-x"; "p-y"; "p-o"]
  = [Some 1; Some 2; Some 3; Some 1].
Proof. reflexivity. Qed.

Lemma renumbering_dense_witness :
  renumbered ["p-z"; "p-x"; "p-y"]
             (patch_channels (applyChannelOrder ["p-z"; "p-x"; "p-y"] dense_store)).
Proof.
  apply (renumbering_dense "ev-1" ["p-z"; "p-x"; "p-y"] dense_store
           (phase 1000 ["p-z"; "p-x"; "p-y"]) (phase 1 ["p-z"; "p-x"; "p-y"])).
  - nodup_strings.
  - simpl. nodup_strings.
  - apply persisted_check. reflexivity.
  - simpl. lia.
  - each_row.
  - each_row; exfalso; match goal with H : ~ _ |- _ => apply H end; simpl; tauto.
  - apply Permutation_refl.
  - apply Permutation_refl.
Defined.

Lemma renumbering_never_collides_witness :
  all_accepted (snd (renumber_in_order
                       (rev (phase 1000 ["p-z"; "p-x"; "p-y"]))
                       (phase 1 ["p-z"; "p-x"; "p-y"])
                       (patch_channels dense_store))).
Proof.
  apply (renumbering_never_collides "ev-1" ["p-z"; "p-x"; "p-y"] dense_store
           (rev (phase 1000 ["p-z"; "p-x"; "p-y"])) (phase 1 ["p-z"; "p-x"; "p-y"])).
  - nodup_strings.
  - simpl. nodup_strings.
  - apply persisted_check. reflexivity.
  - simpl. lia.
  - each_row.
  - each_row; exfalso; match goal with H : ~ _ |- _ => apply H end; simpl; tauto.
  - symmetry. apply Permutation_rev.
  - apply Permutation_refl.
Defined.

(** C1 as stated fails: with a record left at 1001, the update of the
    second record to 1001 is rejected in phase 1, it still holds 1 when the
    first record is to receive 1 in phase 2, and the first record ends the
    call at 1000. *)
Lemma renumbering_dense_counterexample :
  NoDup stale_ids
  /\ NoDup (map pr_id stale_rows)
  /\ (forall id, In id stale_ids ->
                 exists r, In r stale_rows /\ pr_id r = id /\ pr_event_id r = "ev-1")
  /\ map (number_of (fst (applyChannelOrder_log stale_ids stale_rows))) stale_ids
     = [Some 1000; Some 2; Some 3]
  /\ ~ renumbered stale_ids (fst (applyChannelOrder_log stale_ids stale_rows)).
Proof.
  split; [unfold stale_ids; nodup_strings|].
  split; [simpl; nodup_strings|].
  split; [apply persisted_check; reflexivity|].
  split; [reflexivity|].
  unfold renumbered. vm_compute. discriminate.
Qed.

(** C3 as stated fails on the same records: the second update of phase 1
    assigns 1001, which the third record still holds, and the first update
    of phase 2 assigns 1, which the second record still holds. *)
Lemma renumbering_collision_counterexample :
  NoDup stale_ids
  /\ NoDup (map pr_id stale_rows)
  /\ (forall id, In id stale_ids ->
                 exists r, In r stale_rows /\ pr_id r = id /\ pr_event_id r = "ev-1")
  /\ snd (applyChannelOrder_log stale_ids stale_rows)
     = [true; false; true; false; true; true]
  /\ ~ all_accepted (snd (applyChannelOrder_log stale_ids stale_rows)).
Proof.
  split; [unfold stale_ids; nodup_strings|].
  split; [simpl; nodup_strings|].
  split; [apply persisted_check; reflexivity|].
  split; [reflexivity|].
  intros H. vm_compute in H. inversion H as [|? ? _ H']. inversion H'. discriminate.
Qed.

(** ** Validation of the save operations *)

Lemma selectedChannelsSorted_none (p : TechPage) :
  selectedChannelIds p = [] -> selectedChannelsSorted p = [].
Proof.
  intros H. unfold selectedChannelsSorted. rewrite H.
  induction (orderedChannels (t_categories p) (t_channels p)) as [|ch l IH];
    [reflexivity | exact IH].
Qed.

Lemma handleAddBand_stopped (isAuto : bool) (snap : Builder) (s : Store)
  (o : Outcome) (c : Builder) (s' : Store) :
  persistBand isAuto snap s = Stopped o c s' ->
  handleAddBand isAuto snap s = (o, c, s').
Proof. intros H. unfold handleAddBand. now rewrite H. Qed.

Example handleSaveTechlist_saves :
  let '(o, _, s) := handleSaveTechlist (tech_page "Opener" ["ch-vox"; "ch-kick"]) empty_store in
  o = Completed
  /\ map tc_canonical_channel_id (techlist_channels s) = ["ch-kick"; "ch-vox"]
  /\ map tc_channel_number (techlist_channels s) = [1; 2].
Proof. vm_compute. repeat split. Qed.

(** C8 as stated fails for the band save: with a name and no channel
    selected, [handleAddBand] sets no error and inserts the band. *)
Lemma validation_counterexample :
  newBandSelection (builder_with "Opener" []) = []
  /\ fst (fst (handleAddBand false (builder_with "Opener" []) empty_store)) = Completed
  /\ error (snd (fst (handleAddBand false (builder_with "Opener" []) empty_store))) = None
  /\ bands (snd (handleAddBand false (builder_with "Opener" []) empty_store))
     = [mkBandRow "#" "ev-1" "Opener" 1]
  /\ snd (handleAddBand false (builder_with "Opener" []) empty_store) <> empty_store.
Proof.
  split; [reflexivity|]. split; [reflexivity|]. split; [reflexivity|].
  split; [reflexivity|].
  intros H. apply (f_equal bands) in H. vm_compute in H. discriminate.
Qed.

(** ** Ensuring shared catalog coverage *)

Lemma existsb_perm {A : Type} (f : A -> bool) (l l' : list A) :
  Permutation l l' -> existsb f l = existsb f l'.
Proof.
  induction 1 as [|x l l' _ IH|x y l|l l' l'' _ IH1 _ IH2]; simpl.
  - reflexivity.
  - now rewrite IH.
  - destruct (f x), (f y); reflexivity.
  - congruence.
Qed.

Lemma existsb_map_comp {A B : Type} (g : A -> B) (f : B -> bool) (l : list A) :
  existsb f (map g l) = existsb (fun x => f (g x)) l.
Proof. induction l as [|x l IH]; simpl; [reflexivity | now rewrite IH]. Qed.

Lemma max_list_perm (l l' : list Z) :
  Permutation l l' -> fold_right Z.max 0 l = fold_right Z.max 0 l'.
Proof.
  induction 1 as [|x l l' _ IH|x y l|l l' l'' _ IH1 _ IH2]; simpl; lia.
Qed.

Lemma fold_left_max (l : list Z) (a : Z) :
  0 <= a -> fold_left Z.max l a = Z.max a (fold_right Z.max 0 l).
Proof.
  revert a; induction l as [|x l IH]; intros a Ha; simpl; [lia|].
  rewrite IH by lia. lia.
Qed.

Lemma max_list_upper (l : list Z) (x : Z) : In x l -> x <= fold_right Z.max 0 l.
Proof.
  induction l as [|y l IH]; simpl; [contradiction|].
  intros [-> | H]; [lia | specialize (IH H); lia].
Qed.


Lemma select_patch_rows_perm (s : Store) (ev : string) :
  Permutation (event_rows s ev) (select_patch_rows s ev).
Proof. unfold select_patch_rows, event_rows. apply sort_perm. Qed.

Lemma maxNumber_fold (l : list PatchChannel) (a : Z) :
  fold_left (fun acc cur => Z.max acc (channel_number cur)) l a
  = fold_left Z.max (map channel_number l) a.
Proof. revert a; induction l as [|p l IH]; intros a; simpl; [reflexivity | apply IH]. Qed.

Lemma maxNumber_synced (snap : Builder) (s : Store) (ev : string) :
  patchChannels snap = select_patch_channels s ev ->
  maxNumber (patchChannels snap) = event_max s ev.
Proof.
  intros H. unfold maxNumber, event_max. rewrite maxNumber_fold, H.
  unfold select_patch_channels. rewrite map_map. cbn [channel_number].
  rewrite (max_list_perm _ _ (Permutation_map pr_channel_number
                                (select_patch_rows_perm s ev))).
  rewrite fold_left_max by lia.
  assert (0 <= fold_right Z.max 0 (map pr_channel_number (select_patch_rows s ev))).
  { clear. induction (map pr_channel_number (select_patch_rows s ev)); simpl; lia. }
  change (fun x : PatchRow => pr_channel_number x) with pr_channel_number.
  lia.
Qed.

Lemma map_has_canonicalToPatch (cid : string) (l : list PatchChannel)
  (acc : list (string * PatchChannel)) :
  cid <> "" ->
  Js.map_has cid
    (fold_left fileUnder l acc)
  = (existsb (fun p => refers_to cid (canonical_channel_id p)) l || Js.map_has cid acc)%bool.
Proof.
  intros Hne. revert acc; induction l as [|p l IH]; intros acc; [reflexivity|].
  cbn [fold_left existsb]. rewrite IH. unfold fileUnder.
  destruct (canonical_channel_id p) as [c|]; cbn [refers_to]; [|reflexivity].
  unfold Js.truthy. destruct (String.eqb_spec c "") as [-> | NE]; cbn [negb].
  - apply not_eq_sym, String.eqb_neq in Hne. rewrite Hne. reflexivity.
  - unfold Js.map_has, Js.map_set. cbn [Js.map_get].
    rewrite (String.eqb_sym c cid).
    destruct (String.eqb cid c); cbn [orb].
    + now rewrite orb_true_r.
    + reflexivity.
Qed.

Lemma has_patch_synced (snap : Builder) (s : Store) (ev cid : string) :
  patchChannels snap = select_patch_channels s ev -> cid <> "" ->
  Js.map_has cid (canonicalToPatch0 (patchChannels snap)) = has_patch s ev cid.
Proof.
  intros H Hne. unfold canonicalToPatch0. rewrite map_has_canonicalToPatch by exact Hne.
  rewrite orb_false_r, H. unfold select_patch_channels, has_patch.
  rewrite existsb_map_comp. cbn [canonical_channel_id].
  symmetry. apply existsb_perm, select_patch_rows_perm.
Qed.

Lemma missingIds_synced (snap : Builder) (s : Store) (ev : string)
  (canonicalIds : list string) :
  patchChannels snap = select_patch_channels s ev ->
  (forall cid, In cid canonicalIds -> cid <> "") ->
  missingIds snap canonicalIds = lacking s ev canonicalIds.
Proof.
  intros H Hne. unfold missingIds, lacking. apply filter_ext_in.
  intros cid Hin. now rewrite (has_patch_synced snap s ev cid H (Hne cid Hin)).
Qed.

Lemma mapi_from_compose {A B C : Type} (f : A -> nat -> B) (g : B -> nat -> C)
  (i : nat) (l : list A) :
  Js.mapi_from g i (Js.mapi_from f i l) = Js.mapi_from (fun x j => g (f x j) j) i l.
Proof. revert i; induction l as [|x l IH]; intros i; simpl; [|rewrite IH]; reflexivity. Qed.

Lemma newRows_synced (snap : Builder) (s : Store) (ev : string)
  (canonicalIds : list string) :
  patchChannels snap = select_patch_channels s ev ->
  (forall cid, In cid canonicalIds -> cid <> "") ->
  Js.mapi (fun np i =>
             mkPatchRow (uuid s (next_uuid s + i)) (np_event_id np)
                        (np_channel_number np) (Some (np_canonical_channel_id np)))
          (newRows snap ev canonicalIds)
  = appended_rows s ev canonicalIds.
Proof.
  intros H Hne. unfold newRows, appended_rows.
  rewrite (missingIds_synced snap s ev canonicalIds H Hne), (maxNumber_synced snap s ev H).
  unfold Js.mapi. now rewrite mapi_from_compose.
Qed.

Lemma appended_rows_In (s : Store) (ev : string) (canonicalIds : list string) (r : PatchRow) :
  In r (appended_rows s ev canonicalIds) ->
  exists cid i, In cid (lacking s ev canonicalIds)
                /\ r = mkPatchRow (uuid s (next_uuid s + i)) ev
                                  (event_max s ev + Z.of_nat i + 1) (Some cid).
Proof.
  unfold appended_rows, Js.mapi. rewrite mapi_from_combine. intros H.
  apply in_map_iff in H. destruct H as [[cid i] [<- Hin]].
  exists cid, i. split; [|reflexivity]. now apply in_combine_l in Hin.
Qed.

Lemma event_rows_In (s : Store) (ev : string) (r : PatchRow) :
  In r (event_rows s ev) <-> In r (patch_channels s) /\ pr_event_id r = ev.
Proof.
  unfold event_rows. rewrite filter_In. split; intros [H E]; split; trivial;
    now apply String.eqb_eq.
Qed.

Lemma event_max_upper (s : Store) (ev : string) (r : PatchRow) :
  In r (patch_channels s) -> pr_event_id r = ev -> pr_channel_number r <= event_max s ev.
Proof.
  intros Hin Hev. unfold event_max. apply max_list_upper, in_map.
  now apply event_rows_In.
Qed.

Lemma appended_rows_accepted (s : Store) (ev : string) (canonicalIds : list string) :
  forallb (fun r => negb (patch_conflict (patch_channels s ++ appended_rows s ev canonicalIds)
                            (pr_id r) (pr_event_id r) (pr_channel_number r)))
          (appended_rows s ev canonicalIds) = true.
Proof.
  apply forallb_forall. intros r Hr. apply negb_true_iff, patch_conflict_false.
  destruct (appended_rows_In _ _ _ _ Hr) as [cid [i [_ ->]]]. cbn.
  intros r' Hr' Hid Hev Hnum. apply in_app_or in Hr'. destruct Hr' as [Hold | Hnew].
  - pose proof (event_max_upper s ev r' Hold Hev). lia.
  - destruct (appended_rows_In _ _ _ _ Hnew) as [cid' [j [_ ->]]]. cbn in Hid, Hnum.
    apply Hid. f_equal. lia.
Qed.

(** The store after [ensurePatchChannels], for a page in step with it. *)
Lemma ensurePatchChannels_store (canonicalIds : list string) (snap c : Builder)
  (s : Store) (ev : string) :
  selectedEventId snap = Some ev ->
  patchChannels snap = select_patch_channels s ev ->
  (forall cid, In cid canonicalIds -> cid <> "") ->
  snd (ensurePatchChannels canonicalIds snap c s)
  = match lacking s ev canonicalIds with
    | [] => s
    | l => take_uuids (with_patch_channels s
                         (patch_channels s ++ appended_rows s ev canonicalIds))
                      (List.length l)
    end.
Proof.
  intros Hev Hsync Hne. unfold ensurePatchChannels.
  rewrite (missingIds_synced snap s ev canonicalIds Hsync Hne), Hev.
  destruct (lacking s ev canonicalIds) as [|cid l] eqn:El; [reflexivity|].
  unfold insert_patch_channels.
  rewrite (newRows_synced snap s ev canonicalIds Hsync Hne), appended_rows_accepted.
  cbn [snd]. unfold newRows. rewrite mapi_length.
  now rewrite (missingIds_synced snap s ev canonicalIds Hsync Hne), El.
Qed.

Lemma mapi_from_map {A B C : Type} (f : A -> nat -> B) (g : B -> C) (i : nat) (l : list A) :
  map g (Js.mapi_from f i l) = Js.mapi_from (fun x j => g (f x j)) i l.
Proof. revert i; induction l as [|x l IH]; intros i; simpl; [|rewrite IH]; reflexivity. Qed.


Lemma mapi_from_index {A B : Type} (g : nat -> B) (i : nat) (l : list A) :
  Js.mapi_from (fun _ j => g j) i l = map g (seq i (List.length l)).
Proof. revert i; induction l as [|x l IH]; intros i; simpl; [|rewrite IH]; reflexivity. Qed.

Lemma event_max_nonneg (s : Store) (ev : string) : 0 <= event_max s ev.
Proof.
  unfold event_max. induction (map pr_channel_number (event_rows s ev)); simpl; lia.
Qed.


Example ensurePatchChannels_opener :
  patch_channels (snd (ensurePatchChannels ["ch-vox"; "ch-snare"]
                         (opener_builder "Headliner" ["ch-vox"; "ch-snare"])
                         (opener_builder "Headliner" ["ch-vox"; "ch-snare"])
                         opener_store))
  = patch_channels opener_store ++ [mkPatchRow "iiiii#" "ev-1" 3 (Some "ch-snare")].
Proof. reflexivity. Qed.



(** ** The band save, step by step *)

Lemma persistBand_stored (isAuto : bool) (snap : Builder) (s : Store)
  (target : string) (nb : option Band) (data : list BandChannelUsage)
  (c2 : Builder) (s4 : Store) :
  persistBand isAuto snap s = Stored target nb data c2 s4 ->
  exists ev c1 m s1 s2,
    selectedEvent snap = Some ev
    /\ Js.trim (newBandName snap) <> ""
    /\ ensurePatchChannels (newBandSelection snap) snap c1 s = (m, c2, s1)
    /\ saveBand ev snap s1 = (target, nb, s2)
    /\ ((usageRows target snap m (newBandSelection snap) = [] /\ data = []
         /\ s4 = clearUsage snap s2)
        \/ insert_usage (usageRows target snap m (newBandSelection snap))
                        (clearUsage snap s2) = (Some data, s4)).
Proof.
  unfold persistBand. destruct (selectedEvent snap) as [ev|]; [|discriminate].
  destruct (String.eqb_spec (Js.trim (newBandName snap)) "") as [E | NE]; [discriminate|].
  destruct (ensurePatchChannels _ _ _ _) as [[m c2'] s1] eqn:Eens.
  destruct (saveBand ev snap s1) as [[t nb'] s2] eqn:Esave.
  destruct (usageRows t snap m (newBandSelection snap)) as [|u us] eqn:Erows.
  - intros H. injection H as <- <- <- <- <-.
    exists ev. eexists. exists m, s1, s2. repeat split; trivial.
    + exact Eens.
    + left. now rewrite Erows.
  - destruct (insert_usage (u :: us) (clearUsage snap s2)) as [[data'|] s4'] eqn:Eins;
      [|discriminate].
    intros H. injection H as <- <- <- <- <-.
    exists ev. eexists. exists m, s1, s2. repeat split; trivial.
    + exact Eens.
    + right. now rewrite Erows.
Qed.

Lemma persistBand_never_completes (isAuto : bool) (snap : Builder) (s : Store)
  (o : Outcome) (c : Builder) (s' : Store) :
  persistBand isAuto snap s = Stopped o c s' -> o <> Completed.
Proof.
  unfold persistBand. destruct (selectedEvent snap) as [ev|].
  - destruct (String.eqb (Js.trim (newBandName snap)) "").
    + intros H. injection H as <- _ _. discriminate.
    + destruct (ensurePatchChannels _ _ _ _) as [[m c2'] s1].
      destruct (saveBand ev snap s1) as [[t nb'] s2].
      destruct (usageRows t snap m (newBandSelection snap)) as [|u us]; [discriminate|].
      destruct (insert_usage _ _) as [[data'|] s4']; [discriminate|].
      intros H. injection H as <- _ _. discriminate.
  - intros H. injection H as <- _ _. discriminate.
Qed.

Lemma handleAddBand_completed (isAuto : bool) (snap : Builder) (s : Store)
  (c' : Builder) (s' : Store) :
  handleAddBand isAuto snap s = (Completed, c', s') ->
  exists ev target nb data c2 s4,
    selectedEvent snap = Some ev
    /\ persistBand isAuto snap s = Stored target nb data c2 s4
    /\ s' = pruneUnusedPatchChannels (ev_id ev) s4.
Proof.
  unfold handleAddBand.
  destruct (persistBand isAuto snap s) as [o c s0 | target nb data c2 s4] eqn:E.
  - intros H. injection H as -> _ _.
    now apply persistBand_never_completes in E.
  - destruct (selectedEvent snap) as [ev|]; [|discriminate].
    intros H. injection H as _ <-.
    exists ev, target, nb, data, c2, s4. repeat split.
Qed.

Lemma insert_usage_accepted (news : list NewUsage) (s : Store)
  (data : list BandChannelUsage) (s' : Store) :
  insert_usage news s = (Some data, s') ->
  data = Js.mapi (fun nu i => mkUsage (uuid s (next_uuid s + i)) (nu_band_id nu)
                                (nu_patch_channel_id nu) (nu_is_used nu) (nu_label nu))
                 news
  /\ s' = take_uuids (with_usage s (band_channel_usage s ++ data)) (List.length news).
Proof.
  unfold insert_usage. destruct (forallb _ _); [|discriminate].
  intros H. injection H as <- <-. now split.
Qed.

Lemma ensurePatchChannels_frame (canonicalIds : list string) (snap c : Builder) (s : Store) :
  let s' := snd (ensurePatchChannels canonicalIds snap c s) in
  uuid s' = uuid s /\ (next_uuid s <= next_uuid s')%nat
  /\ bands s' = bands s /\ band_channel_usage s' = band_channel_usage s.
Proof.
  unfold ensurePatchChannels. destruct (missingIds snap canonicalIds); [simpl; auto|].
  destruct (selectedEventId snap) as [ev|]; [|simpl; auto].
  unfold insert_patch_channels. destruct (forallb _ _); simpl; repeat split; auto. lia.
Qed.

Lemma saveBand_frame (ev : EventRow) (snap : Builder) (s1 : Store) :
  let s2 := snd (saveBand ev snap s1) in
  uuid s2 = uuid s1 /\ (next_uuid s1 <= next_uuid s2)%nat
  /\ patch_channels s2 = patch_channels s1
  /\ band_channel_usage s2 = band_channel_usage s1.
Proof.
  unfold saveBand. destruct (editingBandId snap) as [bid|].
  - destruct (Js.truthy (Some bid)); simpl; repeat split; auto; lia.
  - simpl; repeat split; auto; lia.
Qed.

Lemma clearUsage_frame (snap : Builder) (s2 : Store) :
  uuid (clearUsage snap s2) = uuid s2 /\ next_uuid (clearUsage snap s2) = next_uuid s2
  /\ patch_channels (clearUsage snap s2) = patch_channels s2
  /\ bands (clearUsage snap s2) = bands s2.
Proof.
  unfold clearUsage. destruct (editingBandId snap) as [bid|]; [|auto].
  destruct (Js.truthy (Some bid)); auto.
Qed.

Lemma run_updates_frame (ups : list (string * Z)) :
  forall rows,
    map pr_id (fst (run_updates ups rows)) = map pr_id rows
    /\ map pr_event_id (fst (run_updates ups rows)) = map pr_event_id rows
    /\ map pr_canonical_channel_id (fst (run_updates ups rows))
       = map pr_canonical_channel_id rows.
Proof.
  induction ups as [|[id n] ups IH]; intros rows; [simpl; auto|].
  cbn [run_updates].
  destruct (update_channel_number id n rows) as [rows1 ok] eqn:E.
  specialize (IH rows1). destruct (run_updates ups rows1) as [rows2 log]. cbn [fst] in *.
  assert (H1 : map pr_id rows1 = map pr_id rows
               /\ map pr_event_id rows1 = map pr_event_id rows
               /\ map pr_canonical_channel_id rows1 = map pr_canonical_channel_id rows).
  { unfold update_channel_number in E.
    destruct (find _ rows) as [r0|]; [|injection E as <- _; auto].
    destruct (patch_conflict _ _ _ _); injection E as <- _; auto.
    rewrite !map_map. repeat split; apply map_ext; intros r;
      destruct (String.eqb (pr_id r) id); reflexivity. }
  destruct IH as (I1 & I2 & I3), H1 as (J1 & J2 & J3). repeat split; congruence.
Qed.

Lemma applyChannelOrder_frame (ids : list string) (s : Store) :
  map pr_id (patch_channels (applyChannelOrder ids s)) = map pr_id (patch_channels s)
  /\ map pr_event_id (patch_channels (applyChannelOrder ids s))
     = map pr_event_id (patch_channels s)
  /\ map pr_canonical_channel_id (patch_channels (applyChannelOrder ids s))
     = map pr_canonical_channel_id (patch_channels s)
  /\ bands (applyChannelOrder ids s) = bands s
  /\ band_channel_usage (applyChannelOrder ids s) = band_channel_usage s.
Proof.
  unfold applyChannelOrder, applyChannelOrder_log, renumber_in_order.
  cbn [patch_channels with_patch_channels bands band_channel_usage].
  destruct (run_updates_frame (phase 1000 ids) (patch_channels s)) as (A1 & A2 & A3).
  destruct (run_updates (phase 1000 ids) (patch_channels s)) as [rows1 log1].
  destruct (run_updates_frame (phase 1 ids) rows1) as (B1 & B2 & B3).
  destruct (run_updates (phase 1 ids) rows1) as [rows2 log2].
  cbn [fst] in *. repeat split; congruence.
Qed.

(** ** Pruning *)

Lemma usedSet_In (patchData : list PatchRow) (s : Store) (x : string) :
  In x (usedSet patchData s) <->
  In x (map pr_id patchData) /\ marked_used s x.
Proof.
  unfold usedSet, marked_used.
  set (usageData := filter _ (band_channel_usage s)).
  assert (Hfold : forall (l : list BandChannelUsage) (acc : list string),
            In x (fold_left (fun set row =>
                               if is_used row
                               then Js.set_add (us_patch_channel_id row) set else set)
                            l acc)
            <-> In x acc \/ exists u, In u l /\ us_patch_channel_id u = x /\ is_used u = true).
  { induction l as [|u l IH]; intros acc; simpl.
    - split; [now left | intros [H | [u [[] _]]]; exact H].
    - rewrite IH. destruct (is_used u) eqn:Eu.
      + unfold Js.set_add. destruct (Js.set_has (us_patch_channel_id u) acc) eqn:Eh.
        * apply set_has_In in Eh. split.
          -- intros [H | [v [Hv Hx]]]; [now left | right; exists v; tauto].
          -- intros [H | [v [[-> | Hv] [Hx Hu]]]]; [now left | left; congruence |].
             right. now exists v.
        * rewrite in_app_iff. simpl. split.
          -- intros [[H | [H | []]] | [v [Hv Hx]]]; [now left | | right; exists v; tauto].
             right. exists u. tauto.
          -- intros [H | [v [[-> | Hv] [Hx Hu]]]]; [tauto | left; right; now left |].
             right. now exists v.
      + split.
        * intros [H | [v [Hv Hx]]]; [now left | right; exists v; tauto].
        * intros [H | [v [[-> | Hv] [Hx Hu]]]]; [now left | congruence |].
          right. now exists v. }
  rewrite Hfold. simpl. split.
  - intros [[] | [u [Hu [Hx Hused]]]]. unfold usageData in Hu.
    apply filter_In in Hu. destruct Hu as [Hu Hp]. apply set_has_In in Hp.
    split; [congruence | now exists u].
  - intros [Hp [u [Hu [Hx Hused]]]]. right. exists u. split; [|tauto].
    unfold usageData. apply filter_In. split; trivial.
    apply set_has_In. congruence.
Qed.

Lemma unusedIds_In (ev : string) (s : Store) (x : string) :
  In x (unusedIds ev s) <->
  (exists r, In r (patch_channels s) /\ pr_event_id r = ev /\ pr_id r = x)
  /\ ~ marked_used s x.
Proof.
  unfold unusedIds. rewrite in_map_iff. split.
  - intros [r [<- Hr]]. apply filter_In in Hr. destruct Hr as [Hr Hu].
    apply negb_true_iff, set_has_false in Hu. rewrite usedSet_In in Hu.
    assert (Hr' : In r (event_rows s ev)).
    { eapply Permutation_in; [symmetry; apply select_patch_rows_perm | exact Hr]. }
    apply event_rows_In in Hr'. split.
    + exists r. tauto.
    + intros Hm. apply Hu. split; [now apply in_map | exact Hm].
  - intros [[r [Hr [Hev <-]]] Hu]. exists r. split; [reflexivity|].
    apply filter_In. split.
    + eapply Permutation_in; [apply select_patch_rows_perm|]. now apply event_rows_In.
    + apply negb_true_iff, set_has_false. rewrite usedSet_In. tauto.
Qed.

(** What pruning does to the three tables. *)
Lemma prune_frame (ev : string) (s : Store) :
  let keep := filter (fun r => negb (Js.set_has (pr_id r) (unusedIds ev s)))
                     (patch_channels s) in
  let s' := pruneUnusedPatchChannels ev s in
  map pr_id (patch_channels s') = map pr_id keep
  /\ map pr_event_id (patch_channels s') = map pr_event_id keep
  /\ map pr_canonical_channel_id (patch_channels s') = map pr_canonical_channel_id keep
  /\ bands s' = bands s
  /\ band_channel_usage s'
     = filter (fun u => negb (Js.set_has (us_patch_channel_id u) (unusedIds ev s)))
              (band_channel_usage s).
Proof.
  cbv zeta. unfold pruneUnusedPatchChannels.
  assert (Hnil : unusedIds ev s = [] ->
                 filter (fun r => negb (Js.set_has (pr_id r) (unusedIds ev s)))
                        (patch_channels s) = patch_channels s
                 /\ filter (fun u => negb (Js.set_has (us_patch_channel_id u)
                                                      (unusedIds ev s)))
                           (band_channel_usage s) = band_channel_usage s).
  { intros ->. split; apply forallb_filter_id; apply forallb_forall; reflexivity. }
  destruct (select_patch_rows s ev) as [|r0 rest] eqn:Esel.
  - assert (E : unusedIds ev s = []) by (unfold unusedIds; now rewrite Esel).
    destruct (Hnil E) as [-> ->]. repeat split.
  - destruct (unusedIds ev s) as [|x xs] eqn:Eun.
    + destruct (Hnil eq_refl) as [-> ->]. repeat split.
    + destruct (map pr_id (filter _ (r0 :: rest))) as [|y ys].
      * unfold delete_patch_channels. cbn. repeat split.
      * destruct (applyChannelOrder_frame (y :: ys)
                    (delete_patch_channels (x :: xs) s)) as (A1 & A2 & A3 & A4 & A5).
        rewrite A1, A2, A3, A4, A5. unfold delete_patch_channels. cbn. repeat split.
Qed.


Lemma prune_keeps_used (ev : string) (s : Store) (u : BandChannelUsage) :
  is_used u = true ->
  (In u (band_channel_usage (pruneUnusedPatchChannels ev s))
   <-> In u (band_channel_usage s)).
Proof.
  intros Hused. destruct (prune_frame ev s) as (_ & _ & _ & _ & E). rewrite E.
  rewrite filter_In. split; [tauto|]. intros Hin. split; [exact Hin|].
  apply negb_true_iff, set_has_false. intros Hun. apply unusedIds_In in Hun.
  destruct Hun as [_ Hun]. apply Hun. now exists u.
Qed.

(** ** Replacing the usage rows of a band *)

Lemma mapi_In {A B : Type} (f : A -> nat -> B) (l : list A) (x : B) :
  In x (Js.mapi f l) -> exists y i, In y l /\ x = f y i.
Proof.
  unfold Js.mapi. rewrite mapi_from_combine. intros H.
  apply in_map_iff in H. destruct H as [[y i] [<- Hin]].
  exists y, i. split; [now apply in_combine_l in Hin | reflexivity].
Qed.

Lemma usageRows_In (target : string) (snap : Builder) (m : list (string * PatchChannel))
  (ids : list string) (nu : NewUsage) :
  In nu (usageRows target snap m ids) <->
  exists cid p, In cid ids /\ Js.map_get cid m = Some p
                /\ nu = mkNewUsage target (pc_id p) true
                          (option_map ch_name
                             (Js.map_get cid (canonicalMap (canonicalChannels snap)))).
Proof.
  unfold usageRows. rewrite in_flat_map. split.
  - intros [cid [Hcid H]]. destruct (Js.map_get cid m) as [p|] eqn:E; [|contradiction].
    destruct H as [<- | []]. now exists cid, p.
  - intros [cid [p [Hcid [E ->]]]]. exists cid. split; trivial. rewrite E. now left.
Qed.



Lemma ensurePatchChannels_page_free (ids : list string) (snap c c' : Builder) (s : Store) :
  fst (fst (ensurePatchChannels ids snap c s)) = fst (fst (ensurePatchChannels ids snap c' s))
  /\ snd (ensurePatchChannels ids snap c s) = snd (ensurePatchChannels ids snap c' s).
Proof.
  unfold ensurePatchChannels. destruct (missingIds snap ids); [now split|].
  destruct (match selectedEventId snap with Some _ => _ | None => _ end) as [[data|] s'];
    now split.
Qed.




(** ** Pruning after a band save *)

Lemma selectedEvent_id (snap : Builder) (ev : EventRow) :
  selectedEvent snap = Some ev -> selectedEventId snap = Some (ev_id ev).
Proof.
  unfold selectedEvent. destruct (selectedEventId snap) as [sel|]; [|discriminate].
  intros H. apply find_some in H. destruct H as [_ H]. apply String.eqb_eq in H.
  now rewrite H.
Qed.






Section AfterPersist.
Variables (isAuto : bool) (snap : Builder) (s : Store) (ev : EventRow).
Variables (target : string) (nb : option Band) (data : list BandChannelUsage).
Variables (c2 : Builder) (s4 : Store).
Hypothesis event_selected : selectedEvent snap = Some ev.
Hypothesis persisted : persistBand isAuto snap s = Stored target nb data c2 s4.
Hypothesis edited_band_of_event :
  forall bid, editingBandId snap = Some bid -> bid <> "" ->
              exists b, In b (bands s) /\ br_id b = bid /\ br_event_id b = ev_id ev.


Hypothesis keys_fresh : uuid_fresh s.
Hypothesis scoped : usage_scoped s.
Hypothesis page_scoped :
  forall p r, In p (patchChannels snap) -> In r (patch_channels s) ->
              pr_id r = pc_id p -> pr_event_id r = ev_id ev.


End AfterPersist.



(** ** Validation of the band save *)

Lemma loadEventData_error (eventId : string) (c : Builder) (s : Store) :
  error (loadEventData eventId c s) = None.
Proof.
  unfold loadEventData. destruct (map bandOf (select_bands s eventId)); [reflexivity|].
  now destruct (last_item _).
Qed.

Lemma loadBandIntoForm_error (snap : Builder) (bandId : option string) (c : Builder) :
  error (loadBandIntoForm snap bandId c) = error c.
Proof.
  unfold loadBandIntoForm. destruct bandId as [bid|]; [|reflexivity].
  destruct (Js.truthy (Some bid)); [|reflexivity].
  now destruct (find _ (bandList snap)).
Qed.

(** The band row is written before the usage rows are, and neither their
    insert nor the pruning touches it. *)
Lemma handleAddBand_bands (isAuto : bool) (c : Builder) (s : Store) (ev : EventRow) :
  selectedEvent c = Some ev ->
  Js.trim (newBandName c) <> "" ->
  bands (snd (handleAddBand isAuto c s))
  = bands (snd (saveBand ev c (snd (ensurePatchChannels (newBandSelection c) c c s)))).
Proof.
  intros Hev NE. unfold handleAddBand, persistBand. rewrite Hev.
  apply String.eqb_neq in NE. rewrite NE.
  set (c1 := if isAuto then _ else _).
  rewrite (proj2 (ensurePatchChannels_page_free (newBandSelection c) c c c1 s)).
  destruct (ensurePatchChannels (newBandSelection c) c c1 s) as [[m c2] s1].
  cbn [snd]. destruct (saveBand ev c s1) as [[t nb] s2]. cbn [snd].
  destruct (clearUsage_frame c s2) as (_ & _ & _ & B3).
  destruct (usageRows t c m (newBandSelection c)) as [|u us].
  - cbn [snd]. destruct (prune_frame (ev_id ev) (clearUsage c s2)) as (_ & _ & _ & B & _).
    now rewrite B.
  - unfold insert_usage. destruct (forallb _ _); cbn [snd]; [|exact B3].
    match goal with
    | |- bands (pruneUnusedPatchChannels ?e ?st) = _ =>
        destruct (prune_frame e st) as (_ & _ & _ & B & _); rewrite B
    end.
    exact B3.
Qed.

Lemma handleAddBand_no_channels (isAuto : bool) (c : Builder) (s : Store) (ev : EventRow) :
  selectedEvent c = Some ev ->
  Js.trim (newBandName c) <> "" ->
  newBandSelection c = [] ->
  fst (fst (handleAddBand isAuto c s)) = Completed
  /\ error (snd (fst (handleAddBand isAuto c s))) = None.
Proof.
  intros Hev NE Hsel. unfold handleAddBand, persistBand. rewrite Hev.
  apply String.eqb_neq in NE. rewrite NE, Hsel.
  unfold ensurePatchChannels, missingIds. cbn [filter].
  destruct (saveBand ev c s) as [[t nb] s2]. cbn [usageRows flat_map fst snd].
  split; [reflexivity|].
  repeat match goal with
         | |- context [if ?b then _ else _] => destruct b
         | |- context [match ?x with Some _ => _ | None => _ end] => destruct x
         end;
    rewrite ?loadBandIntoForm_error; cbn [error setEditingBandId setNewBandName
      setNewBandSelection setBandAutoStatus setBandDirty setSavingBand];
    apply loadEventData_error.
Qed.

(** C8 (amended): a techlist save with an empty name or without a selected
    channel sets an error message and leaves the store alone; a band save
    with an empty name leaves the store alone and sets the message when it
    is a manual save (the auto-save returns silently); a band save with a
    name is never rejected by validation, whatever the selection, and
    writes its band row: a new row after the stored ones, or the new name
    into the row of the band being edited; with no channel selected it
    runs to its end without an error message. *)
Theorem validation_before_store (p : TechPage) (c : Builder) (s : Store) (ev : EventRow) :
  selectedEvent c = Some ev ->
  (Js.trim (bandName p) = "" \/ selectedChannelsSorted p = [] ->
   exists msg, handleSaveTechlist p s = (ValidationError, t_setError p (Some msg), s))
  /\ (selectedChannelIds p = [] ->
      exists msg, handleSaveTechlist p s = (ValidationError, t_setError p (Some msg), s))
  /\ (Js.trim (newBandName c) = "" ->
      handleAddBand false c s
      = (ValidationError, setError c (Some "Geef een groepsnaam in."), s)
      /\ handleAddBand true c s = (ValidationError, c, s))
  /\ (Js.trim (newBandName c) <> "" ->
      forall isAuto,
        fst (fst (handleAddBand isAuto c s)) <> ValidationError
        /\ (Js.truthy (editingBandId c) = false ->
            exists key,
              bands (snd (handleAddBand isAuto c s))
              = bands s ++ [mkBandRow key (ev_id ev) (Js.trim (newBandName c))
                                      (Z.of_nat (List.length (bandList c)) + 1)])
        /\ (forall bid, editingBandId c = Some bid -> bid <> "" ->
            bands (snd (handleAddBand isAuto c s))
            = map (fun b => if String.eqb (br_id b) bid
                            then mkBandRow (br_id b) (br_event_id b)
                                           (Js.trim (newBandName c)) (br_sort_order b)
                            else b) (bands s)))
  /\ (Js.trim (newBandName c) <> "" -> newBandSelection c = [] ->
      forall isAuto,
        fst (fst (handleAddBand isAuto c s)) = Completed
        /\ error (snd (fst (handleAddBand isAuto c s))) = None
        /\ (Js.truthy (editingBandId c) = false ->
            bands (snd (handleAddBand isAuto c s))
            = bands s ++ [mkBandRow (uuid s (next_uuid s)) (ev_id ev)
                                    (Js.trim (newBandName c))
                                    (Z.of_nat (List.length (bandList c)) + 1)])).
Proof.
  intros Hev.
  assert (Htech : Js.trim (bandName p) = "" \/ selectedChannelsSorted p = [] ->
                  exists msg, handleSaveTechlist p s
                              = (ValidationError, t_setError p (Some msg), s)).
  { intros H. unfold handleSaveTechlist.
    destruct (String.eqb_spec (Js.trim (bandName p)) "") as [E | NE].
    - eexists. reflexivity.
    - destruct H as [H | H]; [contradiction|]. rewrite H. eexists. reflexivity. }
  assert (Hnew : forall s1, Js.truthy (editingBandId c) = false ->
            bands (snd (saveBand ev c s1))
            = bands s1 ++ [mkBandRow (uuid s1 (next_uuid s1)) (ev_id ev)
                                     (Js.trim (newBandName c))
                                     (Z.of_nat (List.length (bandList c)) + 1)]).
  { intros s1 Hf. unfold saveBand. destruct (editingBandId c) as [bid|]; [|reflexivity].
    cbn [Js.truthy] in Hf. unfold Js.truthy. now rewrite Hf. }
  split; [exact Htech|]. split.
  { intros H. apply Htech. right. now apply selectedChannelsSorted_none. }
  split; [|split].
  - intros E. split; apply handleAddBand_stopped; unfold persistBand;
      rewrite Hev, E; reflexivity.
  - intros NE isAuto. split; [|split].
    + unfold handleAddBand, persistBand. rewrite Hev.
      apply String.eqb_neq in NE. rewrite NE.
      destruct (ensurePatchChannels _ _ _ _) as [[m c2] s1].
      destruct (saveBand ev c s1) as [[t nb] s2].
      destruct (usageRows _ _ _ _) as [|u us].
      * simpl. discriminate.
      * destruct (insert_usage _ _) as [[data|] s4]; simpl; discriminate.
    + intros Hf. rewrite (handleAddBand_bands isAuto c s ev Hev NE), (Hnew _ Hf).
      destruct (ensurePatchChannels_frame (newBandSelection c) c c s) as (_ & _ & B & _).
      rewrite B. eexists. reflexivity.
    + intros bid Hedit Hbid. rewrite (handleAddBand_bands isAuto c s ev Hev NE).
      unfold saveBand. rewrite Hedit. unfold Js.truthy.
      apply String.eqb_neq in Hbid. rewrite Hbid. cbn [negb snd].
      unfold update_band_name. cbn [bands with_bands].
      destruct (ensurePatchChannels_frame (newBandSelection c) c c s) as (_ & _ & B & _).
      now rewrite B.
  - intros NE Hsel isAuto.
    destruct (handleAddBand_no_channels isAuto c s ev Hev NE Hsel) as [Hdone Herr].
    split; [exact Hdone|]. split; [exact Herr|].
    intros Hf. rewrite (handleAddBand_bands isAuto c s ev Hev NE), (Hnew _ Hf), Hsel.
    reflexivity.
Qed.

(** A name of white space outside ASCII is blank as well. *)
Example trim_unicode_space :
  Js.trim (String "194" (String "160" " Opener ")
           ++ String "226" (String "128" (String "168" "")))
  = "Opener".
Proof. reflexivity. Qed.

Example handleAddBand_blank_unicode_name :
  handleAddBand false (builder_with (String "194" (String "160" "")) ["ch-kick"]) empty_store
  = (ValidationError,
     setError (builder_with (String "194" (String "160" "")) ["ch-kick"])
              (Some "Geef een groepsnaam in."),
     empty_store).
Proof. reflexivity. Qed.

Lemma validation_before_store_witness :
  handleAddBand false (builder_with "   " ["ch-kick"]) empty_store
  = (ValidationError,
     setError (builder_with "   " ["ch-kick"]) (Some "Geef een groepsnaam in."),
     empty_store)
  /\ exists msg,
       handleSaveTechlist (tech_page "Opener" []) empty_store
       = (ValidationError, t_setError (tech_page "Opener" []) (Some msg), empty_store).
Proof.
  destruct (validation_before_store (tech_page "Opener" []) (builder_with "   " ["ch-kick"])
              empty_store sample_event eq_refl) as (_ & Hsel & Hname & _).
  split.
  - apply Hname. reflexivity.
  - apply Hsel. reflexivity.
Defined.

(** ** The first band of an event *)

Lemma sample_uuid_inj (n m : nat) : sample_uuid n = sample_uuid m -> n = m.
Proof.
  revert m; induction n as [|n IH]; intros [|m] H; simpl in H;
    try discriminate; [reflexivity|].
  injection H as H. f_equal. now apply IH.
Qed.






Section FirstBand.
Variables (isAuto : bool) (snap : Builder) (s : Store) (ev : EventRow).
Hypothesis event_selected : selectedEvent snap = Some ev.
Hypothesis named : Js.trim (newBandName snap) <> "".
Hypothesis new_band : editingBandId snap = None.
Hypothesis page_empty : patchChannels snap = [].
Hypothesis event_empty : event_rows s (ev_id ev) = [].
Hypothesis selection_set : NoDup (newBandSelection snap).
Hypothesis selection_keys : forall cid, In cid (newBandSelection snap) -> cid <> "".
Hypothesis keys_fresh : uuid_fresh s.









End FirstBand.


Lemma sample_uuid_fresh (s : Store) :
  uuid s = sample_uuid ->
  forallb (fun x => Js.set_has x (map sample_uuid (seq 0 (next_uuid s)))) (store_keys s)
  = true ->
  uuid_fresh s.
Proof.
  intros Hu Hkeys. split.
  - intros n m. rewrite Hu. apply sample_uuid_inj.
  - intros n Hn Hin. rewrite forallb_forall in Hkeys. specialize (Hkeys _ Hin).
    apply set_has_In in Hkeys. rewrite Hu in Hkeys.
    apply in_map_iff in Hkeys. destruct Hkeys as [k [Hk Hin']].
    apply sample_uuid_inj in Hk. apply in_seq in Hin'. lia.
Qed.

Lemma usage_scoped_check (s : Store) :
  forallb (fun u =>
    forallb (fun p =>
      implb (String.eqb (us_patch_channel_id u) (pr_id p))
            (existsb (fun b => (String.eqb (br_id b) (us_band_id u)
                                && String.eqb (br_event_id b) (pr_event_id p))%bool)
                     (bands s)))
      (patch_channels s)) (band_channel_usage s) = true ->
  usage_scoped s.
Proof.
  intros H u p Hu Hp Hjoin. rewrite forallb_forall in H. specialize (H u Hu).
  rewrite forallb_forall in H. specialize (H p Hp).
  rewrite Hjoin, String.eqb_refl in H. cbn in H.
  apply existsb_exists in H. destruct H as [b [Hb E]].
  apply andb_true_iff in E. destruct E as [E1 E2]. apply String.eqb_eq in E1, E2.
  now exists b.
Qed.

Lemma page_scoped_check (snap : Builder) (s : Store) (ev : string) :
  forallb (fun p =>
    forallb (fun r => implb (String.eqb (pr_id r) (pc_id p))
                            (String.eqb (pr_event_id r) ev))
            (patch_channels s)) (patchChannels snap) = true ->
  forall p r, In p (patchChannels snap) -> In r (patch_channels s) ->
              pr_id r = pc_id p -> pr_event_id r = ev.
Proof.
  intros H p r Hp Hr Hid. rewrite forallb_forall in H. specialize (H p Hp).
  rewrite forallb_forall in H. specialize (H r Hr).
  rewrite Hid, String.eqb_refl in H. cbn in H. now apply String.eqb_eq.
Qed.

Example scenario_B :
  let s' := snd (handleAddBand false (builder_with "Opener" ["ch-kick"; "ch-vox"])
                   empty_store) in
  patch_channels s' = patch_channels opener_store
  /\ bands s' = bands opener_store
  /\ band_channel_usage s' = band_channel_usage opener_store.
Proof. repeat split. Qed.



Example scenario_D :
  let s' := snd (handleAddBand false (edit_builder opener_store "ii#" ["ch-vox"])
                   opener_store) in
  patch_channels s' = [mkPatchRow "i#" "ev-1" 1 (Some "ch-vox")]
  /\ band_channel_usage s' = [mkUsage "iiiii#" "ii#" "i#" true (Some "Lead Vox")].
Proof. split; reflexivity. Qed.



(** ** The baseline selection *)

Lemma set_add_In (x y : string) (l : list string) :
  In x (Js.set_add y l) <-> x = y \/ In x l.
Proof.
  unfold Js.set_add. destruct (Js.set_has y l) eqn:E.
  - apply set_has_In in E. split; [now right | intros [-> | H]; trivial].
  - rewrite in_app_iff. simpl. split; [intros [H | [H | []]]; auto | intros [-> | H]; auto].
Qed.






Lemma select_patch_channels_keys (s : Store) (ev : string) :
  NoDup (map pr_id (patch_channels s)) ->
  NoDup (map pc_id (select_patch_channels s ev)).
Proof.
  intros Hnd. unfold select_patch_channels. rewrite map_map. cbn [pc_id].
  eapply Permutation_NoDup.
  - apply Permutation_map, select_patch_rows_perm.
  - unfold event_rows. induction (patch_channels s) as [|r l IH]; [constructor|].
    inversion Hnd as [|? ? Hnotin Hnd']; subst. cbn [filter].
    destruct (String.eqb (pr_event_id r) ev); [|now apply IH].
    cbn [map]. constructor; [|now apply IH].
    intros Hin. apply Hnotin. apply in_map_iff in Hin. destruct Hin as [r' [E Hr']].
    apply filter_In in Hr'. apply in_map_iff. exists r'. tauto.
Qed.

Lemma sort_of_sorted {A : Type} (cmp : A -> A -> Z) (key : A -> Z * Z) (l : list A) :
  (forall x y, cmp x y <= 0 <-> lex_le (key x) (key y)) ->
  StronglySorted (fun x y => lex_le (key x) (key y)) l ->
  Js.sort cmp l = l.
Proof.
  intros Hcmp. induction 1 as [|x l Hs IH Hall]; [reflexivity|].
  cbn [Js.sort]. rewrite IH. destruct l as [|y l]; [reflexivity|].
  cbn [Js.insert]. inversion Hall as [|? ? Hxy _]; subst.
  apply Hcmp, Z.leb_le in Hxy. now rewrite Hxy.
Qed.

Lemma StronglySorted_map {A B : Type} (f : A -> B) (R : B -> B -> Prop) (l : list A) :
  StronglySorted (fun x y => R (f x) (f y)) l -> StronglySorted R (map f l).
Proof.
  induction 1 as [|x l Hs IH Hall]; cbn [map]; constructor; trivial.
  apply Forall_map. exact Hall.
Qed.








Example baseline_after_editing_first_band :
  baseline (snd (handleAddBand false (edit_builder two_band_store "ii#" ["ch-kick"])
                   two_band_store)) "ev-1" (builder_with "" [])
  = ["ch-vox"].
Proof. vm_compute. reflexivity. Qed.

Example form_after_editing_first_band :
  newBandSelection (snd (fst (handleAddBand false
                                (edit_builder two_band_store "ii#" ["ch-kick"])
                                two_band_store)))
  = ["ch-kick"; "ch-vox"].
Proof. vm_compute. reflexivity. Qed.

(** ** The baseline after a band save *)

Lemma ensurePatchChannels_synced_map (ids : list string) (snap c : Builder) (s : Store)
  (ev : string) :
  selectedEventId snap = Some ev ->
  patchChannels snap = select_patch_channels s ev ->
  (forall cid, In cid ids -> cid <> "") ->
  fst (fst (ensurePatchChannels ids snap c s))
  = fold_left fileUnder (appendedOf snap (appended_rows s ev ids))
              (canonicalToPatch0 (patchChannels snap)).
Proof.
  intros Hev Hsync Hne. unfold ensurePatchChannels.
  pose proof (missingIds_synced snap s ev ids Hsync Hne) as Hmiss.
  pose proof (newRows_synced snap s ev ids Hsync Hne) as Hrows.
  pose proof (appended_rows_accepted s ev ids) as Hacc.
  destruct (missingIds snap ids) as [|x xs] eqn:Em.
  - unfold appended_rows. now rewrite <- Hmiss.
  - rewrite Hev. unfold insert_patch_channels. rewrite Hrows, Hacc. reflexivity.
Qed.

Lemma In_combine_seq {A : Type} (l : list A) (x : A) (i : nat) :
  In x l -> exists j, In (x, j) (combine l (seq i (List.length l))).
Proof.
  revert i; induction l as [|y l IH]; intros i; [contradiction|].
  intros [-> | H].
  - exists i. now left.
  - destruct (IH (S i) H) as [j Hj]. exists j. now right.
Qed.

Lemma mapi_In_conv {A B : Type} (f : A -> nat -> B) (l : list A) (y : A) :
  In y l -> exists i, In (f y i) (Js.mapi f l).
Proof.
  intros H. destruct (In_combine_seq l y 0 H) as [i Hi]. exists i.
  unfold Js.mapi. rewrite mapi_from_combine. apply in_map_iff. now exists (y, i).
Qed.

Section SyncedSave.
Variables (snap : Builder) (s : Store) (ev : string).
Hypothesis event_id : selectedEventId snap = Some ev.
Hypothesis synced : patchChannels snap = select_patch_channels s ev.
Hypothesis selection_keys : forall cid, In cid (newBandSelection snap) -> cid <> "".

Lemma synced_map_total (cid : string) :
  In cid (newBandSelection snap) ->
  exists p, Js.map_get cid
              (fold_left fileUnder
                 (appendedOf snap (appended_rows s ev (newBandSelection snap)))
                 (canonicalToPatch0 (patchChannels snap))) = Some p.
Proof.
  intros Hin.
  pose proof (map_has_canonicalToPatch cid
                (appendedOf snap (appended_rows s ev (newBandSelection snap)))
                (canonicalToPatch0 (patchChannels snap)) (selection_keys cid Hin)) as Hhas.
  change (fold_left _ (appendedOf snap (appended_rows s ev (newBandSelection snap)))
                    (canonicalToPatch0 (patchChannels snap)))
    with (fold_left fileUnder
            (appendedOf snap (appended_rows s ev (newBandSelection snap)))
            (canonicalToPatch0 (patchChannels snap))) in Hhas.
  assert (Htrue : Js.map_has cid
                    (fold_left fileUnder
                       (appendedOf snap (appended_rows s ev (newBandSelection snap)))
                       (canonicalToPatch0 (patchChannels snap))) = true).
  { rewrite Hhas, (has_patch_synced snap s ev cid synced (selection_keys cid Hin)).
    destruct (has_patch s ev cid) eqn:Ehp; [apply orb_true_r|].
    rewrite orb_false_r. apply existsb_exists.
    assert (Hl : In cid (lacking s ev (newBandSelection snap))).
    { unfold lacking. apply filter_In. split; [exact Hin | now rewrite Ehp]. }
    destruct (mapi_In_conv
                (fun cid i => mkPatchRow (uuid s (next_uuid s + i)) ev
                                (event_max s ev + Z.of_nat i + 1) (Some cid))
                (lacking s ev (newBandSelection snap)) cid Hl) as [i Hi].
    eexists. split.
    - unfold appendedOf. apply in_map_iff. eexists. split; [reflexivity | exact Hi].
    - cbn. apply String.eqb_refl. }
  unfold Js.map_has in Htrue.
  destruct (Js.map_get cid _) as [p|]; [now exists p | discriminate].
Qed.


Hypothesis keys_fresh : uuid_fresh s.
Hypothesis patch_keys : NoDup (map pr_id (patch_channels s)).

Lemma synced_patch_keys :
  NoDup (map pr_id (patch_channels s ++ appended_rows s ev (newBandSelection snap))).
Proof.
  destruct keys_fresh as [Hinj Hfresh].
  assert (Hnew : map pr_id (appended_rows s ev (newBandSelection snap))
                 = map (fun i => uuid s (next_uuid s + i))
                       (seq 0 (List.length (lacking s ev (newBandSelection snap))))).
  { unfold appended_rows, Js.mapi. rewrite mapi_from_map. cbn.
    apply (mapi_from_index (fun i => uuid s (next_uuid s + i))). }
  rewrite map_app. apply NoDup_app; [exact patch_keys | |].
  - rewrite Hnew. apply Finite.Injective_map_NoDup; [|apply seq_NoDup].
    intros i j H. apply Hinj in H. lia.
  - intros x Hold Hnew'. rewrite Hnew in Hnew'. apply in_map_iff in Hnew'.
    destruct Hnew' as [i [<- _]].
    apply (Hfresh (next_uuid s + i)%nat); [lia|].
    unfold store_keys. apply in_or_app. now left.
Qed.
End SyncedSave.

(** ** Saving an existing band again *)


Example resave_discards_matrix_label :
  map label (band_channel_usage (snd (handleAddBand false labelled_builder labelled_store)))
  = [Some "Kick In"; Some "Lead Vox"]
  /\ map label (band_channel_usage (snd (toggleUsage "ii#" "#" labelled_matrix labelled_store)))
     = [Some "Kick (Beta 52)"; Some "Lead Vox"].
Proof. split; reflexivity. Qed.



Lemma NoDup_map_filter {A B : Type} (f : A -> B) (g : A -> bool) (l : list A) :
  NoDup (map f l) -> NoDup (map f (filter g l)).
Proof.
  induction l as [|x l IH]; intros Hnd; [constructor|].
  inversion Hnd as [|? ? Hnotin Hnd']; subst. cbn [filter].
  destruct (g x); [|now apply IH].
  cbn [map]. constructor; [|now apply IH].
  intros Hin. apply Hnotin. apply in_map_iff in Hin. destruct Hin as [y [E Hy]].
  apply filter_In in Hy. apply in_map_iff. exists y. tauto.
Qed.

Lemma NoDup_map_same {A B : Type} (f : A -> B) (l : list A) (x y : A) :
  NoDup (map f l) -> In x l -> In y l -> f x = f y -> x = y.
Proof.
  induction l as [|z l IH]; intros Hnd Hx Hy E; [contradiction|].
  inversion Hnd as [|? ? Hnotin Hnd']; subst.
  destruct Hx as [-> | Hx], Hy as [-> | Hy]; trivial.
  - exfalso. apply Hnotin. rewrite E. now apply in_map.
  - exfalso. apply Hnotin. rewrite <- E. now apply in_map.
  - now apply IH.
Qed.



Lemma saveBand_cases (ev : EventRow) (snap : Builder) (s1 : Store)
  (target : string) (nb : option Band) (s2 : Store) :
  saveBand ev snap s1 = (target, nb, s2) ->
  (editingBandId snap = Some target /\ target <> ""
   /\ clearUsage snap s2 = delete_usage_of_band target s2)
  \/ (Js.truthy (editingBandId snap) = false
      /\ target = uuid s1 (next_uuid s1)
      /\ bands s2 = bands s1 ++ [mkBandRow target (ev_id ev) (Js.trim (newBandName snap))
                                           (Z.of_nat (List.length (bandList snap)) + 1)]
      /\ clearUsage snap s2 = s2).
Proof.
  unfold saveBand, clearUsage. destruct (editingBandId snap) as [bid|] eqn:Ee.
  - destruct (Js.truthy (Some bid)) eqn:Et.
    + intros H. injection H as <- _ <-. left. repeat split.
      unfold Js.truthy in Et. apply negb_true_iff in Et. now apply String.eqb_neq.
    + unfold insert_band. intros H. injection H as <- _ <-. right. repeat split.
  - unfold insert_band. intros H. injection H as <- _ <-. right. repeat split.
Qed.

Lemma ensurePatchChannels_patch (canonicalIds : list string) (snap c : Builder)
  (s : Store) (ev : string) :
  selectedEventId snap = Some ev ->
  patchChannels snap = select_patch_channels s ev ->
  (forall cid, In cid canonicalIds -> cid <> "") ->
  patch_channels (snd (ensurePatchChannels canonicalIds snap c s))
  = patch_channels s ++ appended_rows s ev canonicalIds.
Proof.
  intros Hev Hsync Hne.
  rewrite (ensurePatchChannels_store canonicalIds snap c s ev Hev Hsync Hne).
  unfold appended_rows. destruct (lacking s ev canonicalIds); [|reflexivity].
  simpl. now rewrite app_nil_r.
Qed.

Section BaselineAfterSave.
Variables (isAuto : bool) (snap : Builder) (s : Store) (ev : EventRow).
Variables (target : string) (nb : option Band) (data : list BandChannelUsage).
Variables (c2 : Builder) (s4 : Store).
Hypothesis event_selected : selectedEvent snap = Some ev.
Hypothesis persisted : persistBand isAuto snap s = Stored target nb data c2 s4.
Hypothesis synced : patchChannels snap = select_patch_channels s (ev_id ev).
Hypothesis selection_keys : forall cid, In cid (newBandSelection snap) -> cid <> "".
Hypothesis keys_fresh : uuid_fresh s.
Hypothesis patch_keys : NoDup (map pr_id (patch_channels s)).

Lemma saved_tables :
  patch_channels s4
  = patch_channels s ++ appended_rows s (ev_id ev) (newBandSelection snap)
  /\ (forall u, In u (band_channel_usage s4) -> us_band_id u = target ->
        is_used u = true
        /\ exists cid p,
             In cid (newBandSelection snap)
             /\ Js.map_get cid
                  (fold_left fileUnder
                     (appendedOf snap (appended_rows s (ev_id ev) (newBandSelection snap)))
                     (canonicalToPatch0 (patchChannels snap))) = Some p
             /\ us_patch_channel_id u = pc_id p)
  /\ (forall cid, In cid (newBandSelection snap) ->
        exists u p,
          In u (band_channel_usage s4) /\ us_band_id u = target /\ is_used u = true
          /\ Js.map_get cid
               (fold_left fileUnder
                  (appendedOf snap (appended_rows s (ev_id ev) (newBandSelection snap)))
                  (canonicalToPatch0 (patchChannels snap))) = Some p
          /\ us_patch_channel_id u = pc_id p)
  /\ (Js.truthy (editingBandId snap) = false ->
      bands s4 = bands s ++ [mkBandRow target (ev_id ev) (Js.trim (newBandName snap))
                                       (Z.of_nat (List.length (bandList snap)) + 1)]).
Proof.
  destruct (persistBand_stored _ _ _ _ _ _ _ _ persisted)
    as (ev' & c1 & m & s1 & s2 & Hev' & Hname & Hens & Hsave & Husage).
  assert (ev' = ev) by congruence. subst ev'.
  pose proof (selectedEvent_id snap ev event_selected) as Hsel.
  pose proof (ensurePatchChannels_patch (newBandSelection snap) snap c1 s (ev_id ev)
                Hsel synced selection_keys) as P1.
  pose proof (ensurePatchChannels_synced_map (newBandSelection snap) snap c1 s (ev_id ev)
                Hsel synced selection_keys) as Hm.
  pose proof (ensurePatchChannels_frame (newBandSelection snap) snap c1 s) as Hf1.
  rewrite Hens in P1, Hm, Hf1. cbn [fst snd] in P1, Hm, Hf1.
  destruct Hf1 as (G1 & N1 & B1 & U1).
  pose proof (saveBand_frame ev snap s1) as Hf2. rewrite Hsave in Hf2.
  cbn [snd] in Hf2. destruct Hf2 as (G2 & N2 & P2 & U2).
  destruct (clearUsage_frame snap s2) as (G3 & N3 & P3 & B3).
  subst m.
  set (M := fold_left fileUnder
              (appendedOf snap (appended_rows s (ev_id ev) (newBandSelection snap)))
              (canonicalToPatch0 (patchChannels snap))) in *.
  assert (Hold : forall u, In u (band_channel_usage (clearUsage snap s2)) ->
                           us_band_id u <> target).
  { intros u Hu Eb.
    destruct (saveBand_cases ev snap s1 target nb s2 Hsave)
      as [(_ & _ & Hc) | (_ & Ht & _ & Hc)]; rewrite Hc in Hu.
    - cbn in Hu. apply filter_In in Hu. destruct Hu as [_ Hu].
      rewrite Eb, String.eqb_refl in Hu. discriminate.
    - rewrite U2, U1 in Hu. destruct keys_fresh as [_ Hfresh].
      apply (Hfresh (next_uuid s1)); [exact N1|].
      rewrite <- G1, <- Ht, <- Eb. unfold store_keys. rewrite !in_app_iff.
      do 3 right. left. now apply in_map. }
  assert (Hs4 : patch_channels s4 = patch_channels (clearUsage snap s2)
                /\ bands s4 = bands (clearUsage snap s2)
                /\ (forall u, In u (band_channel_usage s4) ->
                      In u (band_channel_usage (clearUsage snap s2))
                      \/ exists nu i, In nu (usageRows target snap M (newBandSelection snap))
                                      /\ u = mkUsage (uuid (clearUsage snap s2)
                                                        (next_uuid (clearUsage snap s2) + i))
                                                     (nu_band_id nu) (nu_patch_channel_id nu)
                                                     (nu_is_used nu) (nu_label nu))
                /\ (forall nu, In nu (usageRows target snap M (newBandSelection snap)) ->
                      exists u, In u (band_channel_usage s4)
                                /\ us_band_id u = nu_band_id nu
                                /\ us_patch_channel_id u = nu_patch_channel_id nu
                                /\ is_used u = nu_is_used nu)).
  { destruct Husage as [(Hnil & _ & ->) | Hins].
    - repeat split; auto. intros nu Hnu. rewrite Hnil in Hnu. contradiction.
    - apply insert_usage_accepted in Hins. destruct Hins as [Hdata ->]. cbn.
      repeat split.
      + intros u Hu. apply in_app_or in Hu. destruct Hu as [Hu | Hu]; [now left|].
        right. rewrite Hdata in Hu. apply mapi_In in Hu.
        destruct Hu as [nu [i [Hnu ->]]]. now exists nu, i.
      + intros nu Hnu.
        destruct (mapi_In_conv
                    (fun nu i => mkUsage (uuid (clearUsage snap s2)
                                            (next_uuid (clearUsage snap s2) + i))
                                         (nu_band_id nu) (nu_patch_channel_id nu)
                                         (nu_is_used nu) (nu_label nu))
                    _ nu Hnu) as [i Hi].
        eexists. split; [apply in_or_app; right; rewrite Hdata; exact Hi|].
        cbn. repeat split. }
  destruct Hs4 as (P4 & B4 & U4 & U4').
  split; [congruence|]. split; [|split].
  - intros u Hu Eb. destruct (U4 u Hu) as [Hu' | [nu [i [Hnu ->]]]].
    + exfalso. now apply (Hold u).
    + apply usageRows_In in Hnu. destruct Hnu as [cid [p [Hcid [Hget ->]]]]. cbn.
      split; [reflexivity|]. now exists cid, p.
  - intros cid Hcid.
    destruct (synced_map_total snap s (ev_id ev) synced selection_keys cid Hcid)
      as [p Hp]. fold M in Hp.
    destruct (U4' (mkNewUsage target (pc_id p) true
                     (option_map ch_name
                        (Js.map_get cid (canonicalMap (canonicalChannels snap))))))
      as [u [Hu [Eb [Ep Eu]]]].
    { apply usageRows_In. now exists cid, p. }
    exists u, p. cbn in Eb, Ep, Eu. repeat split; trivial.
  - intros Hnew.
    destruct (saveBand_cases ev snap s1 target nb s2 Hsave)
      as [(He & Hne & _) | (_ & _ & Hb & _)].
    + exfalso. rewrite He in Hnew. unfold Js.truthy in Hnew.
      apply String.eqb_neq in Hne. rewrite Hne in Hnew. discriminate.
    + rewrite B4, B3, Hb, B1. reflexivity.
Qed.


End BaselineAfterSave.



Example baseline_after_second_band :
  baseline (snd (handleAddBand false (opener_builder "Headliner" ["ch-vox"; "ch-snare"])
                   opener_store)) "ev-1" (builder_with "" [])
  = ["ch-vox"; "ch-snare"].
Proof. vm_compute. reflexivity. Qed.



(** * Reordering the patch channels of the overview table *)

(** ** [findIndex] and [splice] *)

Lemma findIndex_range {A : Type} (f : A -> bool) (l : list A) :
  Arr.findIndex f l = -1 \/ 0 <= Arr.findIndex f l < Z.of_nat (List.length l).
Proof.
  induction l as [|x l IH]; [now left|].
  cbn [Arr.findIndex List.length]. destruct (f x); [right; lia|].
  destruct IH as [-> | IH]; [now left|].
  destruct (Z.eqb_spec (Arr.findIndex f l) (-1)); [now left | right; lia].
Qed.

Lemma findIndex_none {A : Type} (f : A -> bool) (l : list A) :
  Arr.findIndex f l = -1 <-> forall x, In x l -> f x = false.
Proof.
  induction l as [|x l IH]; [simpl; tauto|].
  cbn [Arr.findIndex]. destruct (f x) eqn:E.
  - split; [discriminate|]. intros H. specialize (H x (or_introl eq_refl)). congruence.
  - destruct (findIndex_range f l) as [R | R].
    + rewrite R. cbn. split; [|reflexivity].
      intros _ y [<- | Hy]; [exact E | now apply IH].
    + destruct (Z.eqb_spec (Arr.findIndex f l) (-1)) as [E1 | NE]; [lia|].
      split; [lia|]. intros H. exfalso. apply NE, IH.
      intros y Hy. apply H. now right.
Qed.

(** The index found is the place of the first element accepted. *)
Lemma findIndex_first {A : Type} (f : A -> bool) (l1 l2 : list A) (x : A) :
  (forall y, In y l1 -> f y = false) -> f x = true ->
  Arr.findIndex f (l1 ++ x :: l2) = Z.of_nat (List.length l1).
Proof.
  intros H1 Hx. induction l1 as [|y l1 IH]; cbn [app Arr.findIndex List.length].
  - now rewrite Hx.
  - rewrite (H1 y (or_introl eq_refl)). rewrite IH by (intros z Hz; apply H1; now right).
    destruct (Z.eqb_spec (Z.of_nat (List.length l1)) (-1)); lia.
Qed.

Lemma findIndex_split {A : Type} (f : A -> bool) (l : list A) :
  Arr.findIndex f l <> -1 ->
  exists l1 x l2,
    l = l1 ++ x :: l2 /\ (forall y, In y l1 -> f y = false) /\ f x = true
    /\ Arr.findIndex f l = Z.of_nat (List.length l1).
Proof.
  induction l as [|a l IH]; [cbn; congruence|].
  cbn [Arr.findIndex]. destruct (f a) eqn:E.
  - intros _. exists [], a, l. repeat split; trivial. intros y [].
  - destruct (Z.eqb_spec (Arr.findIndex f l) (-1)) as [E1 | NE]; [congruence|].
    intros _. destruct (IH NE) as (l1 & x & l2 & -> & H1 & Hx & Hi).
    exists (a :: l1), x, l2. repeat split; trivial.
    + intros y [<- | Hy]; [exact E | now apply H1].
    + rewrite Hi. cbn [List.length]. lia.
Qed.

Lemma relocate_at (l1 l2 : list PatchChannel) (x : PatchChannel) (to : nat) :
  relocate (List.length l1) to (l1 ++ x :: l2)
  = Some (firstn to (l1 ++ l2) ++ x :: skipn to (l1 ++ l2)).
Proof.
  unfold relocate, Arr.splice_out, Arr.splice_in.
  assert (E1 : skipn (List.length l1) (l1 ++ x :: l2) = x :: l2).
  { rewrite skipn_app, skipn_all, Nat.sub_diag. reflexivity. }
  assert (E2 : firstn (List.length l1) (l1 ++ x :: l2) = l1).
  { rewrite firstn_app, firstn_all, Nat.sub_diag. cbn [firstn]. apply app_nil_r. }
  assert (E3 : skipn (S (List.length l1)) (l1 ++ x :: l2) = l2).
  { replace (S (List.length l1)) with (1 + List.length l1)%nat by lia.
    rewrite <- skipn_skipn, E1. reflexivity. }
  rewrite E1, E2, E3. reflexivity.
Qed.

Lemma relocate_perm (from to : nat) (rows newOrder : list PatchChannel) :
  relocate from to rows = Some newOrder -> Permutation newOrder rows.
Proof.
  unfold relocate, Arr.splice_out, Arr.splice_in.
  destruct (skipn from rows) as [|x rest] eqn:E; [discriminate|].
  assert (Hrows : rows = firstn from rows ++ x :: rest).
  { now rewrite <- E, firstn_skipn. }
  assert (Hrest : skipn (S from) rows = rest).
  { replace (S from) with (1 + from)%nat by lia.
    rewrite <- skipn_skipn, E. reflexivity. }
  rewrite Hrest. cbn [firstn]. intros H. injection H as <-.
  rewrite Hrows at 3.
  set (others := firstn from rows ++ rest).
  transitivity (x :: others).
  - symmetry. rewrite <- (firstn_skipn to others) at 1. apply Permutation_middle.
  - apply Permutation_middle.
Qed.

(** ** The numbers the page gives the rows *)

Lemma numberedRows_ids (l : list PatchChannel) :
  map pc_id (numberedRows l) = map pc_id l.
Proof.
  unfold numberedRows, Js.mapi. generalize 0%nat.
  induction l as [|p l IH]; intros i; cbn; [reflexivity|]. now rewrite IH.
Qed.

Lemma numberedRows_numbers (l : list PatchChannel) :
  map channel_number (numberedRows l) = one_to (List.length l).
Proof.
  unfold numberedRows, Js.mapi, one_to. rewrite mapi_from_combine, map_map. cbn.
  rewrite <- (combine_seq_snd l 0) at 2. now rewrite map_map.
Qed.

Lemma numberedRows_length (l : list PatchChannel) :
  List.length (numberedRows l) = List.length l.
Proof. unfold numberedRows. apply mapi_length. Qed.

Lemma patch_cmp_key (a b : PatchChannel) :
  channel_number a - channel_number b <= 0 <-> lex_le (patchKey a) (patchKey b).
Proof. unfold lex_le, patchKey; simpl; lia. Qed.

Lemma mapi_from_sorted (l : list PatchChannel) (i : nat) :
  StronglySorted (fun x y => lex_le (patchKey x) (patchKey y))
    (Js.mapi_from (fun p k => mkPatchChannel (pc_id p) (Z.of_nat k + 1)
                                (canonical_channel_id p) (canonical_channels_name p))
                  i l)
  /\ Forall (fun y => Z.of_nat i + 1 <= channel_number y)
       (Js.mapi_from (fun p k => mkPatchChannel (pc_id p) (Z.of_nat k + 1)
                                   (canonical_channel_id p) (canonical_channels_name p))
                     i l).
Proof.
  revert i. induction l as [|p l IH]; intros i; cbn [Js.mapi_from].
  - split; constructor.
  - destruct (IH (S i)) as [Hs Hall]. split.
    + constructor; [exact Hs|].
      eapply Forall_impl; [|exact Hall]. intros y Hy. cbv beta in Hy.
      unfold lex_le, patchKey. cbn [fst snd channel_number]. lia.
    + constructor; [cbn; lia|].
      eapply Forall_impl; [|exact Hall]. intros y Hy. cbv beta in Hy. lia.
Qed.

Lemma numberedRows_sorted (l : list PatchChannel) :
  StronglySorted (fun x y => lex_le (patchKey x) (patchKey y)) (numberedRows l).
Proof. apply (mapi_from_sorted l 0). Qed.

(** The page rows in table order are the page rows, once numbered. *)
Lemma patchChannelRows_numbered (c : Builder) (l : list PatchChannel) :
  patchChannels c = numberedRows l -> patchChannelRows c = numberedRows l.
Proof.
  intros E. unfold patchChannelRows. rewrite E.
  apply (sort_of_sorted _ patchKey); [exact patch_cmp_key | apply numberedRows_sorted].
Qed.

Lemma numberedRows_again (l : list PatchChannel) :
  numberedRows (numberedRows l) = numberedRows l.
Proof.
  unfold numberedRows, Js.mapi. generalize 0%nat.
  induction l as [|p l IH]; intros i; cbn; [reflexivity|]. now rewrite IH.
Qed.

Lemma mapi_from_app {A B : Type} (f : A -> nat -> B) (l1 l2 : list A) (i : nat) :
  Js.mapi_from f i (l1 ++ l2)
  = Js.mapi_from f i l1 ++ Js.mapi_from f (i + List.length l1) l2.
Proof.
  revert i. induction l1 as [|x l1 IH]; intros i; cbn [app Js.mapi_from List.length].
  - now rewrite Nat.add_0_r.
  - rewrite IH. now rewrite Nat.add_succ_r.
Qed.

(** ** [movePatchChannel] and [reorderPatchChannel] on the page *)

Lemma findIndex_id (patchId : string) (l1 l2 : list PatchChannel) (x : PatchChannel) :
  ~ In patchId (map pc_id l1) -> pc_id x = patchId ->
  Arr.findIndex (fun p => String.eqb (pc_id p) patchId) (l1 ++ x :: l2)
  = Z.of_nat (List.length l1).
Proof.
  intros H1 Hx. apply findIndex_first.
  - intros y Hy. apply String.eqb_neq. intros E. apply H1.
    rewrite <- E. now apply in_map.
  - now apply String.eqb_eq.
Qed.

Lemma findIndex_absent (patchId : string) (l : list PatchChannel) :
  ~ In patchId (map pc_id l) ->
  Arr.findIndex (fun p => String.eqb (pc_id p) patchId) l = -1.
Proof.
  intros H. apply findIndex_none. intros y Hy. apply String.eqb_neq.
  intros E. apply H. rewrite <- E. now apply in_map.
Qed.

Lemma move_up_swap (patchId : string) (snap c : Builder) (s : Store)
  (l1 l2 : list PatchChannel) (a b : PatchChannel) :
  patchChannelRows snap = l1 ++ a :: b :: l2 ->
  ~ In patchId (map pc_id l1) -> pc_id a <> patchId -> pc_id b = patchId ->
  movePatchChannel patchId Up snap c s
  = (setPatchChannels c (numberedRows (l1 ++ b :: a :: l2)),
     applyChannelOrder (map pc_id (l1 ++ b :: a :: l2)) s).
Proof.
  intros Hrows H1 Ha Hb. unfold movePatchChannel. rewrite Hrows.
  replace (l1 ++ a :: b :: l2) with ((l1 ++ [a]) ++ b :: l2)
    by (now rewrite <- app_assoc).
  rewrite (findIndex_id patchId (l1 ++ [a]) l2 b); trivial.
  2:{ rewrite map_app, in_app_iff. cbn. intros [H | [H | []]]; auto. }
  rewrite !length_app. cbn [List.length step_of].
  destruct (Z.eqb_spec (Z.of_nat (List.length l1 + 1)) (-1)) as [E|_]; [lia|].
  destruct (Z.ltb_spec (Z.of_nat (List.length l1 + 1) + -1) 0) as [E|_]; [lia|].
  destruct (Z.geb_spec (Z.of_nat (List.length l1 + 1) + -1)
              (Z.of_nat (List.length l1 + 1 + S (List.length l2)))) as [E|_]; [lia|].
  cbn [orb].
  replace (Z.to_nat (Z.of_nat (List.length l1 + 1))) with (List.length (l1 ++ [a]))
    by (rewrite length_app; cbn; lia).
  rewrite relocate_at.
  replace (Z.to_nat (Z.of_nat (List.length l1 + 1) + -1)) with (List.length l1) by lia.
  rewrite <- !app_assoc. cbn [app].
  rewrite firstn_app, firstn_all, Nat.sub_diag. cbn [firstn]. rewrite app_nil_r.
  rewrite skipn_app, skipn_all, Nat.sub_diag. cbn [skipn app]. reflexivity.
Qed.

Lemma move_down_swap (patchId : string) (snap c : Builder) (s : Store)
  (l1 l2 : list PatchChannel) (a b : PatchChannel) :
  patchChannelRows snap = l1 ++ a :: b :: l2 ->
  ~ In patchId (map pc_id l1) -> pc_id a = patchId ->
  movePatchChannel patchId Down snap c s
  = (setPatchChannels c (numberedRows (l1 ++ b :: a :: l2)),
     applyChannelOrder (map pc_id (l1 ++ b :: a :: l2)) s).
Proof.
  intros Hrows H1 Ha. unfold movePatchChannel. rewrite Hrows.
  rewrite (findIndex_id patchId l1 (b :: l2) a); trivial.
  rewrite !length_app. cbn [List.length step_of].
  destruct (Z.eqb_spec (Z.of_nat (List.length l1)) (-1)) as [E|_]; [lia|].
  destruct (Z.ltb_spec (Z.of_nat (List.length l1) + 1) 0) as [E|_]; [lia|].
  destruct (Z.geb_spec (Z.of_nat (List.length l1) + 1)
              (Z.of_nat (List.length l1 + S (S (List.length l2))))) as [E|_]; [lia|].
  cbn [orb]. rewrite Nat2Z.id, relocate_at.
  replace (Z.to_nat (Z.of_nat (List.length l1) + 1)) with (List.length (l1 ++ [b]))
    by (rewrite length_app; cbn; lia).
  replace (l1 ++ b :: l2) with ((l1 ++ [b]) ++ l2) by (now rewrite <- app_assoc).
  rewrite firstn_app, firstn_all, Nat.sub_diag. cbn [firstn]. rewrite app_nil_r.
  rewrite skipn_app, skipn_all, Nat.sub_diag. cbn [skipn app].
  rewrite <- !app_assoc. reflexivity.
Qed.

Lemma move_unknown (patchId : string) (d : Direction) (snap c : Builder) (s : Store) :
  ~ In patchId (map pc_id (patchChannelRows snap)) ->
  movePatchChannel patchId d snap c s = (c, s).
Proof.
  intros H. unfold movePatchChannel. rewrite (findIndex_absent _ _ H). reflexivity.
Qed.

Lemma move_first_up (patchId : string) (snap c : Builder) (s : Store)
  (a : PatchChannel) (l : list PatchChannel) :
  patchChannelRows snap = a :: l -> pc_id a = patchId ->
  movePatchChannel patchId Up snap c s = (c, s).
Proof.
  intros Hrows Ha. unfold movePatchChannel. rewrite Hrows.
  pose proof (findIndex_id patchId [] l a (fun H => H) Ha) as E.
  cbn [app List.length map] in E. rewrite E. reflexivity.
Qed.

Lemma move_last_down (patchId : string) (snap c : Builder) (s : Store)
  (a : PatchChannel) (l : list PatchChannel) :
  patchChannelRows snap = l ++ [a] -> ~ In patchId (map pc_id l) -> pc_id a = patchId ->
  movePatchChannel patchId Down snap c s = (c, s).
Proof.
  intros Hrows Hl Ha. unfold movePatchChannel. rewrite Hrows.
  rewrite (findIndex_id patchId l [] a); trivial.
  rewrite length_app. cbn [List.length step_of].
  destruct (Z.eqb_spec (Z.of_nat (List.length l)) (-1)) as [E|_]; [lia|].
  destruct (Z.ltb_spec (Z.of_nat (List.length l) + 1) 0) as [E|_]; [lia|].
  destruct (Z.geb_spec (Z.of_nat (List.length l) + 1)
              (Z.of_nat (List.length l + 1))) as [_|E]; [reflexivity | lia].
Qed.

Lemma reorder_spec (dragId targetId : string) (snap c : Builder) (s : Store) :
  NoDup (map pc_id (patchChannelRows snap)) ->
  In dragId (map pc_id (patchChannelRows snap)) ->
  In targetId (map pc_id (patchChannelRows snap)) ->
  dragId <> targetId ->
  exists newOrder,
    reorderPatchChannel dragId targetId snap c s
    = (setPatchChannels c (numberedRows newOrder),
       applyChannelOrder (map pc_id newOrder) s)
    /\ Permutation newOrder (patchChannelRows snap)
    /\ Arr.findIndex (fun p => String.eqb (pc_id p) dragId) newOrder
       = Arr.findIndex (fun p => String.eqb (pc_id p) targetId) (patchChannelRows snap)
    /\ filter (fun p => negb (String.eqb (pc_id p) dragId)) newOrder
       = filter (fun p => negb (String.eqb (pc_id p) dragId)) (patchChannelRows snap).
Proof.
  intros Hnd Hd Ht Hne. unfold reorderPatchChannel.
  destruct (String.eqb_spec dragId targetId) as [E|_]; [contradiction|].
  remember (patchChannelRows snap) as rows eqn:Erows. clear Erows.
  assert (Hdi : Arr.findIndex (fun p => String.eqb (pc_id p) dragId) rows <> -1).
  { intros E. apply in_map_iff in Hd. destruct Hd as [p [Hp Hin]].
    pose proof (proj1 (findIndex_none _ _) E p Hin) as F. cbn in F.
    apply String.eqb_neq in F. contradiction. }
  assert (Hti : Arr.findIndex (fun p => String.eqb (pc_id p) targetId) rows <> -1).
  { intros E. apply in_map_iff in Ht. destruct Ht as [p [Hp Hin]].
    pose proof (proj1 (findIndex_none _ _) E p Hin) as F. cbn in F.
    apply String.eqb_neq in F. contradiction. }
  destruct (findIndex_split _ _ Hdi) as (l1 & d & l2 & Hrows & Hl1 & Hdd & Hidx).
  apply String.eqb_eq in Hdd.
  destruct (findIndex_range (fun p => String.eqb (pc_id p) targetId) rows) as [R|R];
    [contradiction|].
  destruct (findIndex_split _ _ Hti) as (t1 & t & t2 & Hrows' & Ht1 & Htt & Htdx).
  apply String.eqb_eq in Htt.
  remember (Arr.findIndex (fun p => String.eqb (pc_id p) targetId) rows) as j eqn:Ej.
  clear Ej.
  destruct (Z.eqb_spec (Arr.findIndex (fun p => String.eqb (pc_id p) dragId) rows) (-1));
    [contradiction|].
  destruct (Z.eqb_spec j (-1)); [contradiction|]. cbn [orb].
  rewrite Hidx, Nat2Z.id.
  pose proof (relocate_at l1 l2 d (Z.to_nat j)) as Hrel. rewrite <- Hrows in Hrel.
  rewrite Hrel.
  eexists. split; [reflexivity|].
  assert (Hlen : List.length rows = S (List.length (l1 ++ l2))).
  { rewrite Hrows, !length_app. cbn. lia. }
  assert (Hj : (Z.to_nat j <= List.length (l1 ++ l2))%nat).
  { assert (Z.to_nat j <> List.length l1).
    { intros E. rewrite Htdx in E. rewrite Nat2Z.id in E.
      rewrite Hrows in Hrows'.
      assert (Hnth : nth_error (l1 ++ d :: l2) (List.length l1) = Some d).
      { rewrite nth_error_app2, Nat.sub_diag by lia. reflexivity. }
      rewrite Hrows' in Hnth at 1. rewrite <- E in Hnth.
      rewrite nth_error_app2, Nat.sub_diag in Hnth by lia. cbn in Hnth.
      congruence. }
    lia. }
  assert (Hfresh : ~ In dragId (map pc_id (l1 ++ l2))).
  { rewrite Hrows, map_app in Hnd. cbn [map] in Hnd.
    apply NoDup_remove_2 in Hnd. rewrite map_app, <- Hdd. exact Hnd. }
  split; [|split].
  - rewrite Hrows. transitivity (d :: l1 ++ l2).
    + symmetry. rewrite <- (firstn_skipn (Z.to_nat j) (l1 ++ l2)) at 1.
      apply Permutation_middle.
    + apply Permutation_middle.
  - rewrite findIndex_id; trivial.
    + rewrite length_firstn. lia.
    + intros H. apply Hfresh. rewrite <- (firstn_skipn (Z.to_nat j) (l1 ++ l2)).
      rewrite map_app, in_app_iff. now left.
  - rewrite Hrows, !filter_app. cbn [filter]. rewrite Hdd, String.eqb_refl. cbn [negb].
    rewrite <- !filter_app. now rewrite firstn_skipn.
Qed.

(** ** The store after a reordering *)

Lemma lex_le_antisym (k1 k2 : Z * Z) : lex_le k1 k2 -> lex_le k2 k1 -> k1 = k2.
Proof.
  destruct k1 as [a b], k2 as [a' b']. unfold lex_le. cbn. intros H1 H2.
  f_equal; lia.
Qed.

Lemma sorted_perm_unique {A : Type} (key : A -> Z * Z) (l1 l2 : list A) :
  StronglySorted (fun x y => lex_le (key x) (key y)) l1 ->
  StronglySorted (fun x y => lex_le (key x) (key y)) l2 ->
  Permutation l1 l2 ->
  (forall x y, In x l1 -> In y l1 -> key x = key y -> x = y) ->
  l1 = l2.
Proof.
  revert l2. induction l1 as [|x l1 IH]; intros l2 S1 S2 P Inj.
  - apply Permutation_nil in P. now subst.
  - destruct l2 as [|y l2].
    { apply Permutation_sym, Permutation_nil in P. discriminate. }
    inversion S1 as [|? ? S1' A1]; subst. inversion S2 as [|? ? S2' A2]; subst.
    assert (E : x = y).
    { assert (Hx : In x (y :: l2)) by (eapply Permutation_in; [exact P | now left]).
      assert (Hy : In y (x :: l1)).
      { eapply Permutation_in; [symmetry; exact P | now left]. }
      destruct Hx as [-> | Hx]; [reflexivity|].
      destruct Hy as [-> | Hy]; [reflexivity|].
      apply Inj; [now left | now right |].
      apply lex_le_antisym.
      - rewrite Forall_forall in A1. now apply A1.
      - rewrite Forall_forall in A2. now apply A2. }
    subst y. f_equal. apply IH; trivial.
    + now apply Permutation_cons_inv in P.
    + intros a b Ha Hb. apply Inj; now right.
Qed.

Lemma mapi_from_page_assign (l : list PatchChannel) (i : nat) :
  NoDup (map pc_id l) ->
  Js.mapi_from (fun p k => mkPatchChannel (pc_id p) (Z.of_nat k + 1)
                             (canonical_channel_id p) (canonical_channels_name p)) i l
  = map (page_assign (Js.mapi_from (fun id k => (id, Z.of_nat k + 1)) i (map pc_id l))) l.
Proof.
  revert i. induction l as [|p l IH]; intros i Hnd; cbn [map Js.mapi_from]; [reflexivity|].
  inversion Hnd as [|? ? Hnotin Hnd']; subst. f_equal.
  - unfold page_assign. cbn [Js.map_get]. now rewrite String.eqb_refl.
  - rewrite (IH (S i) Hnd'). apply map_ext_in. intros q Hq.
    unfold page_assign. cbn [Js.map_get].
    destruct (String.eqb_spec (pc_id q) (pc_id p)) as [E|_]; [|reflexivity].
    exfalso. apply Hnotin. rewrite <- E. now apply in_map.
Qed.

Lemma numberedRows_assign (l : list PatchChannel) :
  NoDup (map pc_id l) ->
  numberedRows l = map (page_assign (phase 1 (map pc_id l))) l.
Proof. apply mapi_from_page_assign. Qed.

Lemma assign_twice (ids : list string) (rows : list PatchRow) :
  assign (phase 1 ids) (assign (phase 1000 ids) rows) = assign (phase 1 ids) rows.
Proof.
  unfold assign. rewrite map_map. apply map_ext. intros r.
  destruct (Js.map_get (pr_id r) (phase 1000 ids)) as [n1|] eqn:E1; [|reflexivity].
  cbn [set_number pr_id].
  destruct (Js.map_get (pr_id r) (phase 1 ids)) as [n|] eqn:E; [reflexivity|].
  exfalso. apply map_get_None in E. apply map_get_Some_In in E1.
  apply E. rewrite phase_ids. apply (in_map fst) in E1. now rewrite phase_ids in E1.
Qed.

Lemma assign_event_rows (ups : list (string * Z)) (s : Store) (ev : string) :
  filter (fun r => String.eqb (pr_event_id r) ev) (assign ups (patch_channels s))
  = assign ups (event_rows s ev).
Proof.
  unfold event_rows, assign. induction (patch_channels s) as [|r l IH]; [reflexivity|].
  cbn [map filter].
  replace (pr_event_id (match Js.map_get (pr_id r) ups with
                        | Some n => set_number r n
                        | None => r
                        end)) with (pr_event_id r) by (now destruct (Js.map_get _ _)).
  destruct (String.eqb (pr_event_id r) ev); cbn [map]; now rewrite IH.
Qed.

Lemma patchOf_assign (ups : list (string * Z)) (s s' : Store) (r : PatchRow) :
  canonical_channels s' = canonical_channels s ->
  patchOf s' (match Js.map_get (pr_id r) ups with
              | Some n => set_number r n
              | None => r
              end)
  = page_assign ups (patchOf s r).
Proof.
  intros E. unfold page_assign, patchOf, joined_name. cbn [pc_id]. rewrite E.
  now destruct (Js.map_get (pr_id r) ups).
Qed.

Lemma select_patch_channels_patchOf (s : Store) (ev : string) :
  select_patch_channels s ev = map (patchOf s) (select_patch_rows s ev).
Proof. reflexivity. Qed.

Lemma patchChannelRows_perm (c : Builder) :
  Permutation (patchChannels c) (patchChannelRows c).
Proof. unfold patchChannelRows. apply sort_perm. Qed.

Lemma applyChannelOrder_catalog (ids : list string) (s : Store) :
  canonical_channels (applyChannelOrder ids s) = canonical_channels s.
Proof. reflexivity. Qed.

Lemma order_committed (c : Builder) (s : Store) (ev : string)
  (newOrder : list PatchChannel) :
  in_step c s ev ->
  Permutation newOrder (patchChannelRows c) ->
  patch_channels (applyChannelOrder (map pc_id newOrder) s)
  = assign (phase 1 (map pc_id newOrder)) (patch_channels s)
  /\ select_patch_channels (applyChannelOrder (map pc_id newOrder) s) ev
     = numberedRows newOrder.
Proof.
  intros (Hsync & Hkeys & Hbelow & Hshort) Hperm.
  assert (Hpage : Permutation newOrder (map (patchOf s) (event_rows s ev))).
  { rewrite Hperm, <- patchChannelRows_perm, Hsync, select_patch_channels_patchOf.
    apply Permutation_map. symmetry. apply select_patch_rows_perm. }
  assert (Hids : NoDup (map pc_id newOrder)).
  { eapply Permutation_NoDup; [symmetry; apply Permutation_map; exact Hpage|].
    rewrite map_map. cbn [patchOf pc_id]. unfold event_rows.
    now apply NoDup_map_filter. }
  assert (Hin : forall id, In id (map pc_id newOrder) <->
                           exists r, In r (patch_channels s) /\ pr_id r = id
                                     /\ pr_event_id r = ev).
  { intros id. rewrite (Permutation_map pc_id Hpage) at 1.
    rewrite map_map. cbn [patchOf pc_id]. rewrite in_map_iff.
    split; intros [r Hr]; exists r; rewrite event_rows_In in *; tauto. }
  assert (Hlen : List.length newOrder = List.length (patchChannels c)).
  { apply Permutation_length. now rewrite Hperm, <- patchChannelRows_perm. }
  assert (Htable : patch_channels (applyChannelOrder (map pc_id newOrder) s)
                   = assign (phase 1 (map pc_id newOrder)) (patch_channels s)).
  { unfold applyChannelOrder, applyChannelOrder_log. cbn [patch_channels with_patch_channels].
    rewrite (renumber_in_order_spec ev (map pc_id newOrder)); trivial.
    - cbn [fst]. apply assign_twice.
    - intros id Hid. now apply Hin.
    - rewrite length_map. lia.
    - intros r Hr Hev Hnot. exfalso. apply Hnot, Hin. now exists r. }
  split; [exact Htable|].
  apply (sorted_perm_unique patchKey).
  - rewrite select_patch_channels_patchOf. apply StronglySorted_map.
    apply (sort_sorted _ (fun r => patchKey (patchOf (applyChannelOrder (map pc_id newOrder) s) r))).
    intros x y. unfold lex_le, patchKey. cbn. lia.
  - apply numberedRows_sorted.
  - rewrite select_patch_channels_patchOf.
    rewrite <- select_patch_rows_perm. unfold event_rows at 1.
    rewrite Htable, assign_event_rows. unfold assign. rewrite map_map.
    rewrite (map_ext _ _ (fun r => patchOf_assign (phase 1 (map pc_id newOrder)) s _ r
                                      (applyChannelOrder_catalog _ s))).
    rewrite <- map_map, (numberedRows_assign newOrder Hids).
    apply Permutation_map. now symmetry.
  - intros x y Hx Hy E.
    assert (Hnum : NoDup (map channel_number
                            (select_patch_channels (applyChannelOrder (map pc_id newOrder) s) ev))).
    { eapply Permutation_NoDup; [|apply (one_to_NoDup (List.length newOrder))].
      rewrite <- numberedRows_numbers. apply Permutation_map.
      rewrite select_patch_channels_patchOf.
      rewrite <- select_patch_rows_perm. unfold event_rows at 1.
      rewrite Htable, assign_event_rows. unfold assign. rewrite map_map.
      rewrite (map_ext _ _ (fun r => patchOf_assign (phase 1 (map pc_id newOrder)) s _ r
                                        (applyChannelOrder_catalog _ s))).
      rewrite <- map_map, (numberedRows_assign newOrder Hids).
      apply Permutation_map. exact Hpage. }
    apply (NoDup_map_same channel_number _ x y Hnum Hx Hy).
    unfold patchKey in E. congruence.
Qed.

Lemma move_cases (patchId : string) (d : Direction) (snap c : Builder) (s : Store) :
  movePatchChannel patchId d snap c s = (c, s)
  \/ exists newOrder,
       Permutation newOrder (patchChannelRows snap)
       /\ movePatchChannel patchId d snap c s
          = (setPatchChannels c (numberedRows newOrder),
             applyChannelOrder (map pc_id newOrder) s).
Proof.
  unfold movePatchChannel.
  destruct (_ || _ || _)%bool; [now left|].
  destruct (relocate _ _ _) as [newOrder|] eqn:E; [|now left].
  right. exists newOrder. split; [|reflexivity]. now apply relocate_perm in E.
Qed.

Lemma reorder_cases (dragId targetId : string) (snap c : Builder) (s : Store) :
  reorderPatchChannel dragId targetId snap c s = (c, s)
  \/ exists newOrder,
       Permutation newOrder (patchChannelRows snap)
       /\ reorderPatchChannel dragId targetId snap c s
          = (setPatchChannels c (numberedRows newOrder),
             applyChannelOrder (map pc_id newOrder) s).
Proof.
  unfold reorderPatchChannel.
  destruct (String.eqb dragId targetId); [now left|].
  destruct (_ || _)%bool; [now left|].
  destruct (relocate _ _ _) as [newOrder|] eqn:E; [|now left].
  right. exists newOrder. split; [|reflexivity]. now apply relocate_perm in E.
Qed.

Lemma committed_in_step (c : Builder) (s : Store) (ev : string)
  (newOrder : list PatchChannel) :
  in_step c s ev ->
  Permutation newOrder (patchChannelRows c) ->
  in_step (setPatchChannels c (numberedRows newOrder))
          (applyChannelOrder (map pc_id newOrder) s) ev.
Proof.
  intros Hstep Hperm.
  destruct (order_committed c s ev newOrder Hstep Hperm) as [Htable Hsel].
  destruct Hstep as (Hsync & Hkeys & Hbelow & Hshort).
  assert (Hlen : List.length newOrder = List.length (patchChannels c)).
  { apply Permutation_length. now rewrite Hperm, <- patchChannelRows_perm. }
  unfold in_step. cbn [patchChannels setPatchChannels]. repeat split.
  - now rewrite Hsel.
  - now rewrite Htable, assign_ids.
  - intros r Hr Hev. rewrite Htable in Hr. unfold assign in Hr.
    apply in_map_iff in Hr. destruct Hr as [r0 [<- Hr0]].
    destruct (Js.map_get (pr_id r0) (phase 1 (map pc_id newOrder))) as [n|] eqn:E.
    + cbn [set_number pr_channel_number].
      apply map_get_Some_In in E. apply (in_map snd) in E. cbn [snd] in E.
      apply phase_numbers_range in E. rewrite length_map in E. lia.
    + apply Hbelow; trivial.
  - rewrite numberedRows_length. lia.
Qed.

(** X1: [movePatchChannel] exchanges a row of the overview table with its
    neighbour: moving the lower of two adjacent rows up, or the upper one
    down, leaves the page with the two rows exchanged, every other row in
    place, and the rows numbered 1, 2, ..., n from the top; the store is
    sent the ids in that order. *)
Theorem move_swaps_neighbours (snap c : Builder) (s : Store)
  (l1 l2 : list PatchChannel) (a b : PatchChannel) :
  patchChannelRows snap = l1 ++ a :: b :: l2 ->
  ~ In (pc_id a) (map pc_id l1) ->
  ~ In (pc_id b) (map pc_id (l1 ++ [a])) ->
  movePatchChannel (pc_id b) Up snap c s
  = (setPatchChannels c (numberedRows (l1 ++ b :: a :: l2)),
     applyChannelOrder (map pc_id (l1 ++ b :: a :: l2)) s)
  /\ movePatchChannel (pc_id a) Down snap c s
     = (setPatchChannels c (numberedRows (l1 ++ b :: a :: l2)),
        applyChannelOrder (map pc_id (l1 ++ b :: a :: l2)) s)
  /\ map pc_id (numberedRows (l1 ++ b :: a :: l2)) = map pc_id (l1 ++ b :: a :: l2)
  /\ map channel_number (numberedRows (l1 ++ b :: a :: l2))
     = one_to (List.length (l1 ++ a :: b :: l2)).
Proof.
  intros Hrows Ha Hb. rewrite map_app, in_app_iff in Hb. cbn in Hb.
  split; [|split; [|split]].
  - apply move_up_swap; trivial; intuition congruence.
  - apply move_down_swap; trivial.
  - apply numberedRows_ids.
  - rewrite numberedRows_numbers. f_equal. rewrite !length_app. reflexivity.
Qed.

Lemma move_swaps_neighbours_witness :
  map pc_id (patchChannels (fst (movePatchChannel "p-z" Up dense_builder dense_builder
                                                  dense_store)))
  = ["p-z"; "p-y"; "p-x"]
  /\ map (number_of (patch_channels (snd (movePatchChannel "p-y" Down dense_builder
                                                           dense_builder dense_store))))
         ["p-z"; "p-y"; "p-x"]
     = [Some 1; Some 2; Some 3].
Proof.
  destruct (move_swaps_neighbours dense_builder dense_builder dense_store []
              [mkPatchChannel "p-x" 3 (Some "ch-kick") (Some "Kick In")]
              (mkPatchChannel "p-y" 1 (Some "ch-snare") (Some "Snare Top"))
              (mkPatchChannel "p-z" 2 (Some "ch-vox") (Some "Lead Vox")))
    as (Hup & Hdown & _).
  - reflexivity.
  - simpl. tauto.
  - simpl. intuition discriminate.
  - cbn [pc_id] in Hup, Hdown. rewrite Hup, Hdown. split; reflexivity.
Defined.

(** X2: [movePatchChannel] does nothing at the ends of the table: with an
    id that is not in the table, with the first row moved up or with the
    last row moved down, the page and the store are left as they were. *)
Theorem move_out_of_range (patchId : string) (d : Direction) (snap c : Builder)
  (s : Store) :
  ~ In patchId (map pc_id (patchChannelRows snap))
  \/ (d = Up /\ exists a l, patchChannelRows snap = a :: l /\ pc_id a = patchId)
  \/ (d = Down /\ exists a l, patchChannelRows snap = l ++ [a] /\ pc_id a = patchId
                              /\ ~ In patchId (map pc_id l)) ->
  movePatchChannel patchId d snap c s = (c, s).
Proof.
  intros [H | [[-> (a & l & Hrows & Ha)] | [-> (a & l & Hrows & Ha & Hl)]]].
  - now apply move_unknown.
  - now apply (move_first_up patchId snap c s a l).
  - now apply (move_last_down patchId snap c s a l).
Qed.

Lemma move_out_of_range_witness :
  movePatchChannel "p-o" Down dense_builder dense_builder dense_store
  = (dense_builder, dense_store)
  /\ movePatchChannel "p-y" Up dense_builder dense_builder dense_store
     = (dense_builder, dense_store)
  /\ movePatchChannel "p-x" Down dense_builder dense_builder dense_store
     = (dense_builder, dense_store).
Proof.
  split; [|split]; apply move_out_of_range.
  - left. simpl. intuition discriminate.
  - right. left. split; [reflexivity|]. eexists. eexists. split; reflexivity.
  - right. right. split; [reflexivity|].
    exists (mkPatchChannel "p-x" 3 (Some "ch-kick") (Some "Kick In")).
    exists [mkPatchChannel "p-y" 1 (Some "ch-snare") (Some "Snare Top");
            mkPatchChannel "p-z" 2 (Some "ch-vox") (Some "Lead Vox")].
    split; [reflexivity|]. split; [reflexivity|]. simpl. intuition discriminate.
Defined.

(** X3: [reorderPatchChannel] puts the dragged row at the place the target
    row had: for distinct ids of a table without duplicate ids, the new
    order is a rearrangement of the table in which the dragged row stands
    at the index the target stood at and the other rows keep their order;
    the page numbers the rows 1, 2, ..., n in that order. *)
Theorem reorder_lands_on_target (dragId targetId : string) (snap c : Builder)
  (s : Store) :
  NoDup (map pc_id (patchChannelRows snap)) ->
  In dragId (map pc_id (patchChannelRows snap)) ->
  In targetId (map pc_id (patchChannelRows snap)) ->
  dragId <> targetId ->
  exists newOrder,
    reorderPatchChannel dragId targetId snap c s
    = (setPatchChannels c (numberedRows newOrder),
       applyChannelOrder (map pc_id newOrder) s)
    /\ Permutation newOrder (patchChannelRows snap)
    /\ Arr.findIndex (fun p => String.eqb (pc_id p) dragId) newOrder
       = Arr.findIndex (fun p => String.eqb (pc_id p) targetId) (patchChannelRows snap)
    /\ filter (fun p => negb (String.eqb (pc_id p) dragId)) newOrder
       = filter (fun p => negb (String.eqb (pc_id p) dragId)) (patchChannelRows snap)
    /\ map channel_number (numberedRows newOrder)
       = one_to (List.length (patchChannelRows snap)).
Proof.
  intros Hnd Hd Ht Hne.
  destruct (reorder_spec dragId targetId snap c s Hnd Hd Ht Hne)
    as (newOrder & Hrun & Hperm & Hidx & Hrest).
  exists newOrder. repeat split; trivial.
  rewrite numberedRows_numbers. f_equal. now apply Permutation_length.
Qed.

Lemma reorder_lands_on_target_witness :
  exists newOrder,
    reorderPatchChannel "p-y" "p-x" dense_builder dense_builder dense_store
    = (setPatchChannels dense_builder (numberedRows newOrder),
       applyChannelOrder (map pc_id newOrder) dense_store)
    /\ Arr.findIndex (fun p => String.eqb (pc_id p) "p-y") newOrder = 2.
Proof.
  destruct (reorder_lands_on_target "p-y" "p-x" dense_builder dense_builder dense_store)
    as (newOrder & Hrun & _ & Hidx & _).
  - simpl. nodup_strings.
  - simpl. tauto.
  - simpl. tauto.
  - discriminate.
  - exists newOrder. split; [exact Hrun|]. rewrite Hidx. reflexivity.
Defined.

(** X4: a reordering keeps the page and the store in step.  When the page
    shows the patch channels of the event as stored, with fewer than 1000
    rows and numbers below 1000, then after [reorderPatchChannel] or
    [movePatchChannel] the rows of the page, numbers included, are again
    what a reload of the event reads from the store, and the conditions
    hold again. *)
Theorem reordering_keeps_in_step (c : Builder) (s : Store) (ev : string) :
  in_step c s ev ->
  (forall dragId targetId,
      in_step (fst (reorderPatchChannel dragId targetId c c s))
              (snd (reorderPatchChannel dragId targetId c c s)) ev)
  /\ (forall patchId d,
         in_step (fst (movePatchChannel patchId d c c s))
                 (snd (movePatchChannel patchId d c c s)) ev).
Proof.
  intros Hstep. split.
  - intros dragId targetId.
    destruct (reorder_cases dragId targetId c c s) as [-> | (newOrder & Hperm & ->)];
      [exact Hstep | now apply committed_in_step].
  - intros patchId d.
    destruct (move_cases patchId d c c s) as [-> | (newOrder & Hperm & ->)];
      [exact Hstep | now apply committed_in_step].
Qed.

Lemma dense_in_step : in_step dense_builder dense_store "ev-1".
Proof.
  unfold in_step. repeat split.
  - simpl. nodup_strings.
  - each_row.
Qed.

Lemma reordering_keeps_in_step_witness :
  in_step (fst (reorderPatchChannel "p-x" "p-y" dense_builder dense_builder dense_store))
          (snd (reorderPatchChannel "p-x" "p-y" dense_builder dense_builder dense_store))
          "ev-1".
Proof.
  apply (reordering_keeps_in_step dense_builder dense_store "ev-1"). exact dense_in_step.
Defined.

Lemma mapi_from_renumber (l : list PatchChannel) (i j : nat) :
  Js.mapi_from (fun p k => mkPatchChannel (pc_id p) (Z.of_nat k + 1)
                             (canonical_channel_id p) (canonical_channels_name p)) i
    (Js.mapi_from (fun p k => mkPatchChannel (pc_id p) (Z.of_nat k + 1)
                                (canonical_channel_id p) (canonical_channels_name p)) j l)
  = Js.mapi_from (fun p k => mkPatchChannel (pc_id p) (Z.of_nat k + 1)
                               (canonical_channel_id p) (canonical_channels_name p)) i l.
Proof.
  revert i j. induction l as [|p l IH]; intros i j; cbn; [reflexivity|]. now rewrite IH.
Qed.

Lemma mapi_from_length {A B : Type} (f : A -> nat -> B) (l : list A) (i : nat) :
  List.length (Js.mapi_from f i l) = List.length l.
Proof. revert i. induction l as [|x l IH]; intros i; cbn; [reflexivity|]. now rewrite IH. Qed.

Lemma in_step_keys (c : Builder) (s : Store) (ev : string) :
  in_step c s ev -> NoDup (map pc_id (patchChannelRows c)).
Proof.
  intros (Hsync & Hkeys & _).
  eapply Permutation_NoDup; [apply Permutation_map, patchChannelRows_perm|].
  rewrite Hsync. now apply select_patch_channels_keys.
Qed.

(** X5: moving a row down and then up again restores the table.  On a page
    in step with the store, [movePatchChannel] down followed by
    [movePatchChannel] up for the same row leaves the rows in the order
    they had, numbered 1, 2, ..., n, on the page and in the store alike. *)
Theorem move_down_then_up (c : Builder) (s : Store) (ev : string)
  (l1 l2 : list PatchChannel) (a b : PatchChannel) :
  in_step c s ev ->
  patchChannelRows c = l1 ++ a :: b :: l2 ->
  patchChannels
    (fst (movePatchChannel (pc_id a) Up
            (fst (movePatchChannel (pc_id a) Down c c s))
            (fst (movePatchChannel (pc_id a) Down c c s))
            (snd (movePatchChannel (pc_id a) Down c c s))))
  = numberedRows (patchChannelRows c)
  /\ select_patch_channels
       (snd (movePatchChannel (pc_id a) Up
               (fst (movePatchChannel (pc_id a) Down c c s))
               (fst (movePatchChannel (pc_id a) Down c c s))
               (snd (movePatchChannel (pc_id a) Down c c s)))) ev
     = numberedRows (patchChannelRows c).
Proof.
  intros Hstep Hrows.
  pose proof (in_step_keys c s ev Hstep) as Hnd.
  rewrite Hrows, map_app in Hnd. cbn [map] in Hnd.
  pose proof (NoDup_remove_2 _ _ _ Hnd) as Ha.
  apply NoDup_remove_1 in Hnd. pose proof (NoDup_remove_2 _ _ _ Hnd) as Hb.
  rewrite in_app_iff in Ha, Hb. cbn [In] in Ha.
  assert (Ha1 : ~ In (pc_id a) (map pc_id l1)) by tauto.
  assert (Hab : pc_id b <> pc_id a) by (intros E; apply Ha; right; now left).
  rewrite (move_down_swap (pc_id a) c c s l1 l2 a b Hrows Ha1 eq_refl). cbn [fst snd].
  set (sw := l1 ++ b :: a :: l2).
  assert (Hsw : Permutation sw (patchChannelRows c)).
  { rewrite Hrows. apply Permutation_app_head, perm_swap. }
  pose proof (committed_in_step c s ev sw Hstep Hsw) as Hstep1.
  set (c1 := setPatchChannels c (numberedRows sw)) in *.
  set (s1 := applyChannelOrder (map pc_id sw) s) in *.
  assert (Hrows1 : patchChannelRows c1
                   = numberedRows l1
                     ++ mkPatchChannel (pc_id b) (Z.of_nat (List.length l1) + 1)
                          (canonical_channel_id b) (canonical_channels_name b)
                     :: mkPatchChannel (pc_id a) (Z.of_nat (S (List.length l1)) + 1)
                          (canonical_channel_id a) (canonical_channels_name a)
                     :: Js.mapi_from
                          (fun p k => mkPatchChannel (pc_id p) (Z.of_nat k + 1)
                                        (canonical_channel_id p) (canonical_channels_name p))
                          (S (S (List.length l1))) l2).
  { rewrite (patchChannelRows_numbered c1 sw) by reflexivity.
    unfold sw, numberedRows, Js.mapi. rewrite mapi_from_app. reflexivity. }
  rewrite (move_up_swap (pc_id a) c1 c1 s1 _ _ _ _ Hrows1); trivial.
  2:{ now rewrite numberedRows_ids. }
  cbn [fst snd].
  assert (Hback : numberedRows
                    (numberedRows l1
                     ++ mkPatchChannel (pc_id a) (Z.of_nat (S (List.length l1)) + 1)
                          (canonical_channel_id a) (canonical_channels_name a)
                     :: mkPatchChannel (pc_id b) (Z.of_nat (List.length l1) + 1)
                          (canonical_channel_id b) (canonical_channels_name b)
                     :: Js.mapi_from
                          (fun p k => mkPatchChannel (pc_id p) (Z.of_nat k + 1)
                                        (canonical_channel_id p) (canonical_channels_name p))
                          (S (S (List.length l1))) l2)
                  = numberedRows (patchChannelRows c)).
  { rewrite Hrows. unfold numberedRows, Js.mapi. rewrite !mapi_from_app.
    rewrite mapi_from_length. cbn [Js.mapi_from Nat.add pc_id canonical_channel_id
                                    canonical_channels_name].
    now rewrite !mapi_from_renumber. }
  split.
  - cbn [patchChannels setPatchChannels]. exact Hback.
  - rewrite <- Hback. apply (order_committed c1 s1 ev); trivial.
    rewrite Hrows1. apply Permutation_app_head, perm_swap.
Qed.

Lemma move_down_then_up_witness :
  patchChannels
    (fst (movePatchChannel "p-y" Up
            (fst (movePatchChannel "p-y" Down dense_builder dense_builder dense_store))
            (fst (movePatchChannel "p-y" Down dense_builder dense_builder dense_store))
            (snd (movePatchChannel "p-y" Down dense_builder dense_builder dense_store))))
  = patchChannels dense_builder.
Proof.
  apply (move_down_then_up dense_builder dense_store "ev-1" []
           [mkPatchChannel "p-x" 3 (Some "ch-kick") (Some "Kick In")]
           (mkPatchChannel "p-y" 1 (Some "ch-snare") (Some "Snare Top"))
           (mkPatchChannel "p-z" 2 (Some "ch-vox") (Some "Lead Vox"))).
  - exact dense_in_step.
  - reflexivity.
Defined.

(** * Selections and the usage map of the builder *)

Lemma set_add_NoDup (x : string) (l : list string) : NoDup l -> NoDup (Js.set_add x l).
Proof.
  intros H. unfold Js.set_add. destruct (Js.set_has x l) eqn:E; [exact H|].
  apply set_has_false in E.
  apply Permutation_NoDup with (l := x :: l); [|now constructor].
  apply Permutation_cons_append.
Qed.

Lemma set_delete_In (x y : string) (l : list string) :
  In x (Js.set_delete y l) <-> x <> y /\ In x l.
Proof.
  unfold Js.set_delete. rewrite filter_In.
  destruct (String.eqb_spec y x) as [-> | NE]; cbn; intuition congruence.
Qed.

Lemma set_delete_NoDup (x : string) (l : list string) : NoDup l -> NoDup (Js.set_delete x l).
Proof. intros H. unfold Js.set_delete. now apply NoDup_filter. Qed.

Lemma set_has_eq (x : string) (l l' : list string) :
  (In x l <-> In x l') -> Js.set_has x l = Js.set_has x l'.
Proof.
  intros H. destruct (Js.set_has x l') eqn:E.
  - apply set_has_In. apply H. now apply set_has_In.
  - apply set_has_false. intros Hin. apply set_has_false in E. tauto.
Qed.

(** The set a [toggle] handler leaves: [id] changes sides, nothing else
    does. *)
Lemma toggled_In (id x : string) (l : list string) :
  In x (if Js.set_has id l then Js.set_delete id l else Js.set_add id l)
  <-> (x = id /\ ~ In id l) \/ (x <> id /\ In x l).
Proof.
  destruct (Js.set_has id l) eqn:E.
  - apply set_has_In in E. rewrite set_delete_In. tauto.
  - apply set_has_false in E. rewrite set_add_In.
    destruct (String.eqb_spec x id) as [-> | NE]; tauto.
Qed.

Lemma toggled_NoDup (id : string) (l : list string) :
  NoDup l -> NoDup (if Js.set_has id l then Js.set_delete id l else Js.set_add id l).
Proof.
  intros H. destruct (Js.set_has id l); [now apply set_delete_NoDup | now apply set_add_NoDup].
Qed.

(** X6: [toggleNewSelection] moves one channel in or out of the selection.
    The channel toggled changes sides, every other channel stays where it
    was, the selection stays free of duplicates, the form is marked dirty
    exactly when a band is being edited, and toggling the same channel
    twice gives back a selection with the same members. *)
Theorem toggle_selection_flips (canonicalId : string) (c : Builder) :
  NoDup (newBandSelection c) ->
  NoDup (newBandSelection (toggleNewSelection canonicalId c))
  /\ (forall x, In x (newBandSelection (toggleNewSelection canonicalId c))
                <-> (x = canonicalId /\ ~ In canonicalId (newBandSelection c))
                    \/ (x <> canonicalId /\ In x (newBandSelection c)))
  /\ bandDirty (toggleNewSelection canonicalId c)
     = (Js.truthy (editingBandId c) || bandDirty c)%bool
  /\ (forall x, In x (newBandSelection
                        (toggleNewSelection canonicalId (toggleNewSelection canonicalId c)))
                <-> In x (newBandSelection c)).
Proof.
  intros Hnd.
  assert (Hsel : forall c0, newBandSelection (toggleNewSelection canonicalId c0)
                            = if Js.set_has canonicalId (newBandSelection c0)
                              then Js.set_delete canonicalId (newBandSelection c0)
                              else Js.set_add canonicalId (newBandSelection c0)).
  { intros c0. unfold toggleNewSelection. now destruct (Js.truthy (editingBandId c0)). }
  split; [|split; [|split]].
  - rewrite Hsel. now apply toggled_NoDup.
  - intros x. rewrite Hsel. apply toggled_In.
  - unfold toggleNewSelection. now destruct (Js.truthy (editingBandId c)).
  - intros x. rewrite Hsel, toggled_In, Hsel, !toggled_In.
    destruct (String.eqb_spec x canonicalId) as [-> | NE]; [|tauto].
    destruct (in_dec string_dec canonicalId (newBandSelection c)); tauto.
Qed.

Lemma toggle_selection_flips_witness :
  forallb (fun x => Bool.eqb (Js.set_has x (newBandSelection
                                              (toggleNewSelection "ch-vox"
                                                 (toggleNewSelection "ch-vox"
                                                    (builder_with "Opener"
                                                       ["ch-vox"; "ch-kick"])))))
                             (Js.set_has x ["ch-vox"; "ch-kick"]))
          ["ch-vox"; "ch-kick"; "ch-snare"] = true
  /\ NoDup (newBandSelection (toggleNewSelection "ch-vox"
                                (builder_with "Opener" ["ch-vox"; "ch-kick"]))).
Proof.
  split; [reflexivity|].
  apply (toggle_selection_flips "ch-vox" (builder_with "Opener" ["ch-vox"; "ch-kick"])).
  simpl. nodup_strings.
Defined.

(** ** [usedByBand] and [channelsUsedByAllBands] *)

Lemma usedByBand_fold (c : Builder) (bandId x : string) (l : list PatchChannel)
  (acc : list string) :
  In x (fold_left (fun set p =>
                     match Js.map_get (usageKey bandId (pc_id p)) (usageMap c) with
                     | Some usage => if is_used usage then Js.set_add (pc_id p) set else set
                     | None => set
                     end) l acc)
  <-> In x acc
      \/ exists p u, In p l /\ pc_id p = x
                     /\ Js.map_get (usageKey bandId x) (usageMap c) = Some u
                     /\ is_used u = true.
Proof.
  revert acc. induction l as [|p l IH]; intros acc; cbn [fold_left].
  - split; [now left | intros [H | (p & u & [] & _)]; exact H].
  - rewrite IH. split.
    + intros [H | (q & u & Hq & Hx & Hget & Hu)].
      * destruct (Js.map_get (usageKey bandId (pc_id p)) (usageMap c)) as [u|] eqn:E;
          [|now left].
        destruct (is_used u) eqn:Eu; [|now left].
        apply set_add_In in H. destruct H as [-> | H]; [|now left].
        right. exists p, u. split; [now left|]. now repeat split.
      * right. exists q, u. split; [now right|]. now repeat split.
    + intros [H | (q & u & [<- | Hq] & Hx & Hget & Hu)].
      * left. destruct (Js.map_get (usageKey bandId (pc_id p)) (usageMap c)) as [u|];
          [|exact H].
        destruct (is_used u); [|exact H]. apply set_add_In. now right.
      * left. subst x. rewrite Hget, Hu. apply set_add_In. now left.
      * right. exists q, u. now repeat split.
Qed.

Lemma usedByBand_In (c : Builder) (bandId x : string) :
  In x (usedByBand c bandId)
  <-> exists p u, In p (patchChannels c) /\ pc_id p = x
                  /\ Js.map_get (usageKey bandId x) (usageMap c) = Some u
                  /\ is_used u = true.
Proof.
  unfold usedByBand. rewrite usedByBand_fold. cbn [In]. tauto.
Qed.

Lemma add_all_In (x : string) (s acc : list string) :
  In x (fold_left (fun acc id => Js.set_add id acc) s acc) <-> In x acc \/ In x s.
Proof.
  revert acc. induction s as [|y s IH]; intros acc; cbn [fold_left In]; [tauto|].
  rewrite IH, set_add_In. intuition congruence.
Qed.

Lemma union_In (x : string) (sets : list (list string)) (acc : list string) :
  In x (fold_left (fun allIds s => fold_left (fun acc id => Js.set_add id acc) s allIds)
                  sets acc)
  <-> In x acc \/ exists s, In s sets /\ In x s.
Proof.
  revert acc. induction sets as [|s sets IH]; intros acc; cbn [fold_left].
  - split; [now left | intros [H | (s & [] & _)]; exact H].
  - rewrite IH, add_all_In. split.
    + intros [[H | H] | (s' & Hs' & Hx)]; [now left | | ].
      * right. exists s. split; [now left | exact H].
      * right. exists s'. split; [now right | exact Hx].
    + intros [H | (s' & [<- | Hs'] & Hx)]; [now left; left | now left; right |].
      right. exists s'. now split.
Qed.

(** X7: [channelsUsedByAllBands] is the set of the patch channels that some
    band uses, not of those every band uses: a patch channel of the page is
    in it exactly when the usage map marks it as used for at least one band
    of the page; without bands it is empty. *)
Theorem channels_used_by_some_band (c : Builder) (x : string) :
  In x (channelsUsedByAllBands c)
  <-> exists b p u,
        In b (bandList c) /\ In p (patchChannels c) /\ pc_id p = x
        /\ Js.map_get (usageKey (band_id b) x) (usageMap c) = Some u
        /\ is_used u = true.
Proof.
  unfold channelsUsedByAllBands. destruct (bandList c) as [|b0 bs] eqn:E.
  - split; [intros [] | intros (b & _ & _ & [] & _)].
  - rewrite union_In. cbn [In]. split.
    + intros [[] | (s & Hs & Hx)]. apply in_map_iff in Hs.
      destruct Hs as [b [<- Hb]]. apply usedByBand_In in Hx.
      destruct Hx as (p & u & Hp & Hid & Hget & Hu). exists b, p, u. now repeat split.
    + intros (b & p & u & Hb & Hp & Hid & Hget & Hu). right.
      exists (usedByBand c (band_id b)). split.
      * apply in_map_iff. now exists b.
      * apply usedByBand_In. exists p, u. now repeat split.
Qed.

(** ** The usage map [loadEventData] builds *)

(** Keys of band ids of one length, as the keys of the database are, do not
    collide. *)
Lemma usageKey_inj (b1 b2 p1 p2 : string) :
  String.length b1 = String.length b2 ->
  usageKey b1 p1 = usageKey b2 p2 -> b1 = b2 /\ p1 = p2.
Proof.
  unfold usageKey. revert b2. induction b1 as [|ch b1 IH]; intros [|ch2 b2] Hlen E;
    cbn in Hlen; try discriminate.
  - cbn in E. injection E as E. now split.
  - cbn in E. injection E as -> E. injection Hlen as Hlen.
    destruct (IH b2 Hlen E) as [-> ->]. now split.
Qed.

Lemma map_get_keyed {V : Type} (key : V -> string) (k : string) (l : list V) :
  Js.map_get k (map (fun r => (key r, r)) l) = find (fun r => String.eqb k (key r)) l.
Proof.
  induction l as [|r l IH]; cbn; [reflexivity|].
  destruct (String.eqb k (key r)); [reflexivity | exact IH].
Qed.

Lemma find_unique {A : Type} (f : A -> bool) (l l' : list A) :
  (forall x, In x l <-> In x l') ->
  (forall x y, In x l -> In y l -> f x = true -> f y = true -> x = y) ->
  find f l = find f l'.
Proof.
  intros Hsame Huniq.
  destruct (find f l) as [x|] eqn:E, (find f l') as [y|] eqn:E'; trivial.
  - apply find_some in E, E'. destruct E as [Hx Fx], E' as [Hy Fy].
    f_equal. apply Huniq; trivial. now apply Hsame.
  - apply find_some in E. destruct E as [Hx Fx].
    pose proof (find_none _ _ E' x (proj1 (Hsame x) Hx)). congruence.
  - apply find_some in E'. destruct E' as [Hy Fy].
    pose proof (find_none _ _ E y (proj2 (Hsame y) Hy)). congruence.
Qed.

Lemma find_filter {A : Type} (f g : A -> bool) (l : list A) :
  (forall x, In x l -> f x = true -> g x = true) ->
  find f (filter g l) = find f l.
Proof.
  induction l as [|x l IH]; intros H; cbn; [reflexivity|].
  destruct (g x) eqn:G; cbn.
  - destruct (f x); [reflexivity|]. apply IH. intros y Hy. apply H. now right.
  - destruct (f x) eqn:F.
    + rewrite (H x (or_introl eq_refl) F) in G. discriminate.
    + apply IH. intros y Hy. apply H. now right.
Qed.

Lemma find_ext_in {A : Type} (f g : A -> bool) (l : list A) :
  (forall x, In x l -> f x = g x) -> find f l = find g l.
Proof.
  induction l as [|x l IH]; intros H; cbn; [reflexivity|].
  rewrite (H x (or_introl eq_refl)). destruct (g x); [reflexivity|].
  apply IH. intros y Hy. apply H. now right.
Qed.

(** The entries of the usage map, looked up for a band among [bandIds]. *)
Lemma usage_entries_get (s : Store) (bandIds : list string) (b patch : string) :
  (forall u, In u (band_channel_usage s) -> String.length (us_band_id u) = String.length b) ->
  usage_unique s ->
  In b bandIds ->
  Js.map_get (usageKey b patch)
    (fold_left (fun m row =>
                  Js.map_set (usageKey (us_band_id row) (us_patch_channel_id row)) row m)
               (filter (fun u => Js.set_has (us_band_id u) bandIds) (band_channel_usage s))
               [])
  = stored_usage s b patch.
Proof.
  intros Hlen Huniq Hb. unfold Js.map_set.
  rewrite (fold_prepend (fun row => (usageKey (us_band_id row) (us_patch_channel_id row), row))).
  rewrite app_nil_r, <- map_rev, map_get_keyed. unfold stored_usage.
  assert (Hkey : forall u, In u (band_channel_usage s) ->
                   String.eqb (usageKey b patch)
                              (usageKey (us_band_id u) (us_patch_channel_id u))
                   = (String.eqb (us_band_id u) b
                      && String.eqb (us_patch_channel_id u) patch)%bool).
  { intros u Hu.
    destruct (String.eqb_spec (usageKey b patch)
                (usageKey (us_band_id u) (us_patch_channel_id u))) as [E | NE].
    - apply usageKey_inj in E; [|symmetry; now apply Hlen]. destruct E as [<- <-].
      now rewrite !String.eqb_refl.
    - destruct (String.eqb_spec (us_band_id u) b) as [<- |]; [|reflexivity].
      destruct (String.eqb_spec (us_patch_channel_id u) patch) as [<- |]; [|reflexivity].
      contradiction. }
  transitivity (find (fun u => (String.eqb (us_band_id u) b
                                && String.eqb (us_patch_channel_id u) patch)%bool)
                     (rev (filter (fun u => Js.set_has (us_band_id u) bandIds)
                                  (band_channel_usage s)))).
  { apply find_ext_in. intros u Hu. apply Hkey.
    apply in_rev in Hu. now apply filter_In in Hu. }
  transitivity (find (fun u => (String.eqb (us_band_id u) b
                                && String.eqb (us_patch_channel_id u) patch)%bool)
                     (filter (fun u => Js.set_has (us_band_id u) bandIds)
                             (band_channel_usage s))).
  { apply find_unique.
    - intros x. symmetry. apply in_rev.
    - intros x y Hx Hy Fx Fy. apply in_rev, filter_In in Hx, Hy.
      apply andb_prop in Fx, Fy. destruct Fx as [Fx1 Fx2], Fy as [Fy1 Fy2].
      apply String.eqb_eq in Fx1, Fx2, Fy1, Fy2.
      apply (NoDup_map_same (fun u => (us_band_id u, us_patch_channel_id u))
               (band_channel_usage s)); try tauto.
      congruence. }
  apply find_filter. intros u Hu Fu. apply andb_prop in Fu. destruct Fu as [Fu _].
  apply String.eqb_eq in Fu. rewrite Fu. now apply set_has_In.
Qed.

Lemma event_band_ids (s : Store) (ev b : string) :
  In b (map br_id (event_bands s ev)) ->
  In b (map band_id (map bandOf (select_bands s ev)))
  /\ map bandOf (select_bands s ev) <> [].
Proof.
  intros H.
  assert (Hin : In b (map band_id (map bandOf (select_bands s ev)))).
  { rewrite map_map. cbn [bandOf band_id].
    eapply Permutation_in; [|exact H]. apply Permutation_map.
    unfold select_bands, event_bands. apply sort_perm. }
  split; [exact Hin|]. intros E. now rewrite E in Hin.
Qed.

(** X8: the usage map a page loads answers for every cell with the stored
    row of that band and patch channel.  For a band of the event, with band
    ids of one length (as the keys of the database are) and at most one
    usage row per band and patch channel, the entry under
    [usageKey band patch] is the row the store holds for the pair, and
    there is no entry when the store has none; this holds for the builder
    and for the matrix. *)
Theorem usage_lookup_faithful (ev : string) (c : Builder) (p : MatrixPage.State)
  (s : Store) (b patch : string) :
  (forall u, In u (band_channel_usage s) -> String.length (us_band_id u) = String.length b) ->
  usage_unique s ->
  In b (map br_id (event_bands s ev)) ->
  Js.map_get (usageKey b patch) (usageMap (loadEventData ev c s)) = stored_usage s b patch
  /\ Js.map_get (usageKey b patch)
       (m_usageMap (MatrixPage.grid (MatrixPage.loadEventData ev p s)))
     = stored_usage s b patch.
Proof.
  intros Hlen Huniq Hb. destruct (event_band_ids s ev b Hb) as [Hin Hne].
  split.
  - unfold loadEventData.
    destruct (map bandOf (select_bands s ev)) as [|b0 bs] eqn:E; [contradiction|].
    destruct (last_item _) as [lastBand|]; cbn [usageMap setLoading setNewBandSelection
                                                  setUsageMap];
      now apply usage_entries_get.
  - unfold MatrixPage.loadEventData. cbn [MatrixPage.grid m_usageMap].
    destruct (map bandOf (select_bands s ev)) as [|b0 bs] eqn:E; [contradiction|].
    now apply usage_entries_get.
Qed.

Lemma usage_lookup_faithful_witness :
  Js.map_get (usageKey "ii#" "i#")
             (usageMap (loadEventData "ev-1" (builder_with "" []) opener_store))
  = Some (mkUsage "iiii#" "ii#" "i#" true (Some "Lead Vox")).
Proof.
  apply (usage_lookup_faithful "ev-1" (builder_with "" [])
           (MatrixPage.mkState labelled_matrix [] [] false "" [] false)
           opener_store "ii#" "i#").
  - each_row.
  - unfold usage_unique. simpl.
    repeat (constructor; [simpl; intuition discriminate|]); constructor.
  - simpl. tauto.
Defined.

(** ** The auto-save of the band form *)

Lemma loadBandIntoForm_clean (snap : Builder) (bandId : option string) (c : Builder) :
  bandDirty c = false -> bandDirty (loadBandIntoForm snap bandId c) = false.
Proof.
  intros H. unfold loadBandIntoForm. destruct bandId as [bid|]; [|reflexivity].
  destruct (Js.truthy (Some bid)); [|reflexivity].
  destruct (find _ _); [reflexivity | exact H].
Qed.

Lemma handleAddBand_clean (isAuto : bool) (snap : Builder) (s : Store)
  (c' : Builder) (s' : Store) :
  handleAddBand isAuto snap s = (Completed, c', s') -> bandDirty c' = false.
Proof.
  unfold handleAddBand.
  destruct (persistBand isAuto snap s) as [o c0 s0 | target nb data c2 s4] eqn:E.
  - intros H. injection H as -> _ _. now apply persistBand_never_completes in E.
  - destruct (selectedEvent snap) as [ev|]; [|discriminate].
    intros H. injection H as <- _.
    destruct (isAuto && Js.truthy _)%bool.
    + apply loadBandIntoForm_clean. reflexivity.
    + destruct nb as [nb|], isAuto, (Js.truthy (editingBandId snap)); cbv [negb andb];
        first [ apply loadBandIntoForm_clean; reflexivity
              | reflexivity
              | destruct (String.eqb (band_id nb) "");
                [|destruct (find _ (bandList snap))]; reflexivity ].
Qed.

(** X9: the auto-save settles.  When the guard of the auto-save effect
    holds, the save it schedules is not rejected by validation; and a save
    that runs to its end leaves the form clean, so that the guard fails on
    the page it leaves and the effect schedules no further save. *)
Theorem autosave_settles (snap : Builder) (s : Store) :
  autoSaveDue snap = true ->
  fst (fst (handleAddBand true snap s)) <> ValidationError
  /\ (fst (fst (handleAddBand true snap s)) = Completed ->
      autoSaveDue (snd (fst (handleAddBand true snap s))) = false).
Proof.
  intros Hdue. unfold autoSaveDue in Hdue.
  apply andb_prop in Hdue. destruct Hdue as [Hdue Hname].
  apply negb_true_iff in Hname. split.
  - unfold handleAddBand, persistBand.
    destruct (selectedEvent snap) as [ev|]; [|cbn; discriminate].
    rewrite Hname.
    destruct (ensurePatchChannels _ _ _ _) as [[m c2] s1].
    destruct (saveBand ev snap s1) as [[t nb] s2].
    destruct (usageRows t snap m (newBandSelection snap)) as [|u us]; [cbn; discriminate|].
    destruct (insert_usage _ _) as [[data|] s4]; cbn; discriminate.
  - destruct (handleAddBand true snap s) as [[o c'] s'] eqn:E. cbn [fst snd].
    intros ->. apply handleAddBand_clean in E. unfold autoSaveDue. rewrite E.
    now rewrite andb_false_r.
Qed.

Lemma autosave_settles_witness :
  autoSaveDue
    (snd (fst (handleAddBand true (setBandDirty (edit_builder opener_store "ii#" ["ch-kick"])
                                                true)
                             opener_store))) = false.
Proof.
  apply (autosave_settles (setBandDirty (edit_builder opener_store "ii#" ["ch-kick"]) true)
                          opener_store).
  - reflexivity.
  - vm_compute. reflexivity.
Defined.

(** * The techlist page *)

Lemma selectedChannelsSorted_members (p q : TechPage) :
  t_categories q = t_categories p -> t_channels q = t_channels p ->
  (forall x, In x (selectedChannelIds q) <-> In x (selectedChannelIds p)) ->
  selectedChannelsSorted q = selectedChannelsSorted p.
Proof.
  intros Hc Hch Hsel. unfold selectedChannelsSorted. rewrite Hc, Hch.
  apply filter_ext. intros ch. apply set_has_eq, Hsel.
Qed.

Lemma techlistRows_members (p q : TechPage) (tid : string) (s : Store) :
  channelDetails q = channelDetails p ->
  selectedChannelsSorted q = selectedChannelsSorted p ->
  techlistRows q tid s = techlistRows p tid s.
Proof. intros Hd Hs. unfold techlistRows. now rewrite Hd, Hs. Qed.

(** X10: what a techlist save stores does not depend on the order in which
    the channels were ticked.  Two pages that differ only in the order of
    their selection, such as a page before and after a channel was toggled
    twice, end the save with the same outcome and the same store: the rows
    follow the catalog order, not the order of the clicks. *)
Theorem techlist_ignores_click_order (p : TechPage) (sel : list string) (s : Store) :
  (forall x, In x sel <-> In x (selectedChannelIds p)) ->
  fst (fst (handleSaveTechlist (TechListPage.setSelectedChannelIds p sel) s))
  = fst (fst (handleSaveTechlist p s))
  /\ snd (handleSaveTechlist (TechListPage.setSelectedChannelIds p sel) s)
     = snd (handleSaveTechlist p s).
Proof.
  intros Hsel.
  assert (Hs : selectedChannelsSorted (TechListPage.setSelectedChannelIds p sel)
               = selectedChannelsSorted p).
  { now apply selectedChannelsSorted_members. }
  unfold handleSaveTechlist.
  cbn [bandName bandNotes selectedTechlistId TechListPage.setSelectedChannelIds].
  destruct (String.eqb (Js.trim (bandName p)) ""); [now split|].
  rewrite Hs. destruct (selectedChannelsSorted p) as [|ch l] eqn:E; [now split|].
  assert (Hr : forall tid s0, techlistRows (TechListPage.setSelectedChannelIds p sel) tid s0
                              = techlistRows p tid s0).
  { intros tid s0. apply techlistRows_members; [reflexivity|]. now rewrite Hs, E. }
  destruct (if Js.truthy (selectedTechlistId p) then selectedTechlistId p else None);
    cbn [fst snd]; now rewrite !Hr.
Qed.

Lemma techlist_ignores_click_order_witness :
  snd (handleSaveTechlist
         (TechListPage.toggleChannel "ch-vox"
            (TechListPage.toggleChannel "ch-vox" (tech_page "Opener" ["ch-vox"; "ch-kick"])))
         empty_store)
  = snd (handleSaveTechlist (tech_page "Opener" ["ch-vox"; "ch-kick"]) empty_store).
Proof.
  apply (techlist_ignores_click_order (tech_page "Opener" ["ch-vox"; "ch-kick"])
           ["ch-kick"; "ch-vox"] empty_store).
  intros x. simpl. tauto.
Defined.

(** ** Saving a techlist and loading it again *)

Lemma or_empty_or_null (x : string) : TechListPage.or_empty (or_null x) = x.
Proof.
  unfold or_null. destruct (String.eqb_spec x "") as [-> | NE]; reflexivity.
Qed.

(** The outcome of a save that ran to its end, table by table. *)
Lemma handleSaveTechlist_completed (p p' : TechPage) (s s' : Store) :
  handleSaveTechlist p s = (Completed, p', s') ->
  selectedChannelsSorted p <> []
  /\ selectedTechlistId p' = Some (savedTechlistId p s)
  /\ t_categories p' = t_categories p /\ t_channels p' = t_channels p
  /\ (if Js.truthy (selectedTechlistId p)
      then techlists s'
           = map (fun t => if String.eqb (tl_id t) (savedTechlistId p s)
                           then mkTechlist (tl_id t) (Js.trim (bandName p))
                                  (or_null (Js.trim (bandNotes p))) (tl_created_at t)
                           else t) (techlists s)
      else techlists s'
           = techlists s ++ [mkTechlist (savedTechlistId p s) (Js.trim (bandName p))
                               (or_null (Js.trim (bandNotes p))) (Some (db_now s))])
  /\ exists s2,
       techlist_channels s'
       = filter (fun r => negb (String.eqb (tc_techlist_id r) (savedTechlistId p s)))
                (techlist_channels s)
         ++ techlistRows p (savedTechlistId p s) s2.
Proof.
  unfold handleSaveTechlist, savedTechlistId.
  destruct (String.eqb (Js.trim (bandName p)) ""); [discriminate|].
  destruct (selectedChannelsSorted p) as [|ch l] eqn:E; [discriminate|].
  destruct (selectedTechlistId p) as [tid|] eqn:Esel.
  - destruct (Js.truthy (Some tid)) eqn:Et.
    + intros H. injection H as <- <-. cbn. rewrite Esel.
      repeat split; try discriminate. eexists. reflexivity.
    + intros H. injection H as <- <-. cbn.
      repeat split; try discriminate. eexists. reflexivity.
  - cbn [Js.truthy]. intros H. injection H as <- <-. cbn.
    repeat split; try discriminate. eexists. reflexivity.
Qed.

Lemma filter_map_single (tid : string) (upd : Techlist -> Techlist) (l : list Techlist)
  (t : Techlist) :
  (forall x, tl_id (upd x) = tl_id x) ->
  NoDup (map tl_id l) -> In t l -> tl_id t = tid ->
  filter (fun x => String.eqb (tl_id x) tid) (map upd l) = [upd t].
Proof.
  intros Hupd. induction l as [|x l IH]; intros Hnd Hin Hid; [contradiction|].
  inversion Hnd as [|? ? Hnotin Hnd']; subst. cbn [map filter]. rewrite Hupd.
  destruct Hin as [-> | Hin].
  - rewrite String.eqb_refl. f_equal. apply filter_none.
    intros y Hy. apply in_map_iff in Hy. destruct Hy as [z [<- Hz]]. rewrite Hupd.
    apply String.eqb_neq. intros E. apply Hnotin. rewrite <- E. now apply in_map.
  - destruct (String.eqb_spec (tl_id x) (tl_id t)) as [E | _]; [|now apply IH].
    exfalso. apply Hnotin. rewrite E. now apply in_map.
Qed.

Lemma techlistRows_sorted (p : TechPage) (tid : string) (s : Store) :
  StronglySorted (fun x y => lex_le (techRowKey x) (techRowKey y)) (techlistRows p tid s).
Proof.
  unfold techlistRows, Js.mapi. generalize 0%nat.
  induction (selectedChannelsSorted p) as [|ch l IH]; intros i; cbn [Js.mapi_from];
    constructor; [apply IH|].
  apply Forall_forall. intros r Hr. rewrite mapi_from_combine in Hr.
  apply in_map_iff in Hr. destruct Hr as [[ch' j] [<- Hin]].
  apply in_combine_r, in_seq in Hin. unfold lex_le, techRowKey. cbn. lia.
Qed.

Lemma techlistRows_techlist (p : TechPage) (tid : string) (s : Store) (r : TechlistChannel) :
  In r (techlistRows p tid s) -> tc_techlist_id r = tid.
Proof.
  intros H. unfold techlistRows in H. apply mapi_In in H.
  destruct H as (ch & i & _ & ->). reflexivity.
Qed.

Lemma techlistRows_channels (p : TechPage) (tid : string) (s : Store) :
  map (fun r => (tc_canonical_channel_id r,
                 mkDetails (TechListPage.or_empty (tc_label r))
                           (TechListPage.or_empty (tc_mic_or_di r))
                           (TechListPage.or_empty (tc_stand r))
                           (TechListPage.or_empty (tc_notes r))))
      (techlistRows p tid s)
  = map (fun ch => (ch_id ch, storedDetails p ch)) (selectedChannelsSorted p).
Proof.
  unfold techlistRows, Js.mapi. generalize 0%nat.
  induction (selectedChannelsSorted p) as [|ch l IH]; intros i; cbn [Js.mapi_from map];
    [reflexivity|].
  rewrite IH. f_equal. cbn. unfold storedDetails, TechListPage.detailsOf.
  now rewrite !or_empty_or_null.
Qed.

Lemma add_all_NoDup (l acc : list string) :
  NoDup (acc ++ l) -> fold_left (fun set x => Js.set_add x set) l acc = acc ++ l.
Proof.
  revert acc. induction l as [|x l IH]; intros acc Hnd; cbn [fold_left].
  - now rewrite app_nil_r.
  - unfold Js.set_add at 2.
    assert (Hx : Js.set_has x acc = false).
    { apply set_has_false. apply NoDup_remove_2 in Hnd. rewrite in_app_iff in Hnd. tauto. }
    rewrite Hx. rewrite IH; rewrite <- app_assoc; [reflexivity | exact Hnd].
Qed.

Lemma selectedChannelsSorted_keys (p : TechPage) :
  NoDup (map ch_id (t_channels p)) -> NoDup (map ch_id (selectedChannelsSorted p)).
Proof.
  intros H. unfold selectedChannelsSorted. apply NoDup_map_filter.
  eapply Permutation_NoDup; [|exact H]. apply Permutation_map.
  unfold orderedChannels. apply sort_perm.
Qed.

Lemma filter_filter_neg {A : Type} (f : A -> bool) (l : list A) :
  filter f (filter (fun x => negb (f x)) l) = [].
Proof.
  induction l as [|x l IH]; cbn; [reflexivity|].
  destruct (f x) eqn:E; cbn; [exact IH|]. now rewrite E.
Qed.

(** The rows a load reads after a completed save are the rows of the save. *)
Lemma saved_rows_selected (p p' : TechPage) (s s' : Store) :
  handleSaveTechlist p s = (Completed, p', s') ->
  exists s2, TechListPage.select_techlist_channels s' (savedTechlistId p s)
             = techlistRows p (savedTechlistId p s) s2.
Proof.
  intros H. apply handleSaveTechlist_completed in H.
  destruct H as (_ & _ & _ & _ & _ & s2 & Hch). exists s2.
  unfold TechListPage.select_techlist_channels. rewrite Hch, filter_app.
  rewrite (filter_filter_neg (fun r => String.eqb (tc_techlist_id r) (savedTechlistId p s))).
  cbn [app]. rewrite filter_all.
  - apply (sort_of_sorted _ techRowKey); [|apply techlistRows_sorted].
    intros x y. unfold lex_le, techRowKey. cbn. lia.
  - intros r Hr. apply techlistRows_techlist in Hr. rewrite Hr. apply String.eqb_refl.
Qed.

Lemma saved_techlist_single (p p' : TechPage) (s s' : Store) :
  techlist_keys_ok p s ->
  handleSaveTechlist p s = (Completed, p', s') ->
  exists created,
    TechListPage.single (filter (fun t => String.eqb (tl_id t) (savedTechlistId p s))
                                (techlists s'))
    = Some (mkTechlist (savedTechlistId p s) (Js.trim (bandName p))
                       (or_null (Js.trim (bandNotes p))) created).
Proof.
  intros (Hnd & Hsel & Hnew) H. apply handleSaveTechlist_completed in H.
  destruct H as (_ & _ & _ & _ & Htl & _).
  destruct (Js.truthy (selectedTechlistId p)) eqn:Et.
  - specialize (Hsel eq_refl). apply in_map_iff in Hsel. destruct Hsel as [t [Hid Hin]].
    exists (tl_created_at t). rewrite Htl.
    rewrite (filter_map_single (savedTechlistId p s) _ (techlists s) t); trivial.
    + rewrite Hid, String.eqb_refl. reflexivity.
    + intros x. now destruct (String.eqb (tl_id x) (savedTechlistId p s)).
  - destruct (Hnew eq_refl) as [Hfresh _]. exists (Some (db_now s)).
    assert (Eid : savedTechlistId p s = uuid s (next_uuid s)).
    { unfold savedTechlistId. unfold Js.truthy in Et.
      destruct (selectedTechlistId p) as [tid|]; [|reflexivity].
      unfold Js.truthy. now rewrite Et. }
    rewrite Htl, filter_app. cbn [filter tl_id]. rewrite String.eqb_refl.
    rewrite filter_none; [reflexivity|].
    intros t Ht. apply String.eqb_neq. intros E. apply Hfresh.
    rewrite <- Eid, <- E. now apply in_map.
Qed.

(** X11: a saved techlist loads back as it was saved.  After a save that
    ran to its end, on a store whose techlists are keyed apart and a
    catalog without duplicate ids, [loadTechlist] of the saved techlist
    fills the form with the trimmed name and notes, selects exactly the
    channels that were saved, in catalog order, and gives every one of them
    the details that were typed, the label replaced by the channel name
    where it was left blank; saving that form again would store the same
    channels. *)
Theorem techlist_save_then_load (p p' : TechPage) (s s' : Store) (flags : bool) :
  NoDup (map ch_id (t_channels p)) ->
  techlist_keys_ok p s ->
  handleSaveTechlist p s = (Completed, p', s') ->
  selectedTechlistId p' = Some (savedTechlistId p s)
  /\ bandName (TechListPage.form
                 (TechListPage.loadTechlist (savedTechlistId p s)
                    (TechListPage.mkState p' flags flags) s'))
     = Js.trim (bandName p)
  /\ bandNotes (TechListPage.form
                  (TechListPage.loadTechlist (savedTechlistId p s)
                     (TechListPage.mkState p' flags flags) s'))
     = Js.trim (bandNotes p)
  /\ selectedChannelIds (TechListPage.form
                           (TechListPage.loadTechlist (savedTechlistId p s)
                              (TechListPage.mkState p' flags flags) s'))
     = map ch_id (selectedChannelsSorted p)
  /\ selectedChannelsSorted (TechListPage.form
                               (TechListPage.loadTechlist (savedTechlistId p s)
                                  (TechListPage.mkState p' flags flags) s'))
     = selectedChannelsSorted p
  /\ forall ch, In ch (selectedChannelsSorted p) ->
                TechListPage.detailsOf
                  (TechListPage.form
                     (TechListPage.loadTechlist (savedTechlistId p s)
                        (TechListPage.mkState p' flags flags) s')) ch
                = storedDetails p ch.
Proof.
  intros Hcat Hkeys Hsave.
  destruct (saved_techlist_single p p' s s' Hkeys Hsave) as [created Hsingle].
  destruct (saved_rows_selected p p' s s' Hsave) as [s2 Hrows].
  destruct (handleSaveTechlist_completed p p' s s' Hsave) as (_ & Hid & Hc & Hch & _).
  pose proof (selectedChannelsSorted_keys p Hcat) as Hnd.
  assert (Hids : map tc_canonical_channel_id (techlistRows p (savedTechlistId p s) s2)
                 = map ch_id (selectedChannelsSorted p)).
  { pose proof (f_equal (map fst) (techlistRows_channels p (savedTechlistId p s) s2)) as E.
    now rewrite !map_map in E. }
  split; [exact Hid|].
  unfold TechListPage.loadTechlist.
  cbn [TechListPage.form bandName bandNotes selectedChannelIds].
  rewrite Hsingle, Hrows, Hids. cbn [tl_name tl_notes].
  split; [reflexivity|]. split; [apply or_empty_or_null|].
  assert (Hsel : fold_left (fun set x => Js.set_add x set)
                           (map ch_id (selectedChannelsSorted p)) []
                 = map ch_id (selectedChannelsSorted p)).
  { now rewrite add_all_NoDup. }
  split; [exact Hsel|]. split.
  - unfold selectedChannelsSorted at 1. cbn [t_categories t_channels selectedChannelIds].
    rewrite Hsel, Hc, Hch. unfold selectedChannelsSorted.
    apply filter_ext_in. intros ch Hin.
    destruct (Js.set_has (ch_id ch) (selectedChannelIds p)) eqn:E.
    + apply set_has_In, in_map, filter_In. now split.
    + apply set_has_false. intros H. apply in_map_iff in H.
      destruct H as [ch' [Eid H]]. apply filter_In in H. destruct H as [_ H].
      rewrite Eid in H. congruence.
  - intros ch Hin. unfold TechListPage.detailsOf at 1. cbn [channelDetails].
    unfold Js.map_set.
    rewrite (fold_prepend
               (fun row => (tc_canonical_channel_id row,
                            mkDetails (TechListPage.or_empty (tc_label row))
                                      (TechListPage.or_empty (tc_mic_or_di row))
                                      (TechListPage.or_empty (tc_stand row))
                                      (TechListPage.or_empty (tc_notes row))))).
    rewrite app_nil_r, techlistRows_channels.
    rewrite (map_get_In (ch_id ch) (storedDetails p ch)); [reflexivity | |].
    + rewrite <- map_rev, map_map. cbn [fst]. rewrite map_rev.
      apply NoDup_rev. exact Hnd.
    + apply -> in_rev. apply in_map_iff. now exists ch.
Qed.

Lemma techlist_save_then_load_witness :
  bandName (TechListPage.form
              (TechListPage.loadTechlist "#"
                 (TechListPage.mkState (snd (fst (handleSaveTechlist detailed_page empty_store)))
                                       false false)
                 (snd (handleSaveTechlist detailed_page empty_store))))
  = "Opener".
Proof.
  apply (techlist_save_then_load detailed_page
           (snd (fst (handleSaveTechlist detailed_page empty_store)))
           empty_store (snd (handleSaveTechlist detailed_page empty_store)) false).
  - simpl. nodup_strings.
  - unfold techlist_keys_ok. simpl. split; [constructor|].
    split; [discriminate | intros _; split; intros []].
  - vm_compute. reflexivity.
Defined.

(** ** Deleting a techlist *)

Lemma filter_negb_all {A : Type} (f : A -> bool) (l : list A) :
  (forall x, In x l -> f x = false) -> filter (fun x => negb (f x)) l = l.
Proof.
  intros H. apply filter_all. intros x Hx. now rewrite (H x Hx).
Qed.

Lemma filter_negb_none {A : Type} (f : A -> bool) (l : list A) :
  (forall x, In x l -> f x = true) -> filter (fun x => negb (f x)) l = [].
Proof.
  intros H. apply filter_none. intros x Hx. now rewrite (H x Hx).
Qed.

(** X12: creating a techlist and deleting it again leaves the tables as
    they were.  After a save that created a techlist under a key that was
    not in use, [handleDeleteTechlist], once confirmed, removes the
    techlist and its channel rows and nothing else: the techlists and their
    channels are the ones stored before the save, and the form is empty
    again.  Without the confirmation nothing is changed. *)
Theorem techlist_create_then_delete (p p' : TechPage) (s s' : Store) (flags : bool) :
  Js.truthy (selectedTechlistId p) = false ->
  uuid s (next_uuid s) <> "" ->
  techlist_keys_ok p s ->
  handleSaveTechlist p s = (Completed, p', s') ->
  techlists (snd (TechListPage.handleDeleteTechlist true
                    (TechListPage.mkState p' flags flags) s'))
  = techlists s
  /\ techlist_channels (snd (TechListPage.handleDeleteTechlist true
                               (TechListPage.mkState p' flags flags) s'))
     = techlist_channels s
  /\ (let f := TechListPage.form
                 (fst (TechListPage.handleDeleteTechlist true
                         (TechListPage.mkState p' flags flags) s')) in
      selectedTechlistId f = None /\ bandName f = "" /\ bandNotes f = ""
      /\ selectedChannelIds f = [] /\ channelDetails f = [])
  /\ TechListPage.handleDeleteTechlist false (TechListPage.mkState p' flags flags) s'
     = (TechListPage.mkState p' flags flags, s').
Proof.
  intros Hnew Hkey (Hnd & _ & Hfresh) Hsave.
  destruct (Hfresh Hnew) as [Hf1 Hf2].
  destruct (handleSaveTechlist_completed p p' s s' Hsave) as (_ & Hid & _ & _ & Htl & s2 & Hch).
  rewrite Hnew in Htl.
  assert (Eid : savedTechlistId p s = uuid s (next_uuid s)).
  { unfold savedTechlistId. destruct (selectedTechlistId p) as [tid|]; [|reflexivity].
    now rewrite Hnew. }
  rewrite Eid in *.
  assert (Ht : Js.truthy (Some (uuid s (next_uuid s))) = true).
  { unfold Js.truthy. now apply negb_true_iff, String.eqb_neq. }
  unfold TechListPage.handleDeleteTechlist. cbn [TechListPage.form]. rewrite Hid, Ht.
  cbn [andb fst snd techlists techlist_channels with_techlists with_techlist_channels
       TechListPage.form selectedTechlistId bandName bandNotes selectedChannelIds
       channelDetails].
  repeat split.
  - rewrite Htl, filter_app. cbn [filter tl_id]. rewrite String.eqb_refl. cbn [negb].
    rewrite app_nil_r. apply filter_negb_all.
    intros t Hin. apply String.eqb_neq. intros E. apply Hf1. rewrite <- E. now apply in_map.
  - rewrite Hch, filter_app.
    rewrite (filter_negb_none _ (techlistRows p (uuid s (next_uuid s)) s2)).
    + rewrite app_nil_r.
      rewrite (filter_negb_all _ (techlist_channels s)).
      * apply filter_negb_all.
        intros r Hin. apply String.eqb_neq. intros E. apply Hf2. rewrite <- E.
        now apply in_map.
      * intros r Hin. apply String.eqb_neq. intros E. apply Hf2. rewrite <- E.
        now apply in_map.
    + intros r Hr. apply techlistRows_techlist in Hr. rewrite Hr. apply String.eqb_refl.
Qed.

Lemma techlist_create_then_delete_witness :
  techlist_channels
    (snd (TechListPage.handleDeleteTechlist true
            (TechListPage.mkState (snd (fst (handleSaveTechlist detailed_page empty_store)))
                                  false false)
            (snd (handleSaveTechlist detailed_page empty_store))))
  = [].
Proof.
  apply (techlist_create_then_delete detailed_page
           (snd (fst (handleSaveTechlist detailed_page empty_store)))
           empty_store (snd (handleSaveTechlist detailed_page empty_store)) false).
  - reflexivity.
  - discriminate.
  - unfold techlist_keys_ok. simpl. split; [constructor|].
    split; [discriminate | intros _; split; intros []].
  - vm_compute. reflexivity.
Defined.

(** ** The exports of the techlist page *)

Lemma string_app_assoc (a b c : string) : ((a ++ b) ++ c)%string = (a ++ b ++ c)%string.
Proof. induction a as [|ch a IH]; cbn; [reflexivity | now rewrite IH]. Qed.

Lemma string_app_nil_r (a : string) : (a ++ "")%string = a.
Proof. induction a as [|ch a IH]; cbn; [reflexivity | now rewrite IH]. Qed.

Lemma csv_run_quoted (v field : string) (record : list string)
  (records : list (list string)) (rest : string) :
  csv_run InQuoted field record records
          (TechListPage.double_quotes v ++ String TechListPage.dquote rest)
  = csv_run AfterQuote (field ++ v) record records rest.
Proof.
  revert field. induction v as [|ch v IH]; intros field.
  - cbn. now rewrite string_app_nil_r.
  - cbn [TechListPage.double_quotes]. destruct (Ascii.eqb ch TechListPage.dquote) eqn:E.
    + apply Ascii.eqb_eq in E. subst ch. cbn. rewrite IH.
      now rewrite string_app_assoc.
    + cbn [String.append csv_run]. rewrite E, IH. now rewrite string_app_assoc.
Qed.

Lemma csv_run_esc (v : string) (record : list string) (records : list (list string))
  (rest : string) :
  csv_run AtStart "" record records (TechListPage.esc v ++ rest)
  = csv_run AfterQuote v record records rest.
Proof.
  unfold TechListPage.esc. cbn [String.append]. rewrite string_app_assoc.
  cbn [String.append]. cbn [csv_run].
  replace (Ascii.eqb TechListPage.dquote TechListPage.semicolon) with false by reflexivity.
  replace (Ascii.eqb TechListPage.dquote TechListPage.newline) with false by reflexivity.
  rewrite Ascii.eqb_refl. now rewrite csv_run_quoted.
Qed.

Lemma csv_run_plain (d field : string) (record : list string)
  (records : list (list string)) (rest : string) (mode : CsvMode) :
  is_plain d = true -> mode = AtStart \/ mode = InPlain ->
  csv_run mode field record records (d ++ rest)
  = match d with
    | EmptyString => csv_run mode field record records rest
    | String _ _ => csv_run InPlain (field ++ d) record records rest
    end.
Proof.
  revert field mode. induction d as [|ch d IH]; intros field mode Hp Hm; [reflexivity|].
  cbn [is_plain] in Hp. apply andb_prop in Hp. destruct Hp as [Hp Hd].
  apply andb_prop in Hp. destruct Hp as [Hp Hn]. apply andb_prop in Hp.
  destruct Hp as [Hq Hs]. apply negb_true_iff in Hq, Hs, Hn.
  cbn [String.append].
  assert (Hstep : csv_run mode field record records (String ch (d ++ rest))
                  = csv_run InPlain (field ++ String ch EmptyString) record records
                            (d ++ rest)).
  { destruct Hm as [-> | ->]; cbn [csv_run]; now rewrite Hs, Hn, ?Hq. }
  rewrite Hstep, (IH _ InPlain Hd (or_intror eq_refl)).
  destruct d; rewrite ?string_app_nil_r; [reflexivity|].
  now rewrite string_app_assoc.
Qed.

Lemma digits_plain (d : Decimal.uint) : is_plain (NilEmpty.string_of_uint d) = true.
Proof. induction d; cbn; trivial. Qed.

Lemma decimal_plain (n : nat) : is_plain (TechListPage.decimal n) = true.
Proof. apply digits_plain. Qed.

Lemma csv_run_header (records : list (list string)) (rest : string) :
  csv_run AtStart "" [] records (TechListPage.header ++ rest)
  = csv_run InPlain "Notes" ["Channel"; "Name"; "Mic/DI"; "Stand"] records rest.
Proof. reflexivity. Qed.

(** One line of the download, read from the start of a record. *)
Lemma csv_run_line (n a b c d : string) (records : list (list string)) (rest : string) :
  is_plain n = true ->
  csv_run AtStart "" [] records
    ((n ++ ";" ++ TechListPage.esc a ++ ";" ++ TechListPage.esc b ++ ";"
      ++ TechListPage.esc c ++ ";" ++ TechListPage.esc d) ++ rest)
  = csv_run AfterQuote d [n; a; b; c] records rest.
Proof.
  intros Hn. rewrite !string_app_assoc.
  rewrite (csv_run_plain n "" [] records _ AtStart Hn (or_introl eq_refl)).
  assert (Hfirst : csv_run (match n with EmptyString => AtStart | String _ _ => InPlain end)
                           n [] records
                           (";" ++ TechListPage.esc a ++ ";" ++ TechListPage.esc b ++ ";"
                            ++ TechListPage.esc c ++ ";" ++ TechListPage.esc d ++ rest)
                   = csv_run AfterQuote d [n; a; b; c] records rest).
  { assert (Hsep : forall m f r t, m <> InQuoted ->
                     csv_run m f r records (String ";" t) = csv_run AtStart "" (r ++ [f]) records t).
    { intros m f r t Hm. destruct m; try contradiction; reflexivity. }
    cbn [String.append].
    rewrite Hsep by (destruct n; discriminate). cbn [app].
    rewrite csv_run_esc. cbn [String.append]. rewrite Hsep by discriminate. cbn [app].
    rewrite csv_run_esc. cbn [String.append]. rewrite Hsep by discriminate. cbn [app].
    rewrite csv_run_esc. cbn [String.append]. rewrite Hsep by discriminate. cbn [app].
    now rewrite csv_run_esc. }
  destruct n; exact Hfirst.
Qed.

Lemma join_cons_mapi {A : Type} (f : A -> nat -> string) (sep x : string) (j : nat)
  (y : A) (l : list A) :
  Arr.join sep (x :: Js.mapi_from f j (y :: l))
  = (x ++ sep ++ Arr.join sep (Js.mapi_from f j (y :: l)))%string.
Proof. reflexivity. Qed.

Lemma mapi_from_cons {A B : Type} (f : A -> nat -> B) (i : nat) (x : A) (l : list A) :
  Js.mapi_from f i (x :: l) = f x i :: Js.mapi_from f (S i) l.
Proof. reflexivity. Qed.

Lemma csv_run_lines (p : TechPage) (l : list CanonicalChannel) (ch : CanonicalChannel)
  (i : nat) (records : list (list string)) :
  csv_run AtStart "" [] records
    (Arr.join (String TechListPage.newline EmptyString)
       (Js.mapi_from
          (fun ch idx =>
             (TechListPage.decimal (idx + 1) ++ ";"
              ++ TechListPage.esc (or_else (d_label (TechListPage.detailsOf p ch)) (ch_name ch))
              ++ ";" ++ TechListPage.esc (d_mic_or_di (TechListPage.detailsOf p ch)) ++ ";"
              ++ TechListPage.esc (d_stand (TechListPage.detailsOf p ch)) ++ ";"
              ++ TechListPage.esc (d_notes (TechListPage.detailsOf p ch)))%string)
          i (ch :: l)))
  = Some (records ++ Js.mapi_from (exportedRecord p) i (ch :: l)).
Proof.
  revert ch i records. induction l as [|ch' l IH]; intros ch i records.
  - rewrite !mapi_from_cons. cbn [Js.mapi_from Arr.join].
    rewrite <- (string_app_nil_r (_ ++ _)%string).
    rewrite csv_run_line by apply decimal_plain. reflexivity.
  - rewrite (mapi_from_cons _ i ch), (mapi_from_cons (exportedRecord p) i ch).
    rewrite join_cons_mapi.
    rewrite csv_run_line by apply decimal_plain.
    cbn [String.append csv_run].
    replace (Ascii.eqb TechListPage.newline TechListPage.semicolon) with false by reflexivity.
    rewrite Ascii.eqb_refl. rewrite IH. now rewrite <- app_assoc.
Qed.

(** X13: the CSV file of [downloadCsv] reads back as the table that was
    exported, whatever the details contain.  Read as a semicolon-separated
    file with quoted fields, the content is the header followed by one
    record per selected channel in catalog order, each with the row number,
    the label (the channel name when the label is blank), microphone, stand
    and notes exactly as typed: quotes, semicolons and line feeds inside a
    field do not break the columns.  The file is named after the band, or
    kanalenlijst.csv when the name is empty. *)
Theorem csv_download_reads_back (p : TechPage) :
  csv_read (snd (TechListPage.downloadCsv p)) = Some (exportedTable p)
  /\ fst (TechListPage.downloadCsv p)
     = (if String.eqb (bandName p) "" then "kanalenlijst.csv"
        else bandName p ++ ".csv")%string.
Proof.
  split.
  - unfold TechListPage.downloadCsv, csv_read, exportedTable, TechListPage.csvLines, Js.mapi.
    cbn [snd]. destruct (selectedChannelsSorted p) as [|ch l].
    + reflexivity.
    + cbn [Arr.join Js.mapi_from].
      change (Js.mapi_from ?f 1 l) with (Js.mapi_from f 1 l).
      rewrite csv_run_header. cbn [String.append csv_run].
      replace (Ascii.eqb TechListPage.newline TechListPage.semicolon) with false by reflexivity.
      rewrite Ascii.eqb_refl.
      exact (csv_run_lines p l ch 0 [["Channel"; "Name"; "Mic/DI"; "Stand"; "Notes"]]).
  - unfold TechListPage.downloadCsv, or_else. cbn [fst].
    now destruct (String.eqb (bandName p) "").
Qed.

Lemma csv_plain_sep (d field : string) (record : list string)
  (records : list (list string)) (rest : string) (mode : CsvMode) :
  is_plain d = true -> mode = AtStart \/ mode = InPlain ->
  csv_run mode field record records (d ++ String ";" rest)
  = csv_run AtStart "" (record ++ [(field ++ d)%string]) records rest.
Proof.
  intros Hd Hm. rewrite (csv_run_plain d field record records _ mode Hd Hm).
  destruct d; [|reflexivity]. rewrite string_app_nil_r. now destruct Hm as [-> | ->].
Qed.

Lemma csv_plain_newline (d field : string) (record : list string)
  (records : list (list string)) (rest : string) (mode : CsvMode) :
  is_plain d = true -> mode = AtStart \/ mode = InPlain ->
  csv_run mode field record records (d ++ String TechListPage.newline rest)
  = csv_run AtStart "" [] (records ++ [record ++ [(field ++ d)%string]]) rest.
Proof.
  intros Hd Hm. rewrite (csv_run_plain d field record records _ mode Hd Hm).
  destruct d; [|reflexivity]. rewrite string_app_nil_r. now destruct Hm as [-> | ->].
Qed.

Lemma csv_plain_end (d field : string) (record : list string)
  (records : list (list string)) (mode : CsvMode) :
  is_plain d = true -> mode = AtStart \/ mode = InPlain ->
  csv_run mode field record records d = Some (records ++ [record ++ [(field ++ d)%string]]).
Proof.
  intros Hd Hm. rewrite <- (string_app_nil_r d) at 1.
  rewrite (csv_run_plain d field record records _ mode Hd Hm).
  destruct d; [|reflexivity]. rewrite string_app_nil_r. now destruct Hm as [-> | ->].
Qed.

Lemma csv_plain_lines (p : TechPage) (l : list CanonicalChannel) (ch : CanonicalChannel)
  (i : nat) (records : list (list string)) :
  (forall x, In x (ch :: l) ->
             is_plain (d_label (storedDetails p x)) = true
             /\ is_plain (d_mic_or_di (storedDetails p x)) = true
             /\ is_plain (d_stand (storedDetails p x)) = true
             /\ is_plain (d_notes (storedDetails p x)) = true) ->
  csv_run AtStart "" [] records
    (Arr.join (String TechListPage.newline EmptyString)
       (Js.mapi_from
          (fun ch idx =>
             (TechListPage.decimal (idx + 1) ++ ";"
              ++ or_else (d_label (TechListPage.detailsOf p ch)) (ch_name ch) ++ ";"
              ++ d_mic_or_di (TechListPage.detailsOf p ch) ++ ";"
              ++ d_stand (TechListPage.detailsOf p ch) ++ ";"
              ++ d_notes (TechListPage.detailsOf p ch))%string)
          i (ch :: l)))
  = Some (records ++ Js.mapi_from (exportedRecord p) i (ch :: l)).
Proof.
  revert ch i records. induction l as [|ch' l IH]; intros ch i records Hp.
  - destruct (Hp ch (or_introl eq_refl)) as (H1 & H2 & H3 & H4).
    cbn [storedDetails d_label d_mic_or_di d_stand d_notes] in H1, H2, H3, H4.
    rewrite !mapi_from_cons. cbn [Js.mapi_from Arr.join String.append].
    rewrite (csv_plain_sep _ "" [] records _ AtStart (decimal_plain _) (or_introl eq_refl)).
    rewrite (csv_plain_sep _ "" _ records _ AtStart H1 (or_introl eq_refl)).
    rewrite (csv_plain_sep _ "" _ records _ AtStart H2 (or_introl eq_refl)).
    rewrite (csv_plain_sep _ "" _ records _ AtStart H3 (or_introl eq_refl)).
    rewrite (csv_plain_end _ "" _ records AtStart H4 (or_introl eq_refl)).
    reflexivity.
  - destruct (Hp ch (or_introl eq_refl)) as (H1 & H2 & H3 & H4).
    cbn [storedDetails d_label d_mic_or_di d_stand d_notes] in H1, H2, H3, H4.
    rewrite (mapi_from_cons _ i ch), (mapi_from_cons (exportedRecord p) i ch).
    rewrite join_cons_mapi. rewrite !string_app_assoc. cbn [String.append].
    rewrite (csv_plain_sep _ "" [] records _ AtStart (decimal_plain _) (or_introl eq_refl)).
    rewrite (csv_plain_sep _ "" _ records _ AtStart H1 (or_introl eq_refl)).
    rewrite (csv_plain_sep _ "" _ records _ AtStart H2 (or_introl eq_refl)).
    rewrite (csv_plain_sep _ "" _ records _ AtStart H3 (or_introl eq_refl)).
    rewrite (csv_plain_newline _ "" _ records _ AtStart H4 (or_introl eq_refl)).
    rewrite IH by (intros x Hx; apply Hp; now right). now rewrite <- app_assoc.
Qed.

(** X14: the text of [copyToClipboard] reads back as the exported table
    only for plain details.  The clipboard text is not quoted: when no
    label, microphone, stand or notes of a selected channel contains a
    double quote, a semicolon or a line feed, the text read as a
    semicolon-separated file is the table exported; the handler reports
    the copy, or its failure when the clipboard refuses the text. *)
Theorem clipboard_reads_back (p : TechPage) :
  plain_details p ->
  (exists text, snd (TechListPage.copyToClipboard true p) = Some text
                /\ csv_read text = Some (exportedTable p))
  /\ copyMessage (fst (TechListPage.copyToClipboard true p))
     = Some "Gekopieerd naar klembord."
  /\ snd (TechListPage.copyToClipboard false p) = None
  /\ copyMessage (fst (TechListPage.copyToClipboard false p)) = Some "Kopiëren mislukt.".
Proof.
  intros Hp. split; [|repeat split].
  unfold TechListPage.copyToClipboard. cbn [snd]. eexists. split; [reflexivity|].
  unfold csv_read, exportedTable, TechListPage.clipboardLines, Js.mapi.
  unfold plain_details in Hp.
  destruct (selectedChannelsSorted p) as [|ch l].
  - reflexivity.
  - rewrite join_cons_mapi. rewrite csv_run_header. cbn [String.append csv_run].
    replace (Ascii.eqb TechListPage.newline TechListPage.semicolon) with false by reflexivity.
    rewrite Ascii.eqb_refl.
    exact (csv_plain_lines p l ch 0 [["Channel"; "Name"; "Mic/DI"; "Stand"; "Notes"]] Hp).
Qed.

Lemma clipboard_reads_back_witness :
  exists text, snd (TechListPage.copyToClipboard true detailed_page) = Some text
               /\ csv_read text = Some (exportedTable detailed_page).
Proof.
  apply (clipboard_reads_back detailed_page).
  intros ch Hch. vm_compute in Hch.
  destruct Hch as [<- | [<- | []]]; vm_compute; repeat split.
Defined.

(** * The matrix page *)







(** ** Editing the label of a cell *)

Lemma trimStart_unfold (s : string) :
  Js.trimStart s = match strip_space s with
                   | Some r => Js.trimStart r
                   | None => s
                   end.
Proof.
  destruct s as [|c1 [|c2 [|c3 s3]]]; cbn [Js.trimStart strip_space]; trivial.
  - now destruct (Js.is_space c1).
  - destruct (Js.is_space c1); [reflexivity|]. now destruct (Js.is_space2 c1 c2).
  - destruct (Js.is_space c1); [reflexivity|].
    destruct (Js.is_space2 c1 c2); [reflexivity|]. now destruct (Js.is_space3 c1 c2 c3).
Qed.

Lemma strip_space_shorter (s r : string) :
  strip_space s = Some r -> (String.length r < String.length s)%nat.
Proof.
  destruct s as [|c1 [|c2 [|c3 s3]]]; cbn [strip_space String.length];
    repeat match goal with
           | |- context [if ?b then _ else _] => destruct b
           end;
    intros H; try discriminate; injection H as <-; cbn [String.length]; lia.
Qed.

Lemma strip_space_app (a r b : string) :
  strip_space a = Some r -> strip_space (a ++ b) = Some (r ++ b)%string.
Proof.
  destruct a as [|c1 [|c2 [|c3 s3]]]; cbn [strip_space String.append];
    repeat match goal with
           | |- context [if ?b then _ else _] => destruct b
           end;
    intros H; try discriminate; injection H as <-; reflexivity.
Qed.

Lemma trimStart_stripped (s : string) : strip_space (Js.trimStart s) = None.
Proof.
  remember (String.length s) as n eqn:Hn. revert s Hn.
  induction n as [n IH] using lt_wf_ind. intros s ->.
  rewrite trimStart_unfold. destruct (strip_space s) as [r|] eqn:E; [|exact E].
  apply (IH (String.length r)); [now apply strip_space_shorter | reflexivity].
Qed.

Lemma trimStart_fixed (s : string) : strip_space s = None -> Js.trimStart s = s.
Proof. intros H. now rewrite trimStart_unfold, H. Qed.

(** White space in front of a string disappears with it. *)
Lemma trimStart_app_space (a b : string) :
  Js.trimStart a = "" -> Js.trimStart (a ++ b) = Js.trimStart b.
Proof.
  remember (String.length a) as n eqn:Hn. revert a Hn.
  induction n as [n IH] using lt_wf_ind. intros a -> Ha.
  rewrite trimStart_unfold in Ha. destruct (strip_space a) as [r|] eqn:E.
  - rewrite (trimStart_unfold (a ++ b)), (strip_space_app a r b E).
    apply (IH (String.length r)); [now apply strip_space_shorter | reflexivity | exact Ha].
  - now subst a.
Qed.

Lemma trimEnd_split (s : string) :
  exists w, s = (Js.trimEnd s ++ w)%string /\ Js.trimStart w = "".
Proof.
  induction s as [|c s IH]; [now exists ""|].
  cbn [Js.trimEnd]. destruct (String.eqb_spec (Js.trimStart (String c s)) "") as [E | NE].
  - now exists (String c s).
  - destruct IH as [w [Hs Hw]]. exists w. split; [|exact Hw].
    cbn [String.append]. now rewrite <- Hs.
Qed.

Lemma trimEnd_idempotent (s : string) : Js.trimEnd (Js.trimEnd s) = Js.trimEnd s.
Proof.
  induction s as [|c s IH]; [reflexivity|].
  cbn [Js.trimEnd]. destruct (String.eqb_spec (Js.trimStart (String c s)) "") as [E | NE];
    [reflexivity|].
  cbn [Js.trimEnd].
  destruct (String.eqb_spec (Js.trimStart (String c (Js.trimEnd s))) "") as [E' | _].
  - exfalso. apply NE. destruct (trimEnd_split s) as [w [Hs Hw]].
    rewrite Hs at 1. change (String c (Js.trimEnd s ++ w))
      with (String c (Js.trimEnd s) ++ w)%string.
    now rewrite (trimStart_app_space _ w E').
  - now rewrite IH.
Qed.

Lemma trimEnd_stripped (s : string) :
  strip_space s = None -> strip_space (Js.trimEnd s) = None.
Proof.
  intros H. destruct (strip_space (Js.trimEnd s)) as [r|] eqn:E; [|reflexivity].
  destruct (trimEnd_split s) as [w [Hs _]].
  apply (strip_space_app _ _ w) in E. rewrite <- Hs in E. congruence.
Qed.

Lemma trim_idempotent (s : string) : Js.trim (Js.trim s) = Js.trim s.
Proof.
  unfold Js.trim.
  rewrite (trimStart_fixed (Js.trimEnd (Js.trimStart s)))
    by (apply trimEnd_stripped, trimStart_stripped).
  apply trimEnd_idempotent.
Qed.

Lemma find_update {A : Type} (f : A -> bool) (g : A -> A) (old : A) (l : list A) :
  (forall u, f u = true -> f (g u) = true) ->
  find f l = Some old ->
  find f (map (fun u => if f u then g u else u) l) = Some (g old).
Proof.
  intros Hg. induction l as [|x l IH]; [discriminate|].
  cbn [find map]. destruct (f x) eqn:E.
  - intros H. injection H as <-. now rewrite (Hg x E).
  - rewrite E. exact IH.
Qed.

Lemma filter_update {A : Type} (f : A -> bool) (g : A -> A) (l : list A) :
  (forall u, f u = true -> f (g u) = true) ->
  filter (fun u => negb (f u)) (map (fun u => if f u then g u else u) l)
  = filter (fun u => negb (f u)) l.
Proof.
  intros Hg. induction l as [|x l IH]; [reflexivity|].
  cbn [filter map]. destruct (f x) eqn:E.
  - rewrite (Hg x E). cbn [negb]. exact IH.
  - rewrite E. cbn [negb]. now rewrite IH.
Qed.

Lemma handleLabelBlur_step (bandId patchChannelId : string) (draftOverride : option string)
  (p : MatrixPage.State) (s : Store) (usage : BandChannelUsage) :
  Js.map_get (usageKey bandId patchChannelId) (m_usageMap (MatrixPage.grid p)) = Some usage ->
  is_used usage = true ->
  cell_in_step (MatrixPage.grid p) s bandId patchChannelId ->
  exists row,
    Js.map_get (usageKey bandId patchChannelId)
      (m_usageMap (MatrixPage.grid
                     (fst (MatrixPage.handleLabelBlur bandId patchChannelId
                             (usageKey bandId patchChannelId) draftOverride p s))))
    = Some row
    /\ stored_usage (snd (MatrixPage.handleLabelBlur bandId patchChannelId
                            (usageKey bandId patchChannelId) draftOverride p s))
                    bandId patchChannelId
       = Some row
    /\ TechListPage.or_empty (label row)
       = labelDraft draftOverride p (usageKey bandId patchChannelId) usage
    /\ is_used row = true /\ us_id row = us_id usage
    /\ other_cells (snd (MatrixPage.handleLabelBlur bandId patchChannelId
                           (usageKey bandId patchChannelId) draftOverride p s))
                   bandId patchChannelId
       = other_cells s bandId patchChannelId
    /\ MatrixPage.labelDrafts
         (fst (MatrixPage.handleLabelBlur bandId patchChannelId
                 (usageKey bandId patchChannelId) draftOverride p s))
       = MatrixPage.labelDrafts p
    /\ m_editingCellKey
         (MatrixPage.grid
            (fst (MatrixPage.handleLabelBlur bandId patchChannelId
                    (usageKey bandId patchChannelId) draftOverride p s)))
       = None.
Proof.
  intros Hget Hused Hcell. unfold cell_in_step in Hcell. rewrite Hget in Hcell.
  unfold MatrixPage.handleLabelBlur. rewrite Hget, Hused. cbn [negb].
  fold (labelDraft draftOverride p (usageKey bandId patchChannelId) usage).
  set (draft := labelDraft draftOverride p (usageKey bandId patchChannelId) usage).
  destruct (String.eqb_spec (TechListPage.or_empty (label usage)) draft) as [E | NE].
  - exists usage. cbn [fst snd MatrixPage.grid MatrixPage.setGrid m_usageMap
                       MatrixPage.setEditingCellKey MatrixPage.labelDrafts m_editingCellKey].
    split; [exact Hget|]. split; [now symmetry|]. now repeat split.
  - eexists. cbn [fst snd MatrixPage.grid MatrixPage.setGrid m_usageMap
                  MatrixPage.labelDrafts m_editingCellKey].
    split; [|split; [|split; [|split; [|split; [|split; [|split]]]]]].
    + unfold Js.map_set. cbn [Js.map_get]. rewrite String.eqb_refl. reflexivity.
    + unfold stored_usage, MatrixPage.update_label. cbn [band_channel_usage with_usage].
      symmetry in Hcell. unfold stored_usage in Hcell.
      rewrite (find_update
                 (fun u => (String.eqb (us_band_id u) bandId
                            && String.eqb (us_patch_channel_id u) patchChannelId)%bool)
                 (fun u => mkUsage (us_id u) (us_band_id u) (us_patch_channel_id u)
                                   (is_used u)
                                   (if String.eqb draft "" then None else Some draft))
                 usage); [now rewrite Hused | trivial | trivial].
    + cbn [label]. destruct (String.eqb_spec draft "") as [-> | _]; reflexivity.
    + reflexivity.
    + reflexivity.
    + unfold other_cells, MatrixPage.update_label. cbn [band_channel_usage with_usage].
      apply (filter_update
               (fun u => (String.eqb (us_band_id u) bandId
                          && String.eqb (us_patch_channel_id u) patchChannelId)%bool)).
      trivial.
    + reflexivity.
    + reflexivity.
Qed.

(** X16: [handleLabelBlur] stores the trimmed draft as the label of a used
    cell and is idempotent.  For a cell that is marked used, on a page that
    agrees with the store on it, the blur leaves one row for the cell, on
    the page and in the store alike, whose label is the trimmed draft (no
    label for a blank draft), with its key and its usage flag unchanged;
    the rows of the other cells are untouched, the cell is no longer being
    edited, and a second blur with the same draft changes neither the
    store nor the usage map. *)
Theorem label_blur_saves_draft (bandId patchChannelId : string)
  (draftOverride : option string) (p : MatrixPage.State) (s : Store)
  (usage : BandChannelUsage) :
  Js.map_get (usageKey bandId patchChannelId) (m_usageMap (MatrixPage.grid p)) = Some usage ->
  is_used usage = true ->
  cell_in_step (MatrixPage.grid p) s bandId patchChannelId ->
  (exists row,
      Js.map_get (usageKey bandId patchChannelId)
        (m_usageMap (MatrixPage.grid
                       (fst (MatrixPage.handleLabelBlur bandId patchChannelId
                               (usageKey bandId patchChannelId) draftOverride p s))))
      = Some row
      /\ stored_usage (snd (MatrixPage.handleLabelBlur bandId patchChannelId
                              (usageKey bandId patchChannelId) draftOverride p s))
                      bandId patchChannelId
         = Some row
      /\ TechListPage.or_empty (label row)
         = labelDraft draftOverride p (usageKey bandId patchChannelId) usage
      /\ is_used row = true /\ us_id row = us_id usage)
  /\ other_cells (snd (MatrixPage.handleLabelBlur bandId patchChannelId
                         (usageKey bandId patchChannelId) draftOverride p s))
                 bandId patchChannelId
     = other_cells s bandId patchChannelId
  /\ m_editingCellKey
       (MatrixPage.grid
          (fst (MatrixPage.handleLabelBlur bandId patchChannelId
                  (usageKey bandId patchChannelId) draftOverride p s)))
     = None
  /\ snd (MatrixPage.handleLabelBlur bandId patchChannelId
            (usageKey bandId patchChannelId) draftOverride
            (fst (MatrixPage.handleLabelBlur bandId patchChannelId
                    (usageKey bandId patchChannelId) draftOverride p s))
            (snd (MatrixPage.handleLabelBlur bandId patchChannelId
                    (usageKey bandId patchChannelId) draftOverride p s)))
     = snd (MatrixPage.handleLabelBlur bandId patchChannelId
              (usageKey bandId patchChannelId) draftOverride p s)
  /\ m_usageMap
       (MatrixPage.grid
          (fst (MatrixPage.handleLabelBlur bandId patchChannelId
                  (usageKey bandId patchChannelId) draftOverride
                  (fst (MatrixPage.handleLabelBlur bandId patchChannelId
                          (usageKey bandId patchChannelId) draftOverride p s))
                  (snd (MatrixPage.handleLabelBlur bandId patchChannelId
                          (usageKey bandId patchChannelId) draftOverride p s)))))
     = m_usageMap
         (MatrixPage.grid
            (fst (MatrixPage.handleLabelBlur bandId patchChannelId
                    (usageKey bandId patchChannelId) draftOverride p s))).
Proof.
  intros Hget Hused Hcell.
  destruct (handleLabelBlur_step bandId patchChannelId draftOverride p s usage
              Hget Hused Hcell)
    as (row & Hpage & Hstore & Hlabel & Hrused & Hid & Hothers & Hdrafts & Hedit).
  split; [exists row; now repeat split|]. split; [exact Hothers|]. split; [exact Hedit|].
  set (p1 := fst (MatrixPage.handleLabelBlur bandId patchChannelId
                    (usageKey bandId patchChannelId) draftOverride p s)) in *.
  set (s1 := snd (MatrixPage.handleLabelBlur bandId patchChannelId
                    (usageKey bandId patchChannelId) draftOverride p s)) in *.
  assert (Hsame : String.eqb (TechListPage.or_empty (label row))
                    (labelDraft draftOverride p1 (usageKey bandId patchChannelId) row)
                  = true).
  { apply String.eqb_eq. unfold labelDraft in *. rewrite Hdrafts.
    destruct draftOverride as [d|]; [exact Hlabel|].
    destruct (Js.map_get (usageKey bandId patchChannelId) (MatrixPage.labelDrafts p));
      [exact Hlabel|].
    rewrite Hlabel. symmetry. apply trim_idempotent. }
  unfold MatrixPage.handleLabelBlur. rewrite Hpage, Hrused. cbn [negb].
  fold (labelDraft draftOverride p1 (usageKey bandId patchChannelId) row).
  rewrite Hsame. cbn [fst snd MatrixPage.grid MatrixPage.setGrid m_usageMap
                      MatrixPage.setEditingCellKey]. now split.
Qed.

Lemma label_blur_saves_draft_witness :
  exists row,
    stored_usage (snd (MatrixPage.handleLabelBlur "ii#" "#" (usageKey "ii#" "#") None
                         editing_matrix opener_store))
                 "ii#" "#"
    = Some row
    /\ TechListPage.or_empty (label row) = "Kick (D112)".
Proof.
  destruct (label_blur_saves_draft "ii#" "#" None editing_matrix opener_store
              (mkUsage "iii#" "ii#" "#" true (Some "Kick In")))
    as ((row & _ & Hstore & Hlabel & _) & _).
  - reflexivity.
  - reflexivity.
  - reflexivity.
  - exists row. split; [exact Hstore | exact Hlabel].
Defined.

(** ** Creating a band on the matrix page *)











(** * What a band save leaves alone *)

(** The usage rows after the first part of a save: the rows of the band
    saved are replaced, the others are kept. *)
Lemma persisted_usage (isAuto : bool) (snap : Builder) (s : Store)
  (target : string) (nb : option Band) (data : list BandChannelUsage)
  (c2 : Builder) (s4 : Store) :
  persistBand isAuto snap s = Stored target nb data c2 s4 ->
  forall u, us_band_id u <> target ->
            (In u (band_channel_usage s4) <-> In u (band_channel_usage s)).
Proof.
  intros Hp u Hu.
  destruct (persistBand_stored _ _ _ _ _ _ _ _ Hp)
    as (ev & c1 & m & s1 & s2 & Hev & Hname & Hens & Hsave & Husage).
  pose proof (ensurePatchChannels_frame (newBandSelection snap) snap c1 s) as Hf1.
  rewrite Hens in Hf1. cbn in Hf1. destruct Hf1 as (_ & _ & _ & Us1).
  pose proof (saveBand_frame ev snap s1) as Hf2. rewrite Hsave in Hf2.
  cbn in Hf2. destruct Hf2 as (_ & _ & _ & Us2).
  assert (Hclear : In u (band_channel_usage (clearUsage snap s2))
                   <-> In u (band_channel_usage s)).
  { rewrite <- Us1, <- Us2.
    destruct (saveBand_cases ev snap s1 target nb s2 Hsave)
      as [(_ & _ & ->) | (_ & _ & _ & ->)]; [|tauto].
    unfold delete_usage_of_band. cbn [band_channel_usage with_usage].
    rewrite filter_In. split; [tauto|]. intros H. split; [exact H|].
    apply negb_true_iff, String.eqb_neq. exact Hu. }
  destruct Husage as [(_ & _ & ->) | Hins]; [exact Hclear|].
  pose proof (insert_usage_accepted _ _ _ _ Hins) as [Hdata ->].
  cbn [band_channel_usage take_uuids with_usage]. rewrite in_app_iff, Hclear.
  split; [|tauto]. intros [H | H]; [exact H|]. exfalso.
  rewrite Hdata in H. apply mapi_In in H. destruct H as (nu & i & Hnu & ->).
  apply usageRows_In in Hnu. destruct Hnu as (cid & p & _ & _ & ->). now apply Hu.
Qed.


(** X18: a band save leaves the used channels of the other bands alone.
    After [handleAddBand] has run to its end, the usage rows marked used of
    every band other than the one saved are the ones stored before, with
    their labels: the save replaces the rows of its own band, and the
    pruning that follows only deletes rows that are not marked used. *)
Theorem save_keeps_other_bands (isAuto : bool) (snap : Builder) (s : Store)
  (c' : Builder) (s' : Store) (u : BandChannelUsage) :
  handleAddBand isAuto snap s = (Completed, c', s') ->
  us_band_id u <> savedBandId isAuto snap s ->
  is_used u = true ->
  (In u (band_channel_usage s') <-> In u (band_channel_usage s)).
Proof.
  intros Hrun Hband Hused.
  destruct (handleAddBand_completed _ _ _ _ _ Hrun)
    as (ev & target & nb & data & c2 & s4 & Hev & Hpersist & ->).
  unfold savedBandId in Hband. rewrite Hpersist in Hband.
  rewrite (prune_keeps_used (ev_id ev) s4 u Hused).
  now apply (persisted_usage isAuto snap s target nb data c2 s4).
Qed.

Lemma save_keeps_other_bands_witness :
  In (mkUsage "iiiiii#" "iiiii#" "i#" true (Some "Lead Vox"))
     (band_channel_usage
        (snd (handleAddBand false (edit_builder two_band_store "ii#" ["ch-snare"])
                            two_band_store))).
Proof.
  apply (save_keeps_other_bands false (edit_builder two_band_store "ii#" ["ch-snare"])
           two_band_store
           (snd (fst (handleAddBand false (edit_builder two_band_store "ii#" ["ch-snare"])
                                    two_band_store)))
           (snd (handleAddBand false (edit_builder two_band_store "ii#" ["ch-snare"])
                               two_band_store))).
  - vm_compute. reflexivity.
  - vm_compute. discriminate.
  - reflexivity.
  - simpl. tauto.
Defined.

(** * The numbering of the patch channels after a band save *)

Lemma Permutation_filter' {A : Type} (f : A -> bool) (l l' : list A) :
  Permutation l l' -> Permutation (filter f l) (filter f l').
Proof.
  induction 1 as [|x l l' _ IH|x y l|l l' l'' _ IH1 _ IH2]; cbn [filter].
  - constructor.
  - destruct (f x); [now constructor | exact IH].
  - destruct (f x), (f y); try reflexivity. apply perm_swap.
  - now transitivity (filter f l').
Qed.

Lemma filter_comm {A : Type} (f g : A -> bool) (l : list A) :
  filter f (filter g l) = filter g (filter f l).
Proof.
  induction l as [|x l IH]; [reflexivity|]. cbn [filter].
  destruct (f x) eqn:Ef, (g x) eqn:Eg; cbn [filter]; rewrite ?Ef, ?Eg, IH; reflexivity.
Qed.

Lemma one_to_S (n : nat) : one_to (S n) = one_to n ++ [Z.of_nat n + 1].
Proof. unfold one_to. now rewrite seq_S, map_app. Qed.

Lemma one_to_app (n m : nat) :
  one_to (n + m) = one_to n ++ map (fun i => Z.of_nat n + Z.of_nat i + 1) (seq 0 m).
Proof.
  induction m as [|m IH].
  - rewrite Nat.add_0_r. cbn. now rewrite app_nil_r.
  - rewrite Nat.add_succ_r, one_to_S, IH, seq_S, map_app, <- app_assoc. cbn [map Nat.add].
    do 3 f_equal. lia.
Qed.

Lemma one_to_In (n : nat) (x : Z) : In x (one_to n) <-> 1 <= x <= Z.of_nat n.
Proof.
  unfold one_to. rewrite in_map_iff. split.
  - intros [i [<- Hi]]. apply in_seq in Hi. lia.
  - intros H. exists (Z.to_nat (x - 1)). split; [lia|]. apply in_seq. lia.
Qed.

Lemma one_to_max (n : nat) : fold_right Z.max 0 (one_to n) = Z.of_nat n.
Proof.
  induction n as [|n IH]; [reflexivity|].
  rewrite one_to_S.
  rewrite (max_list_perm _ ((Z.of_nat n + 1) :: one_to n))
    by (symmetry; apply Permutation_cons_append).
  cbn [fold_right]. rewrite IH. lia.
Qed.

Lemma one_to_sorted (n : nat) :
  StronglySorted (fun x y => lex_le (numberKey x) (numberKey y)) (one_to n).
Proof.
  unfold one_to. generalize 0%nat.
  induction n as [|n IH]; intros i; cbn [seq map]; constructor.
  - apply IH.
  - apply Forall_forall. intros y Hy. apply in_map_iff in Hy.
    destruct Hy as [j [<- Hj]]. apply in_seq in Hj.
    unfold lex_le, numberKey. cbn. lia.
Qed.

(** A sorted arrangement of the numbers 1, 2, ..., n is the list itself. *)
Lemma sorted_one_to (l : list Z) (n : nat) :
  StronglySorted (fun x y => lex_le (numberKey x) (numberKey y)) l ->
  Permutation l (one_to n) -> l = one_to n.
Proof.
  intros Hs Hp. apply (sorted_perm_unique numberKey); trivial.
  - apply one_to_sorted.
  - intros x y _ _ E. unfold numberKey in E. now injection E.
Qed.

Lemma select_patch_rows_sorted (s : Store) (ev : string) :
  StronglySorted (fun x y => lex_le (numberKey x) (numberKey y))
                 (map pr_channel_number (select_patch_rows s ev)).
Proof.
  apply StronglySorted_map. unfold select_patch_rows.
  apply (sort_sorted _ (fun r => numberKey (pr_channel_number r))).
  intros x y. unfold lex_le, numberKey. cbn. lia.
Qed.

Lemma densely_numbered_perm (s : Store) (ev : string) (n : nat) :
  Permutation (map pr_channel_number (event_rows s ev)) (one_to n) ->
  densely_numbered s ev.
Proof.
  intros Hp. unfold densely_numbered.
  assert (Hsel : Permutation (map pr_channel_number (select_patch_rows s ev)) (one_to n)).
  { rewrite <- Hp. apply Permutation_map. symmetry. apply select_patch_rows_perm. }
  rewrite (sorted_one_to _ n (select_patch_rows_sorted s ev) Hsel).
  f_equal. apply Permutation_length in Hsel.
  rewrite length_map in Hsel. rewrite Hsel. unfold one_to. now rewrite length_map, length_seq.
Qed.

Lemma event_rows_app (s : Store) (ev : string) (extra : list PatchRow) :
  (forall r, In r extra -> pr_event_id r = ev) ->
  filter (fun r => String.eqb (pr_event_id r) ev) (patch_channels s ++ extra)
  = event_rows s ev ++ extra.
Proof.
  intros H. rewrite filter_app. f_equal. apply filter_all.
  intros r Hr. apply String.eqb_eq. now apply H.
Qed.

(** The numbers of the event after the missing patch channels were added. *)
Lemma appended_dense (s : Store) (ev : string) (canonicalIds : list string) :
  densely_numbered s ev ->
  Permutation
    (map pr_channel_number (event_rows s ev ++ appended_rows s ev canonicalIds))
    (one_to (List.length (event_rows s ev)
             + List.length (lacking s ev canonicalIds))).
Proof.
  intros Hd. unfold densely_numbered in Hd.
  assert (Hlen : List.length (select_patch_rows s ev) = List.length (event_rows s ev)).
  { symmetry. apply Permutation_length, select_patch_rows_perm. }
  rewrite Hlen in Hd.
  assert (Hnum : Permutation (map pr_channel_number (event_rows s ev))
                             (one_to (List.length (event_rows s ev)))).
  { rewrite <- Hd. apply Permutation_map, select_patch_rows_perm. }
  assert (Hmax : event_max s ev = Z.of_nat (List.length (event_rows s ev))).
  { unfold event_max. rewrite (max_list_perm _ _ Hnum). apply one_to_max. }
  rewrite map_app, one_to_app. apply Permutation_app; [exact Hnum|].
  unfold appended_rows, Js.mapi. rewrite mapi_from_map. cbn [pr_channel_number].
  rewrite Hmax.
  rewrite (mapi_from_index (fun i => Z.of_nat (List.length (event_rows s ev))
                                     + Z.of_nat i + 1)).
  reflexivity.
Qed.

Lemma prune_dense (ev : string) (s4 : Store) (k : nat) :
  NoDup (map pr_id (patch_channels s4)) ->
  Permutation (map pr_channel_number (event_rows s4 ev)) (one_to k) ->
  Z.of_nat k < 1000 ->
  densely_numbered (pruneUnusedPatchChannels ev s4) ev.
Proof.
  intros Hkeys Hnum Hk.
  assert (Hdense4 : densely_numbered s4 ev) by now apply (densely_numbered_perm s4 ev k).
  unfold pruneUnusedPatchChannels.
  destruct (select_patch_rows s4 ev) as [|r0 l0] eqn:Esel; [exact Hdense4|].
  destruct (unusedIds ev s4) as [|x0 xs] eqn:Eun; [exact Hdense4|].
  rewrite <- Esel, <- Eun. clear r0 l0 Esel x0 xs Eun.
  set (unused := unusedIds ev s4).
  set (s1 := delete_patch_channels unused s4).
  set (rem := filter (fun p => negb (existsb (String.eqb (pr_id p)) unused))
                     (select_patch_rows s4 ev)).
  assert (Hrows1 : event_rows s1 ev
                   = filter (fun p => negb (Js.set_has (pr_id p) unused)) (event_rows s4 ev)).
  { unfold event_rows, s1, delete_patch_channels.
    cbn [patch_channels with_usage with_patch_channels]. apply filter_comm. }
  assert (Hrem : Permutation rem (event_rows s1 ev)).
  { rewrite Hrows1. unfold rem. apply Permutation_filter'. symmetry.
    apply select_patch_rows_perm. }
  destruct (map pr_id rem) as [|id0 ids] eqn:Eids.
  - destruct rem as [|r rem']; [|discriminate].
    apply Permutation_nil in Hrem.
    apply (densely_numbered_perm s1 ev 0). now rewrite Hrem.
  - rewrite <- Eids. clear id0 ids Eids.
    assert (Hstep : in_step (page_of (select_patch_channels s1 ev)) s1 ev).
    { unfold in_step. cbn [patchChannels page_of]. split; [reflexivity|]. split; [|split].
      - unfold s1, delete_patch_channels. cbn [patch_channels with_usage with_patch_channels].
        now apply NoDup_map_filter.
      - intros r Hr Hev.
        assert (Hin : In r (event_rows s4 ev)).
        { assert (H1 : In r (event_rows s1 ev)) by now apply event_rows_In.
          rewrite Hrows1 in H1. now apply filter_In in H1. }
        assert (Hn : In (pr_channel_number r) (one_to k)).
        { eapply Permutation_in; [exact Hnum | now apply in_map]. }
        apply one_to_In in Hn. lia.
      - unfold select_patch_channels. rewrite length_map.
        rewrite <- (Permutation_length (select_patch_rows_perm s1 ev)), Hrows1.
        pose proof (filter_length_le (fun p => negb (Js.set_has (pr_id p) unused))
                                     (event_rows s4 ev)) as Hle.
        apply Permutation_length in Hnum. rewrite length_map in Hnum.
        unfold one_to in Hnum. rewrite length_map, length_seq in Hnum. lia. }
    assert (Hperm : Permutation (map (patchOf s1) rem)
                                (patchChannelRows (page_of (select_patch_channels s1 ev)))).
    { rewrite <- patchChannelRows_perm. cbn [patchChannels page_of].
      rewrite select_patch_channels_patchOf. apply Permutation_map.
      rewrite Hrem. apply select_patch_rows_perm. }
    destruct (order_committed _ s1 ev (map (patchOf s1) rem) Hstep Hperm) as [_ Hsel].
    rewrite map_map in Hsel. cbn [patchOf pc_id] in Hsel.
    change (map (fun x : PatchRow => pr_id x) rem) with (map pr_id rem) in Hsel.
    unfold densely_numbered.
    assert (Hnums : map pr_channel_number
                        (select_patch_rows (applyChannelOrder (map pr_id rem) s1) ev)
                    = map channel_number
                          (select_patch_channels (applyChannelOrder (map pr_id rem) s1) ev)).
    { unfold select_patch_channels. now rewrite map_map. }
    rewrite Hnums, Hsel, numberedRows_numbers. f_equal.
    transitivity (List.length (select_patch_channels
                                 (applyChannelOrder (map pr_id rem) s1) ev)).
    + now rewrite Hsel, numberedRows_length.
    + unfold select_patch_channels. now rewrite length_map.
Qed.

(** X19: a band save keeps the channel numbers of the event dense.  When
    the page shows the patch channels of the event as stored, these are
    numbered 1, 2, ..., n and the selection cannot take the event to a
    thousand channels, then after [handleAddBand] has run to its end the
    patch channels of the event are again numbered 1, 2, ..., n' without
    gap or duplicate, whatever the save appended and the pruning deleted. *)
Theorem save_keeps_numbering_dense (isAuto : bool) (snap : Builder) (s : Store)
  (c' : Builder) (s' : Store) (ev : EventRow) :
  selectedEvent snap = Some ev ->
  handleAddBand isAuto snap s = (Completed, c', s') ->
  patchChannels snap = select_patch_channels s (ev_id ev) ->
  (forall cid, In cid (newBandSelection snap) -> cid <> "") ->
  uuid_fresh s ->
  NoDup (map pr_id (patch_channels s)) ->
  densely_numbered s (ev_id ev) ->
  Z.of_nat (List.length (event_rows s (ev_id ev)) + List.length (newBandSelection snap))
  < 1000 ->
  densely_numbered s' (ev_id ev).
Proof.
  intros Hev Hrun Hsync Hsel Hfresh Hkeys Hdense Hshort.
  destruct (handleAddBand_completed _ _ _ _ _ Hrun)
    as (ev' & target & nb & data & c2 & s4 & Hev' & Hpersist & ->).
  assert (ev' = ev) by congruence. subst ev'.
  destruct (saved_tables isAuto snap s ev target nb data c2 s4 Hev Hpersist Hsync Hsel Hfresh)
    as (P4 & _).
  apply (prune_dense (ev_id ev) s4
           (List.length (event_rows s (ev_id ev))
            + List.length (lacking s (ev_id ev) (newBandSelection snap)))).
  - rewrite P4. now apply synced_patch_keys.
  - unfold event_rows at 1. rewrite P4, event_rows_app.
    + now apply appended_dense.
    + intros r Hr. apply appended_rows_In in Hr. destruct Hr as (cid & i & _ & ->).
      reflexivity.
  - pose proof (filter_length_le (fun cid => negb (has_patch s (ev_id ev) cid))
                                 (newBandSelection snap)) as Hle.
    unfold lacking. lia.
Qed.

Lemma save_keeps_numbering_dense_witness :
  densely_numbered
    (snd (handleAddBand false (edit_builder two_band_store "ii#" ["ch-snare"])
                        two_band_store))
    "ev-1".
Proof.
  apply (save_keeps_numbering_dense false (edit_builder two_band_store "ii#" ["ch-snare"])
           two_band_store
           (snd (fst (handleAddBand false (edit_builder two_band_store "ii#" ["ch-snare"])
                                    two_band_store)))
           (snd (handleAddBand false (edit_builder two_band_store "ii#" ["ch-snare"])
                               two_band_store))
           sample_event).
  - reflexivity.
  - vm_compute. reflexivity.
  - reflexivity.
  - simpl. intros cid [<- | []]. discriminate.
  - apply sample_uuid_fresh; reflexivity.
  - simpl. nodup_strings.
  - reflexivity.
  - vm_compute. reflexivity.
Defined.

(** * The form after a save, and saving again *)

Lemma loadBandIntoForm_found (snap c : Builder) (bid : string) (band : Band) :
  bid <> "" ->
  find (fun b => String.eqb (band_id b) bid) (bandList snap) = Some band ->
  editingBandId (loadBandIntoForm snap (Some bid) c) = Some bid
  /\ newBandName (loadBandIntoForm snap (Some bid) c) = band_name band
  /\ newBandSelection (loadBandIntoForm snap (Some bid) c)
     = newBandSelection (loadBandIntoForm snap (Some bid) snap)
  /\ bandDirty (loadBandIntoForm snap (Some bid) c) = false.
Proof.
  intros Hne Hfind. unfold loadBandIntoForm.
  assert (Ht : Js.truthy (Some bid) = true).
  { unfold Js.truthy. now apply negb_true_iff, String.eqb_neq. }
  rewrite Ht, Hfind. repeat split.
Qed.

Lemma handleAddBand_edit_form (isAuto : bool) (snap : Builder) (s : Store)
  (c' : Builder) (s' : Store) (bid : string) :
  handleAddBand isAuto snap s = (Completed, c', s') ->
  editingBandId snap = Some bid -> bid <> "" ->
  exists c6, c' = loadBandIntoForm snap (Some bid) c6.
Proof.
  intros Hrun Hedit Hne.
  assert (Ht : Js.truthy (Some bid) = true).
  { unfold Js.truthy. now apply negb_true_iff, String.eqb_neq. }
  assert (Hsave : forall ev s1, saveBand ev snap s1
                                = (bid, None, update_band_name bid (Js.trim (newBandName snap)) s1)).
  { intros ev s1. unfold saveBand. now rewrite Hedit, Ht. }
  revert Hrun. unfold handleAddBand.
  remember (loadBandIntoForm snap) as L eqn:EL.
  destruct (persistBand isAuto snap s) as [o c0 s0 | target nb data c2 s4] eqn:E.
  - intros H. injection H as -> _ _. now apply persistBand_never_completes in E.
  - destruct (persistBand_stored _ _ _ _ _ _ _ _ E)
      as (ev & c1 & m & s1 & s2 & Hev & _ & _ & Hsb & _).
    rewrite Hsave in Hsb. injection Hsb as <- <- _.
    rewrite Hev, Hedit. unfold first_truthy. rewrite Ht. cbv beta iota. rewrite ?Ht.
    intros H. injection H as <- _.
    destruct isAuto; cbv [andb negb]; eexists; reflexivity.
Qed.

(** X20: after the save of a band that is being edited the form goes back
    to what the page knew of the band before the save.  [handleAddBand]
    ends with [loadBandIntoForm], which reads the bands, patch channels
    and usage map of the render the save started from: the form keeps the
    band selected and clean, but shows the name the band had on the page
    and the selection its usage rows gave before the save, whatever name
    and selection were saved. *)
Theorem form_after_edit_save (isAuto : bool) (snap : Builder) (s : Store)
  (c' : Builder) (s' : Store) (bid : string) (band : Band) :
  handleAddBand isAuto snap s = (Completed, c', s') ->
  editingBandId snap = Some bid -> bid <> "" ->
  find (fun b => String.eqb (band_id b) bid) (bandList snap) = Some band ->
  editingBandId c' = Some bid
  /\ newBandName c' = band_name band
  /\ newBandSelection c' = newBandSelection (loadBandIntoForm snap (Some bid) snap)
  /\ bandDirty c' = false.
Proof.
  intros Hrun Hedit Hne Hfind.
  destruct (handleAddBand_edit_form isAuto snap s c' s' bid Hrun Hedit Hne) as [c6 ->].
  now apply loadBandIntoForm_found.
Qed.

Lemma form_after_edit_save_witness :
  newBandSelection
    (snd (fst (handleAddBand false (edit_builder two_band_store "ii#" ["ch-snare"])
                             two_band_store)))
  = ["ch-kick"; "ch-vox"]
  /\ newBandSelection (edit_builder two_band_store "ii#" ["ch-snare"]) = ["ch-snare"].
Proof.
  split; [|reflexivity].
  apply (form_after_edit_save false (edit_builder two_band_store "ii#" ["ch-snare"])
           two_band_store
           (snd (fst (handleAddBand false (edit_builder two_band_store "ii#" ["ch-snare"])
                                    two_band_store)))
           (snd (handleAddBand false (edit_builder two_band_store "ii#" ["ch-snare"])
                               two_band_store))
           "ii#" (mkBand "ii#" "Opener" 1)).
  - vm_compute. reflexivity.
  - reflexivity.
  - discriminate.
  - reflexivity.
Defined.

Lemma filter_nil_all {A : Type} (f : A -> bool) (l : list A) :
  filter f l = [] -> forall x, In x l -> f x = false.
Proof.
  induction l as [|y l IH]; intros H x Hx; [contradiction|].
  cbn [filter] in H. destruct (f y) eqn:E; [discriminate|].
  destruct Hx as [<- | Hx]; [exact E | now apply IH].
Qed.



